(** * Food-Mapper: the embedding-acquisition layer and the matching core

    A shallow embedding of the embedding back ends, the batch scheduler, the
    API-to-local fallback controller and the match classification of
    [src/app.py], with the properties of the specification proved (or
    refuted) on it.

    Layout: the model first (Python values, the remote back end, the batch
    schedulers, the coroutine monad with the fallback controller, the match
    engine), then the theorems, layer by layer. *)

From Stdlib Require Import Floats.
From stdpp Require Import gmap strings list sorting pretty.

Set Warnings "-inexact-float,-clear-no-such-hyp".
Set Default Proof Using "Type".

(* ===================================================================== *)
(** * Part I: the model                                                   *)
(* ===================================================================== *)

(** ** Python values shared by every layer *)

Definition text := string.

(** Every exception the code raises or catches is an [Exception]; only its
    message is ever read ([str(e)]). *)
Inductive exn : Type :=
| Exception (msg : string).

Definition str (e : exn) : string :=
  match e with Exception m => m end.

(** [str(last_err)] where [last_err] may still be [None]. *)
Definition str_opt (e : option exn) : string :=
  match e with Some e => str e | None => "None" end.

Inductive result (A : Type) : Type :=
| Ok (a : A)
| Raise (e : exn).
Arguments Ok {A} a.
Arguments Raise {A} e.

Definition is_ok {A} (r : result A) : bool :=
  match r with Ok _ => true | Raise _ => false end.

(** [texts[start:end]] for [0 <= start <= end]. *)
Definition slice {A} (l : list A) (start stop : nat) : list A :=
  take (stop - start) (drop start l).

(** [range(0, total, step)] for a positive [step]. *)
Definition py_range0 (total step : nat) : list nat :=
  (λ k, k * step) <$> seq 0 ((total + step - 1) `div` step).

(** [sorted(d.keys())] for a dict keyed by integers. *)
Definition sorted_keys {V} (d : gmap nat V) : list nat :=
  merge_sort (≤) (fst <$> map_to_list d).

Section Backend.

(** A row of the float32 matrix that [np.array] builds from one
    [data.embedding]. Rows are kept abstract: nothing below looks inside. *)
Context {vec : Type}.

Definition matrix := list vec.

(** [np.vstack] of row blocks. *)
Definition np_vstack (blocks : list matrix) : matrix := concat blocks.

(** ** The remote back end (lines 1271-1322) *)

(** What [client.embeddings.create] returns, and the 1-tuple that a trailing
    comma after the call makes of it. *)
Inductive pyobj : Type :=
| CreateEmbeddingResponse (data : list vec)
| PyTuple1 (item : pyobj).

(** [response.data] *)
Definition getattr_data (response : pyobj) : result (list vec) :=
  match response with
  | CreateEmbeddingResponse data => Ok data
  | PyTuple1 _ => Raise (Exception "'tuple' object has no attribute 'data'")
  end.

(** The endpoint as one back-end call sees it: its answer to the [k]-th
    [embeddings.create] of that call (the embeddings of [response.data], or
    the exception raised). *)
Definition endpoint := nat → list text → result (list vec).

Inductive event : Type :=
| EvCreate (input : list text)
| EvSleep (secs : float).

(** [compute_embeddings_deepinfra]: one [create]; the statement ends in a
    comma, so [response] is a 1-tuple and [response.data] raises inside the
    [try]; either way the [except] re-raises with the prefix. *)
Definition compute_embeddings_deepinfra (ep : endpoint) (texts : list text)
  : result matrix * list event :=
  let attempt :=
    match ep 0 texts with
    | Raise e => Raise e
    | Ok data =>
        let response := PyTuple1 (CreateEmbeddingResponse data) in
        getattr_data response
    end in
  match attempt with
  | Ok embeddings => (Ok embeddings, [EvCreate texts])
  | Raise e => (Raise (Exception ("DeepInfra API error: " +:+ str e)), [EvCreate texts])
  end.

(** [min(4.0, 0.25 * (2 ** attempt))]; Python's [min(a, b)] is [b] when
    [b < a] and [a] otherwise. *)
Definition backoff (attempt : nat) : float :=
  let b := (0.25 * PrimFloat.of_uint63 (Uint63.of_Z (2 ^ Z.of_nat attempt)))%float in
  if (b <? 4.0)%float then b else 4.0%float.

(** The body of [for attempt in range(5)] with its inner [try]. *)
Fixpoint retry_loop (ep : endpoint) (texts : list text) (attempts : list nat)
    (last_err : option exn) : result matrix * list event :=
  match attempts with
  | [] =>
      (Raise (Exception ("DeepInfra API error after retries: " +:+ str_opt last_err)), [])
  | attempt :: rest =>
      let tried :=
        match ep attempt texts with
        | Raise e => Raise e
        | Ok data => getattr_data (CreateEmbeddingResponse data)
        end in
      match tried with
      | Ok embeddings => (Ok embeddings, [EvCreate texts])
      | Raise e =>
          let '(r, tr) := retry_loop ep texts rest (Some e) in
          (r, EvCreate texts :: EvSleep (backoff attempt) :: tr)
      end
  end.

(** [compute_embeddings_deepinfra_async] *)
Definition compute_embeddings_deepinfra_async (ep : endpoint) (texts : list text)
  : result matrix * list event :=
  match retry_loop ep texts (seq 0 5) None with
  | (Ok embeddings, tr) => (Ok embeddings, tr)
  | (Raise e, tr) => (Raise (Exception ("DeepInfra API error: " +:+ str e)), tr)
  end.

(** ** The batch schedulers (lines 1324-1399) *)

(** [_chunk_indices]; [range] rejects a zero step. *)
Definition _chunk_indices (total chunk_size : nat) : result (list (nat * nat)) :=
  if decide (chunk_size = 0) then Raise (Exception "range() arg 3 must not be zero")
  else Ok ((λ i, (i, (i + chunk_size) `min` total)) <$> py_range0 total chunk_size).

(** [_embed_batch_slice] *)
Definition _embed_batch_slice (ep : endpoint) (start stop : nat) (texts : list text)
  : result (nat * matrix) :=
  match fst (compute_embeddings_deepinfra ep (slice texts start stop)) with
  | Ok batch_vecs => Ok (start, batch_vecs)
  | Raise e => Raise e
  end.

(** The order in which concurrent calls complete is a choice of the
    scheduler: [picks] selects, step by step, which pending call finishes
    next. Every list of picks gives a permutation and every permutation is
    given by some picks. *)
Fixpoint completion_order {A} (picks : list nat) (pending : list A) (fuel : nat) : list A :=
  match fuel with
  | 0 => []
  | S fuel' =>
      match pending with
      | [] => []
      | _ :: _ =>
          let k := hd 0 picks `mod` length pending in
          match pending !! k with
          | Some x => x :: completion_order (tl picks) (delete k pending) fuel'
          | None => []
          end
      end
  end.

Definition as_completed {A} (picks : list nat) (futures : list A) : list A :=
  completion_order picks futures (length futures).

(** The loop that stores each completed batch under its start index; the
    first future that raised ends it. *)
Fixpoint collect (done : list (result (nat * matrix))) (results : gmap nat matrix)
  : result (gmap nat matrix) :=
  match done with
  | [] => Ok results
  | Raise e :: _ => Raise e
  | Ok (start, vecs) :: rest => collect rest (<[start := vecs]> results)
  end.

(** "Assemble in order" *)
Definition assemble (results : gmap nat matrix) : matrix :=
  np_vstack ((λ s, results !!! s) <$> sorted_keys results).

(** [compute_embeddings_parallel]. [eps start] is the endpoint as the call
    for the batch starting at [start] sees it. *)
Definition compute_embeddings_parallel (eps : nat → endpoint) (picks : list nat)
    (texts : list text) (batch_size max_concurrency : nat) : result matrix :=
  let n := length texts in
  if decide (n = 0) then Ok []
  else
    match _chunk_indices n batch_size with
    | Raise e => Raise e
    | Ok slices =>
        if decide (max_concurrency = 0)
        then Raise (Exception "max_workers must be greater than 0")
        else
          let futures :=
            (λ '(start, stop), _embed_batch_slice (eps start) start stop texts) <$> slices in
          match collect (as_completed picks futures) ∅ with
          | Raise e => Raise e
          | Ok results => Ok (assemble results)
          end
    end.

(** One [worker(start, end)] of the asynchronous scheduler. *)
Definition parallel_worker (ep : endpoint) (start stop : nat) (texts : list text)
  : result (nat * matrix) :=
  match fst (compute_embeddings_deepinfra_async ep (slice texts start stop)) with
  | Ok vecs => Ok (start, vecs)
  | Raise e => Raise e
  end.

(** [compute_embeddings_parallel_async]. [None]: the call never returns (a
    semaphore of zero permits admits no worker). *)
Definition compute_embeddings_parallel_async (eps : nat → endpoint) (picks : list nat)
    (texts : list text) (batch_size max_concurrency : nat) : option (result matrix) :=
  let n := length texts in
  if decide (n = 0) then Some (Ok [])
  else
    match _chunk_indices n batch_size with
    | Raise e => Some (Raise e)
    | Ok slices =>
        if decide (max_concurrency = 0) then None
        else
          let workers :=
            (λ '(start, stop), parallel_worker (eps start) start stop texts) <$> slices in
          match collect (as_completed picks workers) ∅ with
          | Raise e => Some (Raise e)
          | Ok results => Some (Ok (assemble results))
          end
    end.

(** ** Vocabulary of the statements about the back end *)

(** The slices [_chunk_indices] returns for a positive chunk size. *)
Definition chunks (total chunk_size : nat) : list (nat * nat) :=
  (λ i, (i, (i + chunk_size) `min` total)) <$> py_range0 total chunk_size.

(** One [create] and the sleep that follows its failure, per failed attempt. *)
Definition backoff_trace (texts : list text) (failed : list nat) : list event :=
  failed ≫= λ attempt, [EvCreate texts; EvSleep (backoff attempt)].

End Backend.

(** ** Configuration (lines 1209-1217) and process-wide state (1220-1223) *)

Record Config : Type := {
  MAX_CONCURRENCY : nat;
  EMBED_BATCH_SIZE : nat;
  USE_ASYNC : bool;
  API_MAX_FAILURES : Z;
  MODEL_FALLBACK_MODE : string;
}.

(** The values taken when the environment sets none of the options. *)
Definition default_config : Config := {|
  MAX_CONCURRENCY := 100;
  EMBED_BATCH_SIZE := 200;
  USE_ASYNC := true;
  API_MAX_FAILURES := 3;
  MODEL_FALLBACK_MODE := "auto";
|}.

Inductive notice : Type :=
| Progress (msg : string)
| NotifyModelLoading
| NotifyModelLoaded
| NotifyFallback (failures : Z) (items : nat)
| NotifyLocalForced (items : nat)
| NotifyFallbackAtStart
| NotifyWarning (msg : string).

Section Controller.

Context {vec : Type}.
(** A loaded [SentenceTransformer]. *)
Context {model : Type}.
(** [re.sub(r'\s+', ' ', str(text).strip())], the per-string step of
    [clean_text_for_embedding]. Nothing below depends on what the two
    cleaning steps compute. *)
Context (clean_embedding1 : text → text).
(** The per-string step of [clean_text_simple]. *)
Context (clean_simple1 : text → text).
(** scikit-learn's [cosine_similarity], one row of scores per row of its
    first argument. *)
Context (cosine_similarity : @matrix vec → @matrix vec → result (list (list float))).

Record Globals : Type := {
  _API_FAILURES : Z;
  FALLBACK_ACTIVE : bool;
  _LOCAL_ST_MODEL : option model;
}.

(** The three module-level values as the module body leaves them. *)
Definition initial_globals : Globals := {|
  _API_FAILURES := 0;
  FALLBACK_ACTIVE := false;
  _LOCAL_ST_MODEL := None;
|}.

(** ** Coroutines

    An [async def] is a tree of uninterrupted segments: reads and writes of
    the module globals, notifications and semaphore releases run without
    yielding to the event loop; an [Await] suspends the coroutine until the
    loop delivers the outcome of the awaited operation. *)

Inductive io : Type → Type :=
| IoTryApi (texts : list text) : io (@matrix vec)
| IoLoadModel : io model
| IoEncode (m : model) (batches : list (list text)) : io (@matrix vec)
| IoSleep (secs : float) : io unit
| IoAcquire : io unit.

Inductive coro (A : Type) : Type :=
| Ret (a : A)
| Throw (e : exn)
| GetGlobals (k : Globals → coro A)
| PutGlobals (g : Globals) (k : coro A)
| Emit (n : notice) (k : coro A)
| Release (k : coro A)
| Await {B : Type} (op : io B) (k : result B → coro A).
Arguments Ret {A} a.
Arguments Throw {A} e.
Arguments GetGlobals {A} k.
Arguments PutGlobals {A} g k.
Arguments Emit {A} n k.
Arguments Release {A} k.
Arguments Await {A B} op k.

Fixpoint coro_bind {A B} (f : A → coro B) (c : coro A) : coro B :=
  match c with
  | Ret a => f a
  | Throw e => Throw e
  | GetGlobals k => GetGlobals (λ g, coro_bind f (k g))
  | PutGlobals g k => PutGlobals g (coro_bind f k)
  | Emit n k => Emit n (coro_bind f k)
  | Release k => Release (coro_bind f k)
  | Await op k => Await op (λ r, coro_bind f (k r))
  end.

#[local] Instance coro_ret : MRet coro := λ A a, Ret a.
#[local] Instance coro_mbind : MBind coro := λ A B f c, coro_bind f c.

(** [try: body except Exception as e: handler(e)] *)
Fixpoint try_except {A} (body : coro A) (handler : exn → coro A) : coro A :=
  match body with
  | Ret a => Ret a
  | Throw e => handler e
  | GetGlobals k => GetGlobals (λ g, try_except (k g) handler)
  | PutGlobals g k => PutGlobals g (try_except k handler)
  | Emit n k => Emit n (try_except k handler)
  | Release k => Release (try_except k handler)
  | Await op k => Await op (λ r, try_except (k r) handler)
  end.

Definition await {B} (op : io B) : coro B :=
  Await op (λ r, match r with Ok b => Ret b | Raise e => Throw e end).

Definition emit (n : notice) : coro unit := Emit n (Ret ()).

(** [if progress_callback: progress_callback(msg)] *)
Definition progress (progress_callback : bool) (msg : string) : coro unit :=
  if progress_callback then emit (Progress msg) else Ret ().

(** Assignments to one global. *)
Definition set_API_FAILURES (n : Z) : coro unit :=
  GetGlobals (λ g, PutGlobals
    {| _API_FAILURES := n; FALLBACK_ACTIVE := FALLBACK_ACTIVE g;
       _LOCAL_ST_MODEL := _LOCAL_ST_MODEL g |} (Ret ())).

Definition set_FALLBACK_ACTIVE (b : bool) : coro unit :=
  GetGlobals (λ g, PutGlobals
    {| _API_FAILURES := _API_FAILURES g; FALLBACK_ACTIVE := b;
       _LOCAL_ST_MODEL := _LOCAL_ST_MODEL g |} (Ret ())).

Definition set_LOCAL_ST_MODEL (m : option model) : coro unit :=
  GetGlobals (λ g, PutGlobals
    {| _API_FAILURES := _API_FAILURES g; FALLBACK_ACTIVE := FALLBACK_ACTIVE g;
       _LOCAL_ST_MODEL := m |} (Ret ())).

(** ** The local back end (lines 1402-1462) *)

Definition clean_text_for_embedding (text_list : list text) : list text :=
  clean_embedding1 <$> text_list.

Definition clean_text_simple (text_list : list text) : list text :=
  clean_simple1 <$> text_list.

(** [_load_local_model] *)
Definition _load_local_model : coro model :=
  g ← GetGlobals Ret;
  match _LOCAL_ST_MODEL g with
  | Some cached => Ret cached
  | None =>
      emit NotifyModelLoading;;
      m ← await IoLoadModel;
      set_LOCAL_ST_MODEL (Some m);;
      emit NotifyModelLoaded;;
      Ret m
  end.

(** [compute_embeddings_local_async]. The slices are computed once the
    model is there, so a batch size of zero raises after the load. The
    [gather] of the [work] tasks, one [model.encode] thread per slice, and
    the assembly of their results in start order are one suspension:
    [IoEncode m batches] is answered with the assembled matrix, or with the
    exception of the first task that raised. *)
Definition compute_embeddings_local_async (cfg : Config) (texts : list text)
  : coro (@matrix vec) :=
  let texts := clean_text_for_embedding texts in
  if decide (length texts = 0) then Ret []
  else
    m ← _load_local_model;
    match _chunk_indices (length texts) (EMBED_BATCH_SIZE cfg) with
    | Raise e => Throw e
    | Ok slices =>
        await (IoEncode m ((λ '(start, stop), slice texts start stop) <$> slices))
    end.

(** ** The resilient wrapper (lines 1465-1531) *)

(** [_try_api_embeddings]: the asynchronous remote call under
    [asyncio.wait_for]; its outcome is the matrix, the back end's error or
    the timeout. *)
Definition _try_api_embeddings (texts : list text) : coro (@matrix vec) :=
  await (IoTryApi texts).

Definition compute_embeddings_resilient_async (cfg : Config) (texts : list text)
    (progress_callback : bool) : coro (@matrix vec) :=
  let mode := MODEL_FALLBACK_MODE cfg in
  if String.eqb mode "local" then
    set_FALLBACK_ACTIVE true;;
    progress progress_callback "Local CPU embeddings (forced).";;
    compute_embeddings_local_async cfg texts
  else if String.eqb mode "api" then
    set_FALLBACK_ACTIVE false;;
    progress progress_callback "Using API embeddings (forced).";;
    _try_api_embeddings texts
  else if String.eqb mode "off" then
    set_FALLBACK_ACTIVE false;;
    _try_api_embeddings texts
  else
    g ← GetGlobals Ret;
    if FALLBACK_ACTIVE g then
      progress progress_callback "Local CPU embeddings (fallback active).";;
      compute_embeddings_local_async cfg texts
    else
      try_except
        (vecs ← _try_api_embeddings texts;
         set_API_FAILURES 0;;
         set_FALLBACK_ACTIVE false;;
         Ret vecs)
        (λ e,
           g ← GetGlobals Ret;
           set_API_FAILURES (_API_FAILURES g + 1);;
           g ← GetGlobals Ret;
           if decide (API_MAX_FAILURES cfg ≤ _API_FAILURES g)%Z then
             set_FALLBACK_ACTIVE true;;
             emit (NotifyFallback (_API_FAILURES g) (length texts));;
             progress progress_callback "API unavailable. Falling back to local CPU.";;
             compute_embeddings_local_async cfg texts
           else Throw e).

(** ** The event loop

    A world is the module globals, the notifications shown so far and the
    free permits of the run's semaphore. [advance] runs a coroutine to its
    next suspension (or to its end); [deliver] hands a suspended task the
    outcome of the operation it awaits and runs its next segment. A schedule
    is the list of deliveries, in the order the loop makes them. The loop of
    asyncio starts the tasks of a [gather] in order and wakes the waiters of
    a semaphore first come, first served: its schedules are among the ones
    here. *)

Record world : Type := {
  globals : Globals;
  notices : list notice;
  permits : nat;
}.

Fixpoint advance {A} (c : coro A) (w : world) : coro A * world :=
  match c with
  | GetGlobals k => advance (k (globals w)) w
  | PutGlobals g k =>
      advance k {| globals := g; notices := notices w; permits := permits w |}
  | Emit n k =>
      advance k {| globals := globals w; notices := notices w ++ [n]; permits := permits w |}
  | Release k =>
      advance k {| globals := globals w; notices := notices w; permits := S (permits w) |}
  | _ => (c, w)
  end.

Inductive reply : Type :=
| ReplyMatrix (r : result (@matrix vec))
| ReplyModel (r : result model)
| ReplyUnit.

Definition resume {A B} (op : io B) : (result B → coro A) → reply → option (coro A) :=
  match op in io B return (result B → coro A) → reply → option (coro A) with
  | IoTryApi _ => λ k r, match r with ReplyMatrix m => Some (k m) | _ => None end
  | IoLoadModel => λ k r, match r with ReplyModel m => Some (k m) | _ => None end
  | IoEncode _ _ => λ k r, match r with ReplyMatrix m => Some (k m) | _ => None end
  | IoSleep _ => λ k r, match r with ReplyUnit => Some (k (Ok ())) | _ => None end
  | IoAcquire => λ k r, match r with ReplyUnit => Some (k (Ok ())) | _ => None end
  end.

(** The semaphore grants [IoAcquire] only while a permit is free. *)
Definition grant {B} (op : io B) (w : world) : option world :=
  match op with
  | IoAcquire =>
      match permits w with
      | 0 => None
      | S p => Some {| globals := globals w; notices := notices w; permits := p |}
      end
  | _ => Some w
  end.

(** What a task is suspended on. *)
Inductive waiting : Type :=
| WaitApi (texts : list text)
| WaitLoad
| WaitEncode (m : model) (batches : list (list text))
| WaitSleep (secs : float)
| WaitAcquire
| Runnable
| Ended.

Definition waiting_on {A} (c : coro A) : waiting :=
  match c with
  | Await op _ =>
      match op with
      | IoTryApi texts => WaitApi texts
      | IoLoadModel => WaitLoad
      | IoEncode m batches => WaitEncode m batches
      | IoSleep secs => WaitSleep secs
      | IoAcquire => WaitAcquire
      end
  | Ret _ | Throw _ => Ended
  | _ => Runnable
  end.

(** The loop hands a suspended task the outcome [r] of the operation it
    awaits and runs the task's next segment. [None]: the task awaits
    nothing, or something else than [r] answers. *)
Definition step_task {A} (c : coro A) (r : reply) (w : world) : option (coro A * world) :=
  match c with
  | Await op k =>
      w1 ← grant op w;
      c1 ← resume op k r;
      Some (advance c1 w1)
  | _ => None
  end.

Record exec (A : Type) : Type := {
  tasks : list (coro A);
  now : world;
  finished : list (nat * result A);
}.
Arguments tasks {A} _.
Arguments now {A} _.
Arguments finished {A} _.

Definition outcome {A} (i : nat) (c : coro A) : list (nat * result A) :=
  match c with
  | Ret a => [(i, Ok a)]
  | Throw e => [(i, Raise e)]
  | _ => []
  end.

(** [None]: the schedule asks for a delivery the loop cannot make. *)
Definition deliver {A} (ex : exec A) (ev : nat * reply) : option (exec A) :=
  c ← tasks ex !! ev.1;
  '(c', w') ← step_task c ev.2 (now ex);
  Some {| tasks := <[ev.1 := c']> (tasks ex); now := w';
          finished := finished ex ++ outcome ev.1 c' |}.

Fixpoint run_schedule {A} (ex : exec A) (schedule : list (nat * reply)) : option (exec A) :=
  match schedule with
  | [] => Some ex
  | ev :: rest => ex' ← deliver ex ev; run_schedule ex' rest
  end.

(** A coroutine awaited on its own: the replies are delivered to it one
    after the other. [None]: it is still suspended when they run out, or one
    of them does not answer what it awaits. *)
Fixpoint run_suspended {A} (c : coro A) (w : world) (replies : list reply)
  : option (result A * world) :=
  match c with
  | Ret a => Some (Ok a, w)
  | Throw e => Some (Raise e, w)
  | _ =>
      match replies with
      | [] => None
      | r :: rest =>
          '(c', w') ← step_task c r w;
          run_suspended c' w' rest
      end
  end.

Definition run_alone {A} (c : coro A) (w : world) (replies : list reply)
  : option (result A * world) :=
  let '(c', w') := advance c w in run_suspended c' w' replies.

(** ** The match engine (lines 1601-1744) *)

(** [np.argmax] over one row of scores: the first index holding the
    maximum; a NaN counts as the maximum. *)
Fixpoint argmax_scan (mp : float) (max_ind i : nat) (rest : list float) : nat :=
  match rest with
  | [] => max_ind
  | x :: rest' =>
      if negb (PrimFloat.leb x mp)
      then (if PrimFloat.is_nan x then i else argmax_scan x i (S i) rest')
      else argmax_scan mp max_ind (S i) rest'
  end.

Definition np_argmax (row : list float) : result nat :=
  match row with
  | [] => Raise (Exception "attempt to get argmax of an empty sequence")
  | x :: rest => if PrimFloat.is_nan x then Ok 0 else Ok (argmax_scan x 0 1 rest)
  end.

(** The loop [for row in sim] of both matchers: the label is
    [target_list[idx]], the score [float(row[idx])]. *)
Fixpoint match_rows (target_list : list text) (sim : list (list float))
  : result (list text * list float) :=
  match sim with
  | [] => Ok ([], [])
  | row :: rest =>
      match np_argmax row with
      | Raise e => Raise e
      | Ok idx =>
          match target_list !! idx, row !! idx with
          | Some label, Some score =>
              match match_rows target_list rest with
              | Ok (batch_matches, batch_scores) =>
                  Ok (label :: batch_matches, score :: batch_scores)
              | Raise e => Raise e
              end
          | _, _ => Raise (Exception "list index out of range")
          end
      end
  end.

Definition batch := (nat * (list text * list float))%type.

(** The loops that store each finished batch under its start index and the
    ordered assembly ("Assemble results in order"). *)
Fixpoint collect_matches (done : list (result batch)) (results : gmap nat (list text * list float))
  : result (gmap nat (list text * list float)) :=
  match done with
  | [] => Ok results
  | Raise e :: _ => Raise e
  | Ok (start, ms) :: rest => collect_matches rest (<[start := ms]> results)
  end.

Definition assemble_matches (results : gmap nat (list text * list float))
  : list text * list float :=
  let ordered := (λ s, results !!! s) <$> sorted_keys results in
  (concat (fst <$> ordered), concat (snd <$> ordered)).

(** [run_embed_match], the thread-pool matcher. *)
Definition _process_input_slice (ep : endpoint) (input_list_clean target_list : list text)
    (target_embeddings : @matrix vec) (start stop : nat) : result batch :=
  match fst (compute_embeddings_deepinfra ep (slice input_list_clean start stop)) with
  | Raise e => Raise e
  | Ok emb =>
      match cosine_similarity emb target_embeddings with
      | Raise e => Raise e
      | Ok sim =>
          match match_rows target_list sim with
          | Raise e => Raise e
          | Ok ms => Ok (start, ms)
          end
      end
  end.

Definition run_embed_match (eps_targets eps_inputs : nat → endpoint)
    (picks_targets picks_inputs : list nat)
    (input_list target_list : list text) (batch_size max_concurrency : nat)
    (clean_input clean_target : bool) : result (list text * list float) :=
  let input_list_clean :=
    if clean_input then clean_text_for_embedding input_list else input_list in
  let target_list_clean :=
    if clean_target then clean_text_for_embedding target_list else target_list in
  match compute_embeddings_parallel eps_targets picks_targets target_list_clean
          (batch_size `min` 1024) max_concurrency with
  | Raise e => Raise e
  | Ok target_embeddings =>
      match _chunk_indices (length input_list_clean) (batch_size `min` 1024) with
      | Raise e => Raise e
      | Ok input_slices =>
          if decide (max_concurrency = 0)
          then Raise (Exception "max_workers must be greater than 0")
          else
            let futures :=
              (λ '(start, stop),
                 _process_input_slice (eps_inputs start) input_list_clean target_list
                   target_embeddings start stop) <$> input_slices in
            match collect_matches (as_completed picks_inputs futures) ∅ with
            | Raise e => Raise e
            | Ok results => Ok (assemble_matches results)
            end
      end
  end.

(** [async with sem: body]: the permit goes back however the body ends. *)
Definition async_with_sem {A} (body : coro A) : coro A :=
  await IoAcquire;;
  try_except (x ← body; Release (Ret x)) (λ e, Release (Throw e)).

(** [worker(start, end)] of [run_embed_match_async]. The progress line that
    follows the stores carries the running count of finished batches; it is
    emitted here without the count. *)
Definition embed_match_worker (cfg : Config) (input_list_clean target_list : list text)
    (target_embeddings : @matrix vec) (progress_callback : bool) (start stop : nat)
  : coro batch :=
  emb ← async_with_sem
    (compute_embeddings_resilient_async cfg (slice input_list_clean start stop)
       progress_callback);
  match cosine_similarity emb target_embeddings with
  | Raise e => Throw e
  | Ok sim =>
      match match_rows target_list sim with
      | Raise e => Throw e
      | Ok ms => progress progress_callback "Matching";; Ret (start, ms)
      end
  end.

(** What [await asyncio.gather(...)] gives the awaiting coroutine: the first
    exception a task raised, or nothing to report once all [n] tasks ended. *)
Fixpoint first_raise {A} (finished : list (nat * result A)) : option exn :=
  match finished with
  | [] => None
  | (_, Raise e) :: _ => Some e
  | (_, Ok _) :: rest => first_raise rest
  end.

(** [run_embed_match_async]. [replies_targets] are the outcomes delivered to
    the target request, [schedule] the deliveries to the input workers.
    [None]: the schedule ends before [gather] has a result. The world
    returned is the one the whole schedule leaves: tasks still pending when
    [gather] raises run on. *)
Definition run_embed_match_async (cfg : Config)
    (replies_targets : list reply) (schedule : list (nat * reply))
    (input_list target_list : list text) (batch_size max_concurrency : nat)
    (progress_callback clean_input clean_target : bool) (w : world)
  : option (result (list text * list float) * world) :=
  let input_list_clean :=
    if clean_input then clean_text_for_embedding input_list else input_list in
  let target_list_clean :=
    if clean_target then clean_text_for_embedding target_list else target_list in
  '(targets, w1) ← run_alone
     (progress progress_callback "Computing target embeddings (async concurrent)...";;
      compute_embeddings_resilient_async cfg target_list_clean progress_callback)
     w replies_targets;
  match targets with
  | Raise e => Some (Raise e, w1)
  | Ok target_embeddings =>
      let w2 := snd (advance
        (progress progress_callback "Computing input embeddings (async concurrent)...") w1) in
      match _chunk_indices (length input_list_clean) (batch_size `min` 1024) with
      | Raise e => Some (Raise e, w2)
      | Ok input_slices =>
          let workers :=
            (λ '(start, stop),
               embed_match_worker cfg input_list_clean target_list target_embeddings
                 progress_callback start stop) <$> input_slices in
          let w3 :=
            {| globals := globals w2; notices := notices w2; permits := max_concurrency |} in
          ex ← run_schedule {| tasks := workers; now := w3; finished := [] |} schedule;
          match first_raise (finished ex) with
          | Some e => Some (Raise e, now ex)
          | None =>
              if decide (length (finished ex) = length workers) then
                match collect_matches (snd <$> finished ex) ∅ with
                | Raise e => Some (Raise e, now ex)
                | Ok results =>
                    Some (Ok (assemble_matches results),
                          snd (advance (progress progress_callback "Finalizing results...")
                                 (now ex)))
                end
              else None
          end
      end
  end.

(** ** One matching run (lines 3383-3658) *)

(** [list(dict.fromkeys(target_list))]: a dict keeps its keys in insertion
    order, and storing under a key already present leaves it in place. *)
Definition remember (d : list text) (k : text) : list text :=
  if decide (k ∈ d) then d else d ++ [k].

Definition dict_fromkeys (keys : list text) : list text :=
  foldl remember [] keys.

(** What the handler reads from the session: the emptiness of the two
    frames, the selected columns, the slider, the toggles, [get_api_key()]
    and the two columns after [dropna().tolist()]. *)
Record RunRequest : Type := {
  in_df_empty : bool;
  tgt_df_empty : bool;
  in_col : string;
  tgt_col : string;
  threshold : float;
  clean_input_text : bool;
  clean_target_text : bool;
  api_key : option string;
  input_column : list text;
  target_column : list text;
}.

(** Python truthiness of a string that may be [None]. *)
Definition truthy (s : option string) : bool :=
  match s with
  | None => false
  | Some s => negb (String.eqb s "")
  end.

Record Prepared : Type := {
  input_list : list text;
  target_list_unique : list text;
  input_list_display : list text;
}.

(** From the entry of [run_matching] to the call of the matcher (lines
    3394-3507). [None]: one of the three early returns. *)
Definition run_matching_start (cfg : Config) (rq : RunRequest) : coro (option Prepared) :=
  if in_df_empty rq || tgt_df_empty rq then
    emit (NotifyWarning "Please upload both input and target files");; Ret None
  else if negb (truthy (Some (in_col rq))) || negb (truthy (Some (tgt_col rq))) then
    emit (NotifyWarning "Select Columns First");; Ret None
  else if negb (truthy (api_key rq)) then
    emit (NotifyWarning "DeepInfra API key not found. Please set DEEPINFRA_API_KEY");;
    Ret None
  else
    (* Reset circuit for this run *)
    set_API_FAILURES 0;;
    set_FALLBACK_ACTIVE false;;
    let input_list := input_column rq in
    let target_list := target_column rq in
    (* Remove duplicates from target *)
    let target_list_unique := dict_fromkeys target_list in
    let input_list_display :=
      if clean_input_text rq then clean_text_simple input_list else input_list in
    await (IoSleep 0.1);;
    (if String.eqb (MODEL_FALLBACK_MODE cfg) "local" then
       emit (NotifyLocalForced (length input_list));;
       set_FALLBACK_ACTIVE true
     else
       g ← GetGlobals Ret;
       if FALLBACK_ACTIVE g then emit NotifyFallbackAtStart else Ret ());;
    await (IoSleep 0.1);;
    Ret (Some {| input_list := input_list; target_list_unique := target_list_unique;
                 input_list_display := input_list_display |}).

(** C [rint] in the default rounding mode: the nearest integer, ties to
    even, computed as the C library does below 2^52. *)
Definition two52 : float := 4503599627370496%float.

Definition rint (x : float) : float :=
  if PrimFloat.ltb (PrimFloat.abs x) two52 then
    let r := (PrimFloat.abs x + two52 - two52)%float in
    if PrimFloat.get_sign x then (- r)%float else r
  else x.

(** [Series.round(4)] on a float64 column: NumPy multiplies by [10**4],
    rounds to the nearest integer and divides. *)
Definition np_round4 (x : float) : float :=
  (rint (x * 10000) / 10000)%float.

Inductive Status : Type := NO_MATCH | Match.

(** [lambda s: 'NO MATCH' if (pd.notna(s) and float(s) < float(threshold))
    else 'Match'] *)
Definition match_status (threshold : float) (s : float) : Status :=
  if negb (PrimFloat.is_nan s) && PrimFloat.ltb s threshold then NO_MATCH else Match.

(** A row of the results frame. A text cell is [None] where the frame
    holds NaN. *)
Record ResultRow : Type := {
  status : Status;
  input_description : option text;
  best_match : option text;
  similarity_score : float;
}.

(** The index check of [results[name] = values] for a list of [values]
    cells on a frame of [rows] rows: a frame that has no row takes its index
    from a value that is not empty, and otherwise the value must be as long
    as the index. The result is the number of rows the frame has
    afterwards. *)
Definition setitem_index (rows values : nat) : result nat :=
  if decide (rows = 0 ∧ values ≠ 0) then Ok values
  else if decide (values = rows) then Ok rows
  else Raise (Exception ("Length of values (" +:+ pretty values
                         +:+ ") does not match length of index (" +:+ pretty rows +:+ ")")).

(** A column the frame already has, after the index grew to [rows]: the
    cells of the new rows are NaN. *)
Definition reindex {A} (rows : nat) (column : list (option A)) : list (option A) :=
  column ++ replicate (rows - length column) None.

(** From the matcher's result to the stored table (line 3472 and lines
    3544-3572): the frame of the displayed inputs, the display cleaning of
    the labels, the two column assignments, the rounding of every column
    whose name holds 'score', then the status column computed from the
    rounded column. The bar column, a drawing of the rounded score, is left
    out. *)
Definition run_matching_results (rq : RunRequest) (input_list_display : list text)
    (embed_results : list text * list float) : result (list ResultRow) :=
  (* results = pd.DataFrame({'input_description': input_list_display}) *)
  let input_description := Some <$> input_list_display in
  let matched_targets :=
    if clean_target_text rq then clean_text_simple embed_results.1 else embed_results.1 in
  (* results['best_match'] = matched_targets *)
  match setitem_index (length input_description) (length matched_targets) with
  | Raise e => Raise e
  | Ok rows =>
      let input_description := reindex rows input_description in
      let best_match := Some <$> matched_targets in
      (* results['similarity_score'] = embed_results['score'] *)
      match setitem_index rows (length embed_results.2) with
      | Raise e => Raise e
      | Ok rows =>
          let input_description := reindex rows input_description in
          let best_match := reindex rows best_match in
          let similarity_score := np_round4 <$> embed_results.2 in
          let status := match_status (threshold rq) <$> similarity_score in
          Ok (zip_with (λ st '(d, (m, s)),
                          {| status := st; input_description := d; best_match := m;
                             similarity_score := s |})
                status (zip input_description (zip best_match similarity_score)))
      end
  end.

(** What happens outside the handler during one run: the outcomes of its
    two sleeps, and for the matcher the replies to the target request and
    the schedule of the input workers (asynchronous matcher) or the
    endpoints and completion orders (thread-pool matcher). *)
Record Outcomes : Type := {
  replies_start : list reply;
  replies_targets : list reply;
  schedule : list (nat * reply);
  eps_targets : nat → @endpoint vec;
  eps_inputs : nat → @endpoint vec;
  picks_targets : list nat;
  picks_inputs : list nat;
}.

(** [except Exception as e: ui.notification_show(f"Error: {str(e)}"); raise] *)
Definition report_error {A} (r : result A) (w : world) : result A * world :=
  match r with
  | Ok a => (Ok a, w)
  | Raise e =>
      (Raise e,
       {| globals := globals w;
          notices := notices w ++ [NotifyWarning ("Error: " +:+ str e)];
          permits := permits w |})
  end.

(** [batches_total] (lines 3482 and 3510-3511), the number of batches the
    progress display counts up to; [//] rejects a batch size of zero. *)
Definition batches_total (cfg : Config) (prepared : Prepared) : result nat :=
  let effective_batch := EMBED_BATCH_SIZE cfg `min` 1024 in
  if decide (effective_batch = 0)
  then Raise (Exception "integer division or modulo by zero")
  else Ok ((length (input_list prepared) + effective_batch - 1) `div` effective_batch
           + (length (target_list_unique prepared) + effective_batch - 1)
               `div` effective_batch).

(** [run_matching] as the only activity of the process: the start, the
    count of the batches, the matcher chosen by [USE_ASYNC] called with the
    deduplicated targets and the default batch size and concurrency, then
    the table. The start and the target request run without anything else
    in between, and the loop holds the workers of this run only: no request
    that an earlier run left in flight (a [gather] that raised does not
    cancel its other workers) and no other session writes the module globals
    during the run. [Ok None]: an early return, nothing is stored. [None]:
    the outcomes given end before the run does. *)
Definition run_matching (cfg : Config) (rq : RunRequest) (out : Outcomes) (w : world)
  : option (result (option (list ResultRow)) * world) :=
  '(started, w1) ← run_alone (run_matching_start cfg rq) w (replies_start out);
  match started with
  | Raise e => Some (Raise e, w1)
  | Ok None => Some (Ok None, w1)
  | Ok (Some prepared) =>
      match batches_total cfg prepared with
      | Raise e => Some (report_error (Raise e) w1)
      | Ok _ =>
          '(embed_results, w2) ←
            (if USE_ASYNC cfg then
               run_embed_match_async cfg (replies_targets out) (schedule out)
                 (input_list prepared) (target_list_unique prepared)
                 (EMBED_BATCH_SIZE cfg) (MAX_CONCURRENCY cfg) true
                 (clean_input_text rq) (clean_target_text rq) w1
             else
               Some (run_embed_match (eps_targets out) (eps_inputs out)
                       (picks_targets out) (picks_inputs out)
                       (input_list prepared) (target_list_unique prepared)
                       (EMBED_BATCH_SIZE cfg) (MAX_CONCURRENCY cfg)
                       (clean_input_text rq) (clean_target_text rq), w1));
          match embed_results with
          | Raise e => Some (report_error (Raise e) w2)
          | Ok res =>
              match run_matching_results rq (input_list_display prepared) res with
              | Raise e => Some (report_error (Raise e) w2)
              | Ok rows => Some (Ok (Some rows), w2)
              end
          end
      end
  end.

(** ** Vocabulary of the statements about the controller *)

Definition with_notices (w : world) (ns : list notice) : world :=
  {| globals := globals w; notices := notices w ++ ns; permits := permits w |}.

Definition set_globals (w : world) (failures : Z) (active : bool) : world :=
  {| globals := {| _API_FAILURES := failures; FALLBACK_ACTIVE := active;
                   _LOCAL_ST_MODEL := _LOCAL_ST_MODEL (globals w) |};
     notices := notices w; permits := permits w |}.

Definition set_model (w : world) (m : option model) : world :=
  {| globals := {| _API_FAILURES := _API_FAILURES (globals w);
                   FALLBACK_ACTIVE := FALLBACK_ACTIVE (globals w);
                   _LOCAL_ST_MODEL := m |};
     notices := notices w; permits := permits w |}.

Definition progress_notice (progress_callback : bool) (msg : string) : list notice :=
  if progress_callback then [Progress msg] else [].

Definition is_fallback_notice (n : notice) : bool :=
  match n with NotifyFallback _ _ => true | _ => false end.

Definition fallback_notices (ns : list notice) : nat :=
  length (filter (λ n, is_fallback_notice n = true) ns).

(** A world with the globals as the module body leaves them. *)
Definition idle : world :=
  {| globals := initial_globals; notices := []; permits := 0 |}.

(** A request of auto mode suspended on its remote call. *)
Definition awaiting_remote (cfg : Config) (texts : list text) (progress_callback : bool)
  : coro (@matrix vec) :=
  fst (advance (compute_embeddings_resilient_async cfg texts progress_callback) idle).

(** The texts of the [work] tasks of the local back end for [texts]
    already cleaned: its slices of [chunk_size] texts. *)
Definition encode_batches (texts : list text) (chunk_size : nat) : list (list text) :=
  (λ '(start, stop), slice texts start stop) <$> chunks (length texts) chunk_size.

(** What the local back end is suspended on once it holds the model [m]:
    the encoding of the batches of [texts], or nothing when the batch size
    is zero, as the chunking has raised. *)
Definition awaits_encoding (cfg : Config) (m : model) (texts : list text) : waiting :=
  if decide (EMBED_BATCH_SIZE cfg = 0) then Ended
  else WaitEncode m (encode_batches texts (EMBED_BATCH_SIZE cfg)).

(** The request for the target embeddings, the first thing
    [run_embed_match_async] awaits. *)
Definition target_request (cfg : Config) (target_list_clean : list text)
    (progress_callback : bool) : coro (@matrix vec) :=
  progress progress_callback "Computing target embeddings (async concurrent)...";;
  compute_embeddings_resilient_async cfg target_list_clean progress_callback.

(** The operation, if it asks a back end for embeddings, asks for those of
    [texts]. *)
Definition embeds (texts : list text) (B : Type) (op : io B) : Prop :=
  match op with
  | IoTryApi requested => requested = texts
  | IoEncode _ batches => concat batches = clean_text_for_embedding texts
  | _ => True
  end.


(** [_API_FAILURES >= API_MAX_FAILURES] *)
Definition trips (cfg : Config) (failures : Z) : bool :=
  bool_decide (API_MAX_FAILURES cfg ≤ failures)%Z.

(** How many of [n] failures in a row, counted from [failures], find the
    incremented counter at or above the threshold. *)
Fixpoint tripping (cfg : Config) (failures : Z) (n : nat) : nat :=
  match n with
  | 0 => 0
  | S n' => (if trips cfg (failures + 1) then 1 else 0) + tripping cfg (failures + 1) n'
  end.

(** Failures delivered, in [order], to requests that are in flight together. *)
Definition failures_schedule (order : list nat) (errs : nat → exn) : list (nat * reply) :=
  (λ i, (i, ReplyMatrix (Raise (errs i)))) <$> order.

(** None of the three early returns of [run_matching] is taken. *)
Definition guards_pass (rq : RunRequest) : Prop :=
  in_df_empty rq = false ∧ tgt_df_empty rq = false
  ∧ truthy (Some (in_col rq)) = true ∧ truthy (Some (tgt_col rq)) = true
  ∧ truthy (api_key rq) = true.

(** [label] is the entry of [target_list] at the argmax index of [row]. *)
Definition label_of (target_list : list text) (row : list float) (label : text) : Prop :=
  ∃ idx, np_argmax row = Ok idx ∧ target_list !! idx = Some label.

Definition score_of (row : list float) (score : float) : Prop :=
  ∃ idx, np_argmax row = Ok idx ∧ row !! idx = Some score.

(** A batch of labels and scores that [match_rows] produced from some
    similarity rows against [target_list]. *)
Definition matched_against (target_list : list text) (b : batch) : Prop :=
  ∃ sim, match_rows target_list sim = Ok b.2.

(** [returns_only P c]: whatever the globals hold and whatever the awaited
    operations answer, a value that [c] returns satisfies [P]. *)
Inductive returns_only {A} (P : A → Prop) : coro A → Prop :=
| returns_ret a : P a → returns_only P (Ret a)
| returns_throw e : returns_only P (Throw e)
| returns_get k : (∀ g, returns_only P (k g)) → returns_only P (GetGlobals k)
| returns_put g k : returns_only P k → returns_only P (PutGlobals g k)
| returns_emit n k : returns_only P k → returns_only P (Emit n k)
| returns_release k : returns_only P k → returns_only P (Release k)
| returns_await {B} (op : io B) k :
    (∀ r, returns_only P (k r)) → returns_only P (Await op k).

Definition finished_ok {A} (P : A → Prop) (fin : list (nat * result A)) : Prop :=
  Forall (λ f, ∀ a, f.2 = Ok a → P a) fin.

(** The operation is a call of the remote back end. *)
Definition is_remote {B} (op : io B) : bool :=
  match op with IoTryApi _ => true | _ => false end.

(** [confined P Q R c]: run from globals that satisfy [P], and as long as
    whatever else writes the globals keeps [P], the coroutine [c] writes only
    globals that satisfy [P], shows only notifications that satisfy [Q] and
    awaits only operations that satisfy [R], whatever the awaited
    operations answer. *)
Inductive confined {A} (P : Globals → Prop) (Q : notice → Prop)
    (R : ∀ B, io B → Prop) : coro A → Prop :=
| confined_ret a : confined P Q R (Ret a)
| confined_throw e : confined P Q R (Throw e)
| confined_get k : (∀ g, P g → confined P Q R (k g)) → confined P Q R (GetGlobals k)
| confined_put g k : P g → confined P Q R k → confined P Q R (PutGlobals g k)
| confined_emit n k : Q n → confined P Q R k → confined P Q R (Emit n k)
| confined_release k : confined P Q R k → confined P Q R (Release k)
| confined_await {B} (op : io B) k :
    R B op → (∀ r, confined P Q R (k r)) → confined P Q R (Await op k).

(** The world [w] is [w0] after writes that keep [P] and notifications
    that satisfy [Q]. *)
Definition evolved (P : Globals → Prop) (Q : notice → Prop) (w0 w : world) : Prop :=
  P (globals w) ∧ ∃ ns, notices w = notices w0 ++ ns ∧ Forall Q ns.

(** What a suspended task awaits satisfies [R]. *)
Definition awaits_only {A} (R : ∀ B, io B → Prop) (c : coro A) : Prop :=
  match c with Await op _ => R _ op | _ => True end.

Definition not_remote (B : Type) (op : io B) : Prop := is_remote op = false.

(** The task awaits a back end: the remote call, the load of the local
    model or an encoding by it. *)
Definition in_flight {A} (c : coro A) : bool :=
  match waiting_on c with
  | WaitApi _ | WaitLoad | WaitEncode _ _ => true
  | _ => false
  end.

Definition count_in_flight {A} (ts : list (coro A)) : nat :=
  length (filter (λ c, in_flight c = true) ts).

(** The operation is a call of a back end. *)
Definition is_backend {B} (op : io B) : bool :=
  match op with IoTryApi _ | IoLoadModel | IoEncode _ _ => true | _ => false end.

(** The three stages of a task that runs [async with sem: body] once.
    [section_body c]: [c] may be the body, it awaits back ends only and
    releases nothing. [in_section c]: [c] holds a permit, it awaits back ends
    only and on every path releases once, after which it awaits nothing.
    [queued c]: [c] waits for a permit and holds it from then on. *)
Inductive section_body {A} : coro A → Prop :=
| body_ret a : section_body (Ret a)
| body_throw e : section_body (Throw e)
| body_get k : (∀ g, section_body (k g)) → section_body (GetGlobals k)
| body_put g k : section_body k → section_body (PutGlobals g k)
| body_emit n k : section_body k → section_body (Emit n k)
| body_await {B} (op : io B) k :
    is_backend op = true → (∀ r, section_body (k r)) → section_body (Await op k).

Inductive after_section {A} : coro A → Prop :=
| after_ret a : after_section (Ret a)
| after_throw e : after_section (Throw e)
| after_get k : (∀ g, after_section (k g)) → after_section (GetGlobals k)
| after_put g k : after_section k → after_section (PutGlobals g k)
| after_emit n k : after_section k → after_section (Emit n k).

Inductive in_section {A} : coro A → Prop :=
| in_get k : (∀ g, in_section (k g)) → in_section (GetGlobals k)
| in_put g k : in_section k → in_section (PutGlobals g k)
| in_emit n k : in_section k → in_section (Emit n k)
| in_release k : after_section k → in_section (Release k)
| in_await {B} (op : io B) k :
    is_backend op = true → (∀ r, in_section (k r)) → in_section (Await op k).

Inductive queued {A} : coro A → Prop :=
| queued_acquire k : in_section (k (Ok ())) → queued (Await IoAcquire k).

(** Where a task stands with the semaphore: it waits for a permit, it
    holds one while it awaits a back end, or it has ended. *)
Definition placed {A} (c : coro A) : Prop :=
  queued c
  ∨ (in_section c ∧ in_flight c = true)
  ∨ (in_flight c = false ∧ step_task c = (λ _ _, None)).

(** The matrix an outcome carries, as the awaiting coroutine gets it and as
    the loop delivers it. *)
Definition matrix_of {B} (op : io B) : result B → option (@matrix vec) :=
  match op in io B return result B → option (@matrix vec) with
  | IoTryApi _ => λ r, match r with Ok m => Some m | Raise _ => None end
  | IoEncode _ _ => λ r, match r with Ok m => Some m | Raise _ => None end
  | _ => λ _, None
  end.

Definition reply_matrix (r : reply) : option (@matrix vec) :=
  match r with ReplyMatrix (Ok m) => Some m | _ => None end.

(** The matrix a task holds last, after one more delivery to it. *)
Definition latest (held : option (@matrix vec)) (delivered : option (@matrix vec))
  : option (@matrix vec) :=
  match delivered with Some m => Some m | None => held end.

(** The last matrix the schedule delivered to task [i]. *)
Definition last_matrix (deliveries : list (nat * reply)) (i : nat) : option (@matrix vec) :=
  foldl (λ held ev, if decide (ev.1 = i) then latest held (reply_matrix ev.2) else held)
    None deliveries.

(** [yields Q held c]: whatever the globals hold and whatever the awaited
    operations answer, a value [a] that [c] returns satisfies [Q last a],
    where [last] is the matrix delivered to [c] last ([held] when none
    is). *)
Inductive yields {A} (Q : option (@matrix vec) → A → Prop)
  : option (@matrix vec) → coro A → Prop :=
| yields_ret held a : Q held a → yields Q held (Ret a)
| yields_throw held e : yields Q held (Throw e)
| yields_get held k : (∀ g, yields Q held (k g)) → yields Q held (GetGlobals k)
| yields_put held g k : yields Q held k → yields Q held (PutGlobals g k)
| yields_emit held n k : yields Q held k → yields Q held (Emit n k)
| yields_release held k : yields Q held k → yields Q held (Release k)
| yields_await held {B} (op : io B) k :
    (∀ r, yields Q (latest held (matrix_of op r)) (k r)) → yields Q held (Await op k).

(** What a request for [texts] returns is the matrix delivered to it last:
    the answer of the remote call or, on the local path, of the encoding;
    with nothing to embed the local path returns the empty matrix. *)
Definition returned (texts : list text) (held : option (@matrix vec)) (emb : @matrix vec)
  : Prop :=
  held = Some emb ∨ (texts = [] ∧ emb = []).

(** What the worker of the slice that starts at [first] returns: the start
    and the labels and scores of the similarity rows of what its request
    returned. *)
Definition batch_of (target_list texts : list text) (target_embeddings : @matrix vec)
    (first : nat) (held : option (@matrix vec)) (b : batch) : Prop :=
  b.1 = first
  ∧ ∃ emb sim,
      returned texts held emb
      ∧ cosine_similarity emb target_embeddings = Ok sim
      ∧ match_rows target_list sim = Ok b.2.

(** Every task of the loop returns what [Q] allows it, given the matrix
    the deliveries [delivered] handed to it last. *)
Definition tracking {A} (Q : nat → option (@matrix vec) → A → Prop)
    (delivered : list (nat * reply)) (ts : list (coro A)) : Prop :=
  ∀ i c, ts !! i = Some c → yields (Q i) (last_matrix delivered i) c.

(** The record of the finished tasks is in order: a task is recorded once,
    and it is recorded with the outcome it ended with. *)
Definition settled {A} (ex : exec A) : Prop :=
  NoDup (finished ex).*1
  ∧ ∀ i r, (i, r) ∈ finished ex → ∃ c, tasks ex !! i = Some c ∧ outcome i c = [(i, r)].

(** The value a task ended with. *)
Definition ret_of {A} (c : coro A) : option A :=
  match c with Ret a => Some a | _ => None end.

(** The circuit closed and untouched: the failure counter at 0 and the
    flag cleared, as the start of a run outside local mode leaves them, [n]
    fallback notifications shown and the model cache holding [m]. *)
Definition quiet (n : nat) (m : option model) (w : world) : Prop :=
  _API_FAILURES (globals w) = 0%Z
  ∧ FALLBACK_ACTIVE (globals w) = false
  ∧ fallback_notices (notices w) = n
  ∧ _LOCAL_ST_MODEL (globals w) = m.

(** The task ended in an exception. *)
Definition raised {A} (c : coro A) : bool :=
  match c with Throw _ => true | _ => false end.

(** [untripped J c]: whenever an outcome is delivered to [c] in a world
    that satisfies [J], the segment that [c] runs either ends in an
    exception or leaves a world that satisfies [J], with [c] still
    untripped. *)
Inductive untripped {A} (J : world → Prop) : coro A → Prop :=
| untripped_ret a : untripped J (Ret a)
| untripped_throw e : untripped J (Throw e)
| untripped_await {B} (op : io B) k :
    (∀ r w w1 c1, J w → grant op w = Some w1 → resume op k r = Some c1 →
       raised (fst (advance c1 w1)) = false → J (snd (advance c1 w1))) →
    (∀ r w w1 c1, J w → grant op w = Some w1 → resume op k r = Some c1 →
       raised (fst (advance c1 w1)) = false → untripped J (fst (advance c1 w1))) →
    untripped J (Await op k).

(** The workers [run_embed_match_async] hands to [gather], one per slice. *)
Definition embed_match_workers (cfg : Config) (input_list_clean target_list : list text)
    (target_embeddings : @matrix vec) (progress_callback : bool)
    (input_slices : list (nat * nat)) : list (coro batch) :=
  (λ '(start, stop),
     embed_match_worker cfg input_list_clean target_list target_embeddings
       progress_callback start stop) <$> input_slices.

(** The loop as [gather] finds it: no worker has run yet and the semaphore
    holds [max_concurrency] permits. *)
Definition gather_start {A} (ts : list (coro A)) (w : world) (max_concurrency : nat)
  : exec A :=
  {| tasks := ts;
     now := {| globals := globals w; notices := notices w; permits := max_concurrency |};
     finished := [] |}.

End Controller.

Arguments Ret {vec model A} a.
Arguments Throw {vec model A} e.
Arguments GetGlobals {vec model A} k.
Arguments PutGlobals {vec model A} g k.
Arguments Emit {vec model A} n k.
Arguments Release {vec model A} k.
Arguments Await {vec model A B} op k.
Arguments tasks {vec model A} _.
Arguments now {vec model A} _.
Arguments finished {vec model A} _.
Arguments Build_exec {vec model A} _ _ _.

(** ** Text cleaning (lines 1533-1550)

    A Python string is a sequence of code points. Which code points count
    as whitespace ([str.strip] and the class [\s] of [re] take the same
    ones, those of [str.isspace]), which ones the class [\w] takes for word
    characters, and what [str.lower] makes of a string are the
    interpreter's: the functions are parametric in them. *)

Module Cleaning.
Section Cleaning.

Context {char : Type} `{EqDecision char}.
Context (isspace isword : char → bool).
(** The code points U+0020, U+002C, U+002E and U+002D. *)
Context (SPACE COMMA FULL_STOP HYPHEN_MINUS : char).
Context (lower : list char → list char).

(** [s.lstrip()] and [s.strip()] *)
Fixpoint lstrip (s : list char) : list char :=
  match s with
  | [] => []
  | c :: s' => if isspace c then lstrip s' else s
  end.

Definition strip (s : list char) : list char :=
  reverse (lstrip (reverse (lstrip s))).

(** [re.sub(r'\s+', ' ', s)]: every maximal run of whitespace becomes one
    space. [in_run]: the code point before belongs to a run that is replaced
    already. *)
Fixpoint sub_whitespace (in_run : bool) (s : list char) : list char :=
  match s with
  | [] => []
  | c :: s' =>
      if isspace c
      then (if in_run then sub_whitespace true s' else SPACE :: sub_whitespace true s')
      else c :: sub_whitespace false s'
  end.

(** [re.sub(r'[^\w\s,.-]', '', s)]: what is no word character, no
    whitespace, no comma, no full stop and no hyphen is removed. *)
Definition kept (c : char) : bool :=
  isword c || isspace c || bool_decide (c = COMMA) || bool_decide (c = FULL_STOP)
  || bool_decide (c = HYPHEN_MINUS).

Definition sub_other (s : list char) : list char :=
  filter (λ c, kept c = true) s.

Definition clean_text_simple (text_list : list (list char)) : list (list char) :=
  (λ text,
     let text := strip text in
     let text := sub_whitespace false text in
     let text := sub_other text in
     lower text) <$> text_list.

Definition clean_text_for_embedding (text_list : list (list char)) : list (list char) :=
  (λ text,
     let text := strip text in
     sub_whitespace false text) <$> text_list.

(** A string between whitespace runs that are single spaces: [well_spaced
    after s] holds when no whitespace of [s] follows whitespace ([after]:
    the code point before [s] is whitespace, or [s] starts the string),
    every whitespace of [s] is a space, and [s] does not end in
    whitespace. *)
Fixpoint well_spaced (after : bool) (s : list char) : Prop :=
  match s with
  | [] => after = false
  | c :: s' =>
      if isspace c then after = false ∧ c = SPACE ∧ well_spaced true s'
      else well_spaced false s'
  end.

Definition normal (s : list char) : Prop := s = [] ∨ well_spaced true s.

End Cleaning.
End Cleaning.

(** The interpreter's classes on ASCII texts, code points as numbers:
    [str.isspace] holds of U+0009 to U+000D, U+001C to U+001F and U+0020,
    [\w] takes the digits, the letters and the underscore, [str.lower] moves
    the capital letters. *)
Module AsciiText.

Definition isspace (c : nat) : bool :=
  (9 <=? c) && (c <=? 13) || (28 <=? c) && (c <=? 32).

Definition isword (c : nat) : bool :=
  (48 <=? c) && (c <=? 57) || (65 <=? c) && (c <=? 90) || (c =? 95)
  || (97 <=? c) && (c <=? 122).

Definition lower (s : list nat) : list nat :=
  (λ c, if (65 <=? c) && (c <=? 90) then c + 32 else c) <$> s.

Definition SPACE : nat := 32.
Definition COMMA : nat := 44.
Definition FULL_STOP : nat := 46.
Definition HYPHEN_MINUS : nat := 45.

End AsciiText.

(** ** The order of the scores

    A key that orders the floats that are no NaN as the comparisons of
    IEEE 754 do: by class and sign, then exponent, then mantissa. *)
Definition float_key (x : spec_float) : Z * Z * Z :=
  match x with
  | S754_nan => (0, 0, 0)
  | S754_zero _ => (0, 0, 0)
  | S754_infinity s => (if s then -2 else 2, 0, 0)
  | S754_finite s m e => if s then (-1, - e, - Z.pos m) else (1, e, Z.pos m)
  end%Z.

Definition key_lt (a b : Z * Z * Z) : Prop :=
  (a.1.1 < b.1.1 ∨ (a.1.1 = b.1.1 ∧ (a.1.2 < b.1.2 ∨ (a.1.2 = b.1.2 ∧ a.2 < b.2))))%Z.

(** What the scan of [np.argmax] returns: [best] is the entry at [idx];
    it is the first NaN if the row holds one, and otherwise the maximum of
    the row at the first position that holds it. *)
Definition first_best (row : list float) (idx : nat) (best : float) : Prop :=
  row !! idx = Some best
  ∧ (∀ j x, j < idx → row !! j = Some x → PrimFloat.is_nan x = false)
  ∧ (PrimFloat.is_nan best = false →
     (∀ x, x ∈ row → PrimFloat.is_nan x = false ∧ PrimFloat.leb x best = true)
     ∧ (∀ j x, j < idx → row !! j = Some x → PrimFloat.ltb x best = true)).

(** ** The API key (lines 1225-1232)

    [os.environ] is a mapping from names to strings; [get_api_key] reads
    [DEEPINFRA_API_KEY] and, when that is unset or empty, [DEEPINFRA_TOKEN]. *)
Definition get_api_key (environ : gmap string string) : option string :=
  let api_key := environ !! "DEEPINFRA_API_KEY" in
  if negb (truthy api_key) then environ !! "DEEPINFRA_TOKEN" else api_key.

(** ** Stand-ins for the collaborators

    A remote endpoint, a similarity function and a model to run the code
    on: embeddings are fingerprints of the texts, two rows are similar (1)
    when they are equal and dissimilar (0) otherwise. *)

Module Mock.

Definition fingerprint (t : text) : string := "<" +:+ t +:+ ">".

Definition unavailable : exn := Exception "503 Service Unavailable".

(** Answers every call with one fingerprint per text, in order. *)
Definition endpoint_up : @endpoint string :=
  λ _ texts, Ok (fingerprint <$> texts).

(** Fails the first [n] attempts of a call, then answers. *)
Definition endpoint_flaky (n : nat) : @endpoint string :=
  λ attempt texts,
    if decide (attempt < n) then Raise unavailable else Ok (fingerprint <$> texts).

Definition endpoint_down : @endpoint string :=
  λ _ _, Raise unavailable.

Definition cosine (X Y : @matrix string) : result (list (list float)) :=
  Ok ((λ x, (λ y, if decide (x = y) then 1%float else 0%float) <$> Y) <$> X).

Definition keep (t : text) : text := t.

Definition fresh : @world string :=
  {| globals := initial_globals; notices := []; permits := 0 |}.

(** The world a run leaves behind whose circuit opened after seven
    failures. *)
Definition tripped : @world string :=
  {| globals := {| _API_FAILURES := 7; FALLBACK_ACTIVE := true;
                   _LOCAL_ST_MODEL := None |};
     notices := []; permits := 0 |}.

(** A request for the embedding of one text under the defaults, and the
    same request suspended on its first await. *)
Definition apple : @coro string string (@matrix string) :=
  compute_embeddings_resilient_async keep default_config ["apple"] true.

Definition apple_suspended : @coro string string (@matrix string) :=
  fst (advance apple fresh).

(** [EMBEDDING_CONCURRENCY=2 EMBEDDING_BATCH_SIZE=1 API_EMBED_MAX_FAILURES=1] *)
Definition tight : Config := {|
  MAX_CONCURRENCY := 2;
  EMBED_BATCH_SIZE := 1;
  USE_ASYNC := true;
  API_MAX_FAILURES := 1;
  MODEL_FALLBACK_MODE := "auto";
|}.

(** A request under [tight] suspended on its remote call. *)
Definition in_flight (texts : list text) : @coro string string (@matrix string) :=
  awaiting_remote keep tight texts true.

(** The workers [run_embed_match_async] starts for the inputs a, b, c
    against the targets a, b under [tight], and the loop they start in. *)
Definition workers : list (@coro string string batch) :=
  (λ '(start, stop),
     embed_match_worker keep cosine tight ["a"; "b"; "c"] ["a"; "b"]
       (fingerprint <$> ["a"; "b"]) true start stop)
  <$> [(0, 1); (1, 2); (2, 3)].

Definition loop : @exec string string batch :=
  {| tasks := workers;
     now := {| globals := initial_globals; notices := []; permits := 2 |};
     finished := [] |}.

Definition failed : @reply string string := ReplyMatrix (Raise unavailable).

Definition embedded (texts : list text) : @reply string string :=
  ReplyMatrix (Ok (fingerprint <$> texts)).

Definition loaded (instance : string) : @reply string string :=
  ReplyModel (Ok instance).

Definition granted : @reply string string := ReplyUnit.

(** What a test observes of the loop: what each task waits for, the
    globals, the notifications and the free permits. *)
Definition observe (ex : @exec string string batch)
  : list waiting * Globals * list notice * nat :=
  (waiting_on <$> tasks ex, globals (now ex), notices (now ex), permits (now ex)).

Definition request : RunRequest := {|
  in_df_empty := false;
  tgt_df_empty := false;
  in_col := "description";
  tgt_col := "food";
  threshold := 0.85;
  clean_input_text := false;
  clean_target_text := false;
  api_key := Some "key";
  input_column := ["x"; "y"; "z"];
  target_column := ["x"; "x"; "y"];
|}.

(** [tight] with [EMBEDDING_ASYNC=false]. *)
Definition tight_threads : Config := {|
  MAX_CONCURRENCY := 2;
  EMBED_BATCH_SIZE := 1;
  USE_ASYNC := false;
  API_MAX_FAILURES := 1;
  MODEL_FALLBACK_MODE := "auto";
|}.

(** [MODEL_FALLBACK_MODE=local], [=off] and a value that is none of the
    four. *)
Definition forced_local : Config := {|
  MAX_CONCURRENCY := 2;
  EMBED_BATCH_SIZE := 1;
  USE_ASYNC := true;
  API_MAX_FAILURES := 1;
  MODEL_FALLBACK_MODE := "local";
|}.

Definition fallback_off : Config := {|
  MAX_CONCURRENCY := 2;
  EMBED_BATCH_SIZE := 1;
  USE_ASYNC := true;
  API_MAX_FAILURES := 1;
  MODEL_FALLBACK_MODE := "off";
|}.

Definition misspelt : Config := {|
  MAX_CONCURRENCY := 2;
  EMBED_BATCH_SIZE := 1;
  USE_ASYNC := true;
  API_MAX_FAILURES := 1;
  MODEL_FALLBACK_MODE := "automatic";
|}.

(** The workers for the inputs a, b, c against the targets a, b under a
    configuration. *)
Definition workers_under (cfg : Config) : list (@coro string string batch) :=
  embed_match_workers keep cosine cfg ["a"; "b"; "c"] ["a"; "b"]
    (fingerprint <$> ["a"; "b"]) true [(0, 1); (1, 2); (2, 3)].

(** [request] in a process whose environment holds no API key. *)
Definition request_without_key : RunRequest := {|
  in_df_empty := false;
  tgt_df_empty := false;
  in_col := "description";
  tgt_col := "food";
  threshold := 0.85;
  clean_input_text := false;
  clean_target_text := false;
  api_key := get_api_key {[ "DEEPINFRA_API_KEY" := ""; "HOME" := "/root" ]};
  input_column := ["x"; "y"; "z"];
  target_column := ["x"; "x"; "y"];
|}.

(** [tight] with the default threshold of three failures. *)
Definition patient : Config := {|
  MAX_CONCURRENCY := 2;
  EMBED_BATCH_SIZE := 1;
  USE_ASYNC := true;
  API_MAX_FAILURES := 3;
  MODEL_FALLBACK_MODE := "auto";
|}.


(** [EMBEDDING_BATCH_SIZE=0] *)
Definition zero_batch : Config := {|
  MAX_CONCURRENCY := 2;
  EMBED_BATCH_SIZE := 0;
  USE_ASYNC := true;
  API_MAX_FAILURES := 1;
  MODEL_FALLBACK_MODE := "auto";
|}.

(** A run of [request] in which every remote call is answered; the second
    input worker finishes first. *)
Definition healthy : @Outcomes string string := {|
  replies_start := [granted; granted];
  replies_targets := [embedded ["x"; "y"]];
  schedule := [(0, granted); (1, granted); (1, embedded ["y"]); (0, embedded ["x"]);
               (2, granted); (2, embedded ["z"])];
  eps_targets := λ _, endpoint_up;
  eps_inputs := λ _, endpoint_up;
  picks_targets := [];
  picks_inputs := [];
|}.

End Mock.

(* ===================================================================== *)
(** * Part II: the properties                                             *)
(* ===================================================================== *)

(** ** Completion orders *)

Section CompletionOrder.

Lemma completion_order_perm {A} fuel picks (l : list A) :
  length l ≤ fuel → completion_order picks l fuel ≡ₚ l.
Proof.
  revert picks l. induction fuel as [|fuel IH]; intros picks l Hl.
  - destruct l; simpl in *; [done | lia].
  - destruct l as [|x l]; [done|]. cbn [completion_order].
    set (k := hd 0 picks `mod` length (x :: l)).
    assert (Hk : k < length (x :: l)) by (apply Nat.mod_upper_bound; simpl; lia).
    destruct (lookup_lt_is_Some_2 _ _ Hk) as [y Hy]. rewrite Hy.
    etrans; [|symmetry; apply (delete_Permutation _ _ _ Hy)]. f_equiv. apply IH.
    rewrite length_delete by eauto. simpl in *. lia.
Qed.

(** Calls complete in a permutation of the order they were submitted in. *)
Lemma as_completed_perm {A} picks (l : list A) : as_completed picks l ≡ₚ l.
Proof. by apply completion_order_perm. Qed.

(** Every permutation is the completion order of some picks. *)
Lemma as_completed_any_order {A} (l' l : list A) :
  l' ≡ₚ l → ∃ picks, as_completed picks l = l'.
Proof.
  revert l. induction l' as [|x l' IH]; intros l Hp.
  - apply Permutation_nil_l in Hp as <-. by exists [].
  - assert (Hx : x ∈ l) by (rewrite <- Hp; left).
    apply list_elem_of_lookup in Hx as [k Hk].
    assert (Hd : l' ≡ₚ delete k l).
    { apply (Permutation_cons_inv (a := x)). by rewrite Hp, <- delete_Permutation. }
    destruct (IH _ Hd) as [picks Hpicks]. exists (k :: picks).
    unfold as_completed in *. pose proof (lookup_lt_Some _ _ _ Hk) as Hlt.
    destruct l as [|y l]; [simpl in Hlt; lia|].
    cbn [completion_order length hd tl]. rewrite Nat.mod_small by done.
    rewrite Hk. f_equal. rewrite <- Hpicks. f_equal.
    rewrite length_delete by eauto. simpl. lia.
Qed.

Lemma fmap_delete_list {A B} (f : A → B) (l : list A) (n : nat) :
  delete n (f <$> l) = f <$> delete n l.
Proof. revert n. induction l as [|x l IH]; intros [|n]; simpl; auto. by rewrite <- IH. Qed.

Lemma completion_order_fmap {A B} (f : A → B) fuel picks (l : list A) :
  completion_order picks (f <$> l) fuel = f <$> completion_order picks l fuel.
Proof.
  revert picks l. induction fuel as [|fuel IH]; intros picks l; [done|].
  destruct l as [|x l]; [done|].
  rewrite fmap_cons. cbn [completion_order]. rewrite <- fmap_cons.
  rewrite length_fmap, list_lookup_fmap.
  destruct ((x :: l) !! _) as [y|] eqn:Hy; [|done]. cbn [fmap option_fmap option_map].
  change (f x :: (f <$> l)) with (f <$> x :: l).
  by rewrite fmap_delete_list, IH.
Qed.

Lemma as_completed_fmap {A B} (f : A → B) picks (l : list A) :
  as_completed picks (f <$> l) = f <$> as_completed picks l.
Proof. unfold as_completed. by rewrite length_fmap, completion_order_fmap. Qed.

Lemma as_completed_head {A} picks (x : A) (l : list A) :
  ∃ y rest, as_completed picks (x :: l) = y :: rest ∧ y ∈ x :: l.
Proof.
  pose proof (as_completed_perm picks (x :: l)) as Hp.
  destruct (as_completed picks (x :: l)) as [|y rest] eqn:Heq.
  - by apply Permutation_nil_l in Hp.
  - exists y, rest. split; [done|]. rewrite <- Hp. left.
Qed.

End CompletionOrder.

(** ** Chunking *)

Section Chunking.

Lemma py_range0_cover total step :
  step ≠ 0 → total ≤ (total + step - 1) `div` step * step.
Proof.
  intros Hs. pose proof (Nat.div_mod (total + step - 1) step Hs) as Hdm.
  pose proof (Nat.mod_upper_bound (total + step - 1) step Hs). nia.
Qed.

Lemma py_range0_nonempty total step :
  step ≠ 0 → total ≠ 0 → py_range0 total step ≠ [].
Proof.
  intros Hs Ht. unfold py_range0.
  destruct ((total + step - 1) `div` step) as [|q] eqn:Hq; [|done].
  pose proof (py_range0_cover total step Hs). rewrite Hq in *. lia.
Qed.

Lemma multiples_sorted step a q :
  step ≠ 0 → StronglySorted lt ((λ k, k * step) <$> seq a q).
Proof.
  intros Hs. revert a. induction q as [|q IH]; intros a; simpl; constructor; [apply IH|].
  apply Forall_fmap, Forall_forall. intros k Hk%elem_of_seq. simpl. nia.
Qed.

Lemma slices_concat {A} (l : list A) step q a :
  step ≠ 0 → length l ≤ q * step →
  concat ((λ k, slice l ((k - a) * step) (((k - a) * step + step) `min` length l))
            <$> seq a q) = l.
Proof.
  intros Hs. revert l a. induction q as [|q IH]; intros l a Hl.
  - destruct l; simpl in *; [done | lia].
  - cbn [seq fmap list_fmap concat]. replace (a - a) with 0 by lia.
    unfold slice at 1. rewrite drop_0.
    replace ((0 * step + step) `min` length l - 0 * step) with (step `min` length l) by lia.
    rewrite <- (take_drop step l) at 3. f_equal.
    { destruct (decide (step ≤ length l)).
      - by rewrite Nat.min_l.
      - rewrite Nat.min_r by lia. by rewrite !take_ge by lia. }
    rewrite <- (IH (drop step l) (S a)) at 1; [|rewrite length_drop; lia].
    f_equal. apply list_fmap_ext. intros i k Hk%lookup_seq. destruct Hk as [-> _].
    unfold slice. rewrite drop_drop, length_drop.
    replace (S a + i - a) with (S i) by lia. replace (S a + i - S a) with i by lia.
    replace (step + i * step) with (S i * step) by lia. f_equal. lia.
Qed.

Lemma _chunk_indices_chunks total chunk_size :
  chunk_size ≠ 0 → _chunk_indices total chunk_size = Ok (chunks total chunk_size).
Proof. intros. unfold _chunk_indices. by case_decide. Qed.

(** Batch starts ascend strictly. *)
Lemma chunks_starts_ascending total chunk_size :
  chunk_size ≠ 0 → StronglySorted lt (chunks total chunk_size).*1.
Proof.
  intros. unfold chunks. rewrite <- list_fmap_compose.
  replace (fst ∘ _) with (@id nat) by done. rewrite list_fmap_id.
  by apply multiples_sorted.
Qed.

(** The batches, in order, make up the list. *)
Lemma chunks_cover {A} (l : list A) chunk_size :
  chunk_size ≠ 0 →
  concat ((λ '(s, e), slice l s e) <$> chunks (length l) chunk_size) = l.
Proof.
  intros Hs. unfold chunks, py_range0. rewrite <- !list_fmap_compose.
  etrans; [|apply (slices_concat l chunk_size
                     ((length l + chunk_size - 1) `div` chunk_size) 0 Hs),
                   py_range0_cover, Hs].
  f_equal. apply list_fmap_ext. intros i k _. simpl. by rewrite Nat.sub_0_r.
Qed.

Lemma ascending_NoDup (l : list nat) : StronglySorted lt l → NoDup l.
Proof.
  induction 1 as [|x l _ IH Hx]; constructor; [|done].
  intros Hin. rewrite Forall_forall in Hx. specialize (Hx _ Hin). lia.
Qed.

Lemma ascending_Sorted (l : list nat) : StronglySorted lt l → Sorted (≤) l.
Proof.
  induction 1 as [|x l _ IH Hx]; constructor; [done|].
  destruct l as [|y l]; constructor. apply Forall_inv in Hx. lia.
Qed.

End Chunking.

(** ** Assembly of the batch results *)

Section Assembly.
Context {vec : Type}.
Local Abbreviation matrix := (@matrix vec).

Lemma foldl_insert_union {V} (kvs : list (nat * V)) (m : gmap nat V) :
  foldl (λ m kv, <[kv.1 := kv.2]> m) m kvs = list_to_map (reverse kvs) ∪ m.
Proof.
  revert m. induction kvs as [|[k v] kvs IH]; intros m; simpl.
  - by rewrite (left_id_L ∅ (∪)).
  - rewrite IH, reverse_cons, list_to_map_app. simpl.
    rewrite <- (assoc_L (∪)). f_equal.
    by rewrite insert_empty, <- insert_union_singleton_l.
Qed.

Lemma collect_ok (kvs : list (nat * matrix)) (m : gmap nat matrix) :
  collect (Ok <$> kvs) m = Ok (foldl (λ m kv, <[kv.1 := kv.2]> m) m kvs).
Proof. revert m. induction kvs as [|[k v] kvs IH]; intros m; simpl; [done | apply IH]. Qed.

(** Keyed by distinct starts, the dict the loop builds does not depend on
    the order in which the batches complete. *)
Lemma collect_any_order picks (kvs : list (nat * matrix)) :
  NoDup kvs.*1 →
  collect (as_completed picks (Ok <$> kvs)) ∅ = Ok (list_to_map kvs).
Proof.
  intros Hnd. rewrite as_completed_fmap, collect_ok, foldl_insert_union.
  rewrite (right_id_L ∅ (∪)). f_equal.
  pose proof (as_completed_perm picks kvs) as Hp.
  apply list_to_map_proper.
  - by rewrite reverse_Permutation, Hp.
  - by rewrite reverse_Permutation.
Qed.

Lemma sorted_keys_list_to_map {V} (kvs : list (nat * V)) :
  StronglySorted lt kvs.*1 → sorted_keys (list_to_map kvs : gmap nat V) = kvs.*1.
Proof.
  intros Hs. unfold sorted_keys.
  apply (Sorted_unique (≤)); try apply _.
  - apply Sorted_merge_sort. apply _.
  - by apply ascending_Sorted.
  - by rewrite merge_sort_Permutation, (map_to_list_to_map kvs (ascending_NoDup _ Hs)).
Qed.

Lemma sorted_keys_lookup {V} (d : gmap nat V) s :
  s ∈ sorted_keys d → is_Some (d !! s).
Proof.
  unfold sorted_keys. rewrite merge_sort_Permutation, list_elem_of_fmap.
  intros ([k v] & -> & Hkv). apply elem_of_map_to_list in Hkv. eauto.
Qed.

Lemma lookups_list_to_map {V} `{!Inhabited V} (kvs : list (nat * V)) :
  NoDup kvs.*1 →
  (λ s, (list_to_map kvs : gmap nat V) !!! s) <$> kvs.*1 = kvs.*2.
Proof.
  intros Hnd. rewrite <- list_fmap_compose. apply Forall_fmap_ext, Forall_forall.
  intros [k v] Hkv. simpl. apply lookup_total_correct. by apply elem_of_list_to_map_1.
Qed.

Lemma assemble_list_to_map (kvs : list (nat * matrix)) :
  StronglySorted lt kvs.*1 → assemble (list_to_map kvs) = concat kvs.*2.
Proof.
  intros Hs. unfold assemble, np_vstack. rewrite sorted_keys_list_to_map by done.
  rewrite lookups_list_to_map; [done|]. by apply ascending_NoDup.
Qed.

End Assembly.

(** ** The remote back end *)

Section Remote.
Context {vec : Type}.
Local Abbreviation matrix := (@matrix vec).
Implicit Types (texts : list text) (ep : @endpoint vec).

Lemma retry_loop_first_success ep texts failed k rest last_err data :
  Forall (λ a, is_ok (ep a texts) = false) failed →
  ep k texts = Ok data →
  retry_loop ep texts (failed ++ k :: rest) last_err
  = (Ok data, backoff_trace texts failed ++ [EvCreate texts]).
Proof.
  intros Hf Hk. revert last_err.
  induction Hf as [|a failed Ha _ IH]; intros last_err; simpl.
  - by rewrite Hk.
  - destruct (ep a texts) as [?|e]; [done|]. simpl. by rewrite IH.
Qed.

Lemma retry_loop_exhausted ep texts failed a e last_err :
  Forall (λ a, is_ok (ep a texts) = false) failed →
  ep a texts = Raise e →
  retry_loop ep texts (failed ++ [a]) last_err
  = (Raise (Exception ("DeepInfra API error after retries: " +:+ str e)),
     backoff_trace texts (failed ++ [a])).
Proof.
  intros Hf Ha. revert last_err.
  induction Hf as [|b failed Hb _ IH]; intros last_err; simpl.
  - by rewrite Ha.
  - destruct (ep b texts) as [?|e']; [done|]. simpl. by rewrite IH.
Qed.

Lemma failed_before ep texts k :
  (∀ j, j < k → is_ok (ep j texts) = false) →
  Forall (λ a, is_ok (ep a texts) = false) (seq 0 k).
Proof. intros H. apply Forall_forall. intros j Hj%elem_of_seq. apply H. lia. Qed.

(** The asynchronous call returns the rows of the first answer it gets, in
    the order of [response.data], after a backoff per failed attempt. *)
Lemma async_call_first_success ep texts k data :
  k < 5 → (∀ j, j < k → is_ok (ep j texts) = false) → ep k texts = Ok data →
  compute_embeddings_deepinfra_async ep texts
  = (Ok data, backoff_trace texts (seq 0 k) ++ [EvCreate texts]).
Proof.
  intros Hk Hf Hd. unfold compute_embeddings_deepinfra_async.
  replace (seq 0 5) with (seq 0 k ++ k :: seq (S k) (4 - k)).
  - by rewrite (retry_loop_first_success _ _ _ _ _ _ data) by auto using failed_before.
  - replace 5 with (k + S (4 - k)) by lia. by rewrite seq_app.
Qed.

Lemma async_call_exhausted ep texts e :
  (∀ j, j < 4 → is_ok (ep j texts) = false) → ep 4 texts = Raise e →
  compute_embeddings_deepinfra_async ep texts
  = (Raise (Exception
       ("DeepInfra API error: DeepInfra API error after retries: " +:+ str e)),
     backoff_trace texts (seq 0 5)).
Proof.
  intros Hf He. unfold compute_embeddings_deepinfra_async.
  change (seq 0 5) with (seq 0 4 ++ [4]).
  by rewrite (retry_loop_exhausted _ _ _ _ e) by auto using failed_before.
Qed.

(** The synchronous call never returns a matrix. *)
Lemma sync_call_raises ep texts :
  ∃ e, fst (compute_embeddings_deepinfra ep texts) = Raise e.
Proof. unfold compute_embeddings_deepinfra. destruct (ep 0 texts); simpl; eauto. Qed.

Lemma sync_call_answered ep texts data :
  ep 0 texts = Ok data →
  fst (compute_embeddings_deepinfra ep texts)
  = Raise (Exception "DeepInfra API error: 'tuple' object has no attribute 'data'").
Proof. intros H. unfold compute_embeddings_deepinfra. by rewrite H. Qed.

Lemma sync_call_one_attempt ep texts :
  snd (compute_embeddings_deepinfra ep texts) = [EvCreate texts].
Proof. unfold compute_embeddings_deepinfra. by destruct (ep 0 texts). Qed.

(** The retries of the two remote calls. The asynchronous call retries
    every failure: it sleeps min(4, 0.25 * 2^k) seconds after the failure of
    attempt k (0.25, 0.5, 1, 2 and 4 seconds), returns the first answer it
    gets, makes at most five attempts and then raises "DeepInfra API error:
    DeepInfra API error after retries: ..." with the last error. The
    synchronous call makes one attempt, without any backoff; when that
    attempt fails, the call raises "DeepInfra API error: ..." with the
    error. *)
Theorem remote_call_retries ep texts :
  (∀ k data,
     k < 5 → (∀ j, j < k → is_ok (ep j texts) = false) → ep k texts = Ok data →
     compute_embeddings_deepinfra_async ep texts
     = (Ok data, backoff_trace texts (seq 0 k) ++ [EvCreate texts]))
  ∧ (∀ e,
       (∀ j, j < 4 → is_ok (ep j texts) = false) → ep 4 texts = Raise e →
       compute_embeddings_deepinfra_async ep texts
       = (Raise (Exception
            ("DeepInfra API error: DeepInfra API error after retries: " +:+ str e)),
          [EvCreate texts; EvSleep 0.25; EvCreate texts; EvSleep 0.5;
           EvCreate texts; EvSleep 1; EvCreate texts; EvSleep 2;
           EvCreate texts; EvSleep 4]))
  ∧ snd (compute_embeddings_deepinfra ep texts) = [EvCreate texts]
  ∧ (∀ e, ep 0 texts = Raise e →
       fst (compute_embeddings_deepinfra ep texts)
       = Raise (Exception ("DeepInfra API error: " +:+ str e))).
Proof.
  split; [|split; [|split]].
  - intros k data. apply async_call_first_success.
  - intros e Hf He. by rewrite (async_call_exhausted _ _ e).
  - apply sync_call_one_attempt.
  - intros e He. unfold compute_embeddings_deepinfra. by rewrite He.
Qed.




End Remote.

(** ** The batch schedulers *)

Section Schedulers.
Context {vec : Type}.
Local Abbreviation matrix := (@matrix vec).
Implicit Types (texts : list text) (picks : list nat) (eps : nat → @endpoint vec).

(** With every batch call returning, the asynchronous scheduler returns the
    batch results concatenated in ascending start order, whatever the order
    of completion. *)
Lemma parallel_async_any_order eps picks texts batch_size max_concurrency
    (got : nat → nat → matrix) :
  texts ≠ [] → batch_size ≠ 0 → max_concurrency ≠ 0 →
  (∀ s e, (s, e) ∈ chunks (length texts) batch_size →
     fst (compute_embeddings_deepinfra_async (eps s) (slice texts s e)) = Ok (got s e)) →
  compute_embeddings_parallel_async eps picks texts batch_size max_concurrency
  = Some (Ok (concat ((λ '(s, e), got s e) <$> chunks (length texts) batch_size))).
Proof.
  intros Ht Hb Hc Hgot. unfold compute_embeddings_parallel_async.
  case_decide as Hn; [by destruct texts|]. rewrite _chunk_indices_chunks by done.
  case_decide; [done|].
  set (kvs := (λ '(s, e), (s, got s e)) <$> chunks (length texts) batch_size).
  assert (Hw : (λ '(start, stop), parallel_worker (eps start) start stop texts)
               <$> chunks (length texts) batch_size = Ok <$> kvs).
  { unfold kvs. rewrite <- list_fmap_compose. apply Forall_fmap_ext, Forall_forall.
    intros [s e] Hse. simpl. unfold parallel_worker. by rewrite Hgot. }
  assert (Hk : kvs.*1 = (chunks (length texts) batch_size).*1).
  { unfold kvs. rewrite <- list_fmap_compose. apply list_fmap_ext. by intros ? [??] ?. }
  rewrite Hw, collect_any_order.
  - rewrite assemble_list_to_map.
    + do 2 f_equal. unfold kvs. rewrite <- list_fmap_compose. f_equal.
      apply list_fmap_ext. by intros ? [??] ?.
    + rewrite Hk. by apply chunks_starts_ascending.
  - rewrite Hk. by apply ascending_NoDup, chunks_starts_ascending.
Qed.

Lemma parallel_async_embeds eps picks texts batch_size max_concurrency
    (embed : text → vec) :
  batch_size ≠ 0 → max_concurrency ≠ 0 →
  (∀ s e, (s, e) ∈ chunks (length texts) batch_size →
     fst (compute_embeddings_deepinfra_async (eps s) (slice texts s e))
     = Ok (embed <$> slice texts s e)) →
  compute_embeddings_parallel_async eps picks texts batch_size max_concurrency
  = Some (Ok (embed <$> texts))
  ∧ length (embed <$> texts) = length texts.
Proof.
  intros Hb Hc Hgot. split; [|by rewrite length_fmap].
  destruct (decide (texts = [])) as [->|Ht]; [done|].
  rewrite (parallel_async_any_order _ _ _ _ _ (λ s e, embed <$> slice texts s e)) by done.
  do 2 f_equal.
  transitivity (embed <$> concat ((λ '(s, e), slice texts s e)
                                    <$> chunks (length texts) batch_size));
    [|by rewrite chunks_cover].
  clear. induction (chunks (length texts) batch_size) as [|[s e] l IH]; [done|].
  rewrite !fmap_cons. cbn [concat]. by rewrite fmap_app, IH.
Qed.

(** The asynchronous scheduler preserves order: when every batch call
    answers with one embedding per text of its batch, in order, the result
    is the embedding of the whole list, row [i] for [texts[i]] and one row
    per text, for every batch size, concurrency limit and completion order. *)
Theorem parallel_async_aligned eps picks texts batch_size max_concurrency
    (embed : text → vec) :
  batch_size ≠ 0 → max_concurrency ≠ 0 →
  (∀ s e, (s, e) ∈ chunks (length texts) batch_size →
     fst (compute_embeddings_deepinfra_async (eps s) (slice texts s e))
     = Ok (embed <$> slice texts s e)) →
  compute_embeddings_parallel_async eps picks texts batch_size max_concurrency
  = Some (Ok (embed <$> texts))
  ∧ length (embed <$> texts) = length texts.
Proof. apply parallel_async_embeds. Qed.

(** The thread-pool scheduler never gets past the first future that
    completes: that future raised. *)
Lemma parallel_sync_raises eps picks texts batch_size max_concurrency :
  texts ≠ [] → batch_size ≠ 0 → max_concurrency ≠ 0 →
  ∃ s e,
    (s, e) ∈ chunks (length texts) batch_size
    ∧ ∃ x, fst (compute_embeddings_deepinfra (eps s) (slice texts s e)) = Raise x
           ∧ compute_embeddings_parallel eps picks texts batch_size max_concurrency
             = Raise x.
Proof.
  intros Ht Hb Hc. unfold compute_embeddings_parallel.
  case_decide as Hn; [by destruct texts|]. rewrite _chunk_indices_chunks by done.
  case_decide; [done|].
  destruct (chunks (length texts) batch_size) as [|[s e] l] eqn:Hch.
  { apply fmap_nil_inv in Hch. by apply py_range0_nonempty in Hch. }
  rewrite fmap_cons.
  destruct (as_completed_head picks
    (_embed_batch_slice (eps s) s e texts)
    ((λ '(start, stop), _embed_batch_slice (eps start) start stop texts) <$> l))
    as (y & rest & -> & Hy).
  change (y ∈ (λ '(start, stop), _embed_batch_slice (eps start) start stop texts)
              <$> (s, e) :: l) in Hy.
  apply list_elem_of_fmap in Hy as ([s' e'] & -> & Hin).
  exists s', e'. split; [done|]. unfold _embed_batch_slice.
  destruct (sync_call_raises (eps s') (slice texts s' e')) as [x Hx].
  exists x. by rewrite Hx.
Qed.

End Schedulers.

(** C1 (failing input). A list of three texts, batches of two, two
    concurrent calls, and an endpoint that answers every call with one
    embedding per text: whatever the completion order, the thread-pool
    scheduler raises instead of returning the three rows, while the
    asynchronous scheduler returns them in the order of the texts. *)
Theorem C1_thread_pool_scheduler_raises (picks : list nat) :
  compute_embeddings_parallel (λ _, Mock.endpoint_up) picks
    ["apple"; "banana"; "cherry"] 2 2
  = Raise (Exception "DeepInfra API error: 'tuple' object has no attribute 'data'")
  ∧ compute_embeddings_parallel_async (λ _, Mock.endpoint_up) picks
      ["apple"; "banana"; "cherry"] 2 2
    = Some (Ok ["<apple>"; "<banana>"; "<cherry>"]).
Proof.
  split.
  - destruct (parallel_sync_raises (λ _, Mock.endpoint_up) picks
               ["apple"; "banana"; "cherry"] 2 2) as (s & e & _ & x & Hx & ->); [done..|].
    by rewrite (sync_call_answered _ _ (Mock.fingerprint <$> slice _ s e)) in Hx
      by done; simplify_eq.
  - by destruct (parallel_async_embeds (λ _, Mock.endpoint_up) picks
                   ["apple"; "banana"; "cherry"] 2 2 Mock.fingerprint) as [-> _].
Qed.

(** The defect of the synchronous call on one request. The endpoint answers
    the request for two texts with their two embeddings, in order: the
    synchronous call raises on the answer, the asynchronous call returns the
    two rows. *)
Example sync_call_raises_on_an_answer :
  compute_embeddings_deepinfra Mock.endpoint_up ["apple"; "banana"]
  = (Raise (Exception "DeepInfra API error: 'tuple' object has no attribute 'data'"),
     [EvCreate ["apple"; "banana"]])
  ∧ compute_embeddings_deepinfra_async Mock.endpoint_up ["apple"; "banana"]
    = (Ok ["<apple>"; "<banana>"], [EvCreate ["apple"; "banana"]]).
Proof. split; reflexivity. Qed.

(** C5 (failing input). The endpoint fails one attempt and would answer
    the next: the synchronous call raises after that one attempt, without
    sleeping or trying again; the asynchronous call, its sibling, sleeps a
    quarter of a second, tries again and returns the embedding. *)
Theorem C5_sync_call_gives_up_at_once :
  compute_embeddings_deepinfra (Mock.endpoint_flaky 1) ["apple"]
  = (Raise (Exception "DeepInfra API error: 503 Service Unavailable"),
     [EvCreate ["apple"]])
  ∧ compute_embeddings_deepinfra_async (Mock.endpoint_flaky 1) ["apple"]
    = (Ok ["<apple>"], [EvCreate ["apple"]; EvSleep 0.25; EvCreate ["apple"]]).
Proof. split; reflexivity. Qed.


(** The retries on an endpoint that is down for the five attempts, and on
    one that answers the fourth. *)
Lemma remote_call_retries_witness :
  compute_embeddings_deepinfra_async Mock.endpoint_down ["apple"]
  = (Raise (Exception
       "DeepInfra API error: DeepInfra API error after retries: 503 Service Unavailable"),
     [EvCreate ["apple"]; EvSleep 0.25; EvCreate ["apple"]; EvSleep 0.5;
      EvCreate ["apple"]; EvSleep 1; EvCreate ["apple"]; EvSleep 2;
      EvCreate ["apple"]; EvSleep 4])
  ∧ compute_embeddings_deepinfra_async (Mock.endpoint_flaky 3) ["apple"]
    = (Ok ["<apple>"],
       [EvCreate ["apple"]; EvSleep 0.25; EvCreate ["apple"]; EvSleep 0.5;
        EvCreate ["apple"]; EvSleep 1; EvCreate ["apple"]]).
Proof.
  destruct (remote_call_retries Mock.endpoint_down ["apple"])
    as (_ & Hdown & _).
  destruct (remote_call_retries (Mock.endpoint_flaky 3) ["apple"])
    as (Hflaky & _).
  split.
  - exact (Hdown Mock.unavailable (λ _ _, eq_refl) eq_refl).
  - apply (Hflaky 3); [lia| |done].
    intros j Hj. unfold Mock.endpoint_flaky. by rewrite decide_True.
Defined.

(** The asynchronous scheduler on the mock endpoint (witness of
    [parallel_async_aligned]): five texts in batches of two, the batches
    completing last to first. *)
Lemma parallel_async_aligned_witness :
  compute_embeddings_parallel_async (λ _, Mock.endpoint_flaky 2) [2; 1; 0]
    ["a"; "b"; "c"; "d"; "e"] 2 3
  = Some (Ok ["<a>"; "<b>"; "<c>"; "<d>"; "<e>"])
  ∧ length (Mock.fingerprint <$> ["a"; "b"; "c"; "d"; "e"]) = 5.
Proof.
  apply (parallel_async_aligned (λ _, Mock.endpoint_flaky 2) [2; 1; 0]
           ["a"; "b"; "c"; "d"; "e"] 2 3 Mock.fingerprint); done.
Defined.

(** ** The fallback controller *)

Section ControllerFacts.
Context {vec model : Type}.
Context (clean_embedding1 clean_simple1 : text → text).
Local Abbreviation world := (@world model).
Local Abbreviation resilient :=
  (@compute_embeddings_resilient_async vec model clean_embedding1).
Local Abbreviation local_async :=
  (@compute_embeddings_local_async vec model clean_embedding1).
Local Abbreviation awaiting := (@awaiting_remote vec model clean_embedding1).
Local Abbreviation start := (@run_matching_start vec model clean_simple1).

Lemma with_notices_nil (w : world) : with_notices w [] = w.
Proof. destruct w. unfold with_notices. simpl. by rewrite (right_id_L [] (++)). Qed.

Lemma fallback_notices_app ns1 ns2 :
  fallback_notices (ns1 ++ ns2) = fallback_notices ns1 + fallback_notices ns2.
Proof. unfold fallback_notices. by rewrite filter_app, length_app. Qed.

(** The segments of a request of auto mode that starts with the circuit
    closed. *)
Lemma auto_mode_segments cfg texts pc (w : world) :
  MODEL_FALLBACK_MODE cfg = "auto" →
  FALLBACK_ACTIVE (globals w) = false →
  let suspended := fst (advance (resilient cfg texts pc) w) in
  advance (resilient cfg texts pc) w = (suspended, w)
  ∧ waiting_on suspended = WaitApi texts
  ∧ (∀ (w' : world) vecs,
       step_task suspended (ReplyMatrix (Ok vecs)) w'
       = Some (Ret vecs, set_globals w' 0 false))
  ∧ (∀ (w' : world) e,
       let failures := (_API_FAILURES (globals w') + 1)%Z in
       step_task suspended (ReplyMatrix (Raise e)) w'
       = if decide (API_MAX_FAILURES cfg ≤ failures)%Z
         then Some (advance (local_async cfg texts)
                      (with_notices (set_globals w' failures true)
                         (NotifyFallback failures (length texts)
                          :: progress_notice pc
                               "API unavailable. Falling back to local CPU.")))
         else Some (Throw e, set_globals w' failures (FALLBACK_ACTIVE (globals w')))).
Proof.
  intros Hm Hf. unfold compute_embeddings_resilient_async. rewrite Hm. cbn.
  rewrite Hf. cbn. repeat split.
  intros w' e. cbn. case_decide; [|done]. destruct pc; cbn.
  - unfold with_notices; cbn. by rewrite <- (assoc_L (++)).
  - done.
Qed.

(** C2. In auto mode with the circuit closed, a request first awaits the
    remote back end, touching nothing. When the remote call succeeds, the
    failure counter is set to 0 (and the flag to false) and the matrix is
    returned. When it fails, the counter is incremented; if it has reached
    the threshold, the flag is set, the fallback is notified and the request
    goes on as the local back end on the same texts; otherwise the same
    exception is raised to the caller. The threshold is 3 unless
    configured. *)
Theorem C2_auto_mode_request cfg texts pc (w : world) :
  MODEL_FALLBACK_MODE cfg = "auto" →
  FALLBACK_ACTIVE (globals w) = false →
  let suspended := fst (advance (compute_embeddings_resilient_async (vec := vec) clean_embedding1 cfg texts pc) w) in
  advance (compute_embeddings_resilient_async (vec := vec) clean_embedding1 cfg texts pc) w = (suspended, w)
  ∧ waiting_on suspended = WaitApi texts
  ∧ (∀ (w' : world) vecs,
       step_task suspended (ReplyMatrix (Ok vecs)) w'
       = Some (Ret vecs, set_globals w' 0 false))
  ∧ (∀ (w' : world) e,
       let failures := (_API_FAILURES (globals w') + 1)%Z in
       step_task suspended (ReplyMatrix (Raise e)) w'
       = if decide (API_MAX_FAILURES cfg ≤ failures)%Z
         then Some (advance (compute_embeddings_local_async clean_embedding1 cfg texts)
                      (with_notices (set_globals w' failures true)
                         (NotifyFallback failures (length texts)
                          :: progress_notice pc
                               "API unavailable. Falling back to local CPU.")))
         else Some (Throw e, set_globals w' failures (FALLBACK_ACTIVE (globals w'))))
  ∧ API_MAX_FAILURES default_config = 3%Z.
Proof.
  intros Hm Hf. destruct (auto_mode_segments cfg texts pc w Hm Hf) as (?&?&?&?).
  by repeat split.
Qed.

(** A request of auto mode that starts with the circuit open reports
    "fallback active" and goes on as the local back end on the same texts:
    it awaits nothing of the remote one and writes neither the counter nor
    the flag before the local back end runs. *)
Theorem auto_mode_circuit_open cfg texts pc (w : world) :
  MODEL_FALLBACK_MODE cfg = "auto" →
  FALLBACK_ACTIVE (globals w) = true →
  advance (resilient cfg texts pc) w
  = advance (local_async cfg texts)
      (with_notices w (progress_notice pc "Local CPU embeddings (fallback active).")).
Proof.
  intros Hm Hf. unfold compute_embeddings_resilient_async. rewrite Hm. cbn.
  rewrite Hf. destruct pc; cbn; [done|]. by rewrite with_notices_nil.
Qed.

(** The local back end with the model cached: one suspension, on the
    encoding of the batches, and no access to the globals after it. *)
Lemma local_async_cached cfg texts (w : world) m :
  _LOCAL_ST_MODEL (globals w) = Some m →
  clean_text_for_embedding clean_embedding1 texts ≠ [] →
  EMBED_BATCH_SIZE cfg ≠ 0 →
  let suspended := fst (advance (local_async cfg texts) w) in
  advance (local_async cfg texts) w = (suspended, w)
  ∧ waiting_on suspended
    = WaitEncode m (encode_batches (clean_text_for_embedding clean_embedding1 texts)
                      (EMBED_BATCH_SIZE cfg))
  ∧ ∀ (w' : world) r,
      step_task suspended (ReplyMatrix r) w'
      = Some (match r with Ok vecs => Ret vecs | Raise e => Throw e end, w').
Proof.
  intros Hc Hne Hb. unfold compute_embeddings_local_async, _chunk_indices.
  case_decide as Hl; [by apply nil_length_inv in Hl|].
  rewrite (decide_False (P := EMBED_BATCH_SIZE cfg = 0)) by done.
  cbn. rewrite Hc. cbn. repeat split. intros w' [vecs|e]; done.
Qed.

(** [_load_local_model] with an empty cache: the caller starts a load of
    its own, whoever else is loading, and stores what it loaded over
    whatever the cache holds by then. *)
Lemma local_async_cache_empty cfg texts (w : world) :
  _LOCAL_ST_MODEL (globals w) = None →
  clean_text_for_embedding clean_embedding1 texts ≠ [] →
  let loading := fst (advance (local_async cfg texts) w) in
  advance (local_async cfg texts) w = (loading, with_notices w [NotifyModelLoading])
  ∧ waiting_on loading = WaitLoad
  ∧ (∀ (w' : world) m, ∃ encoding,
       step_task loading (ReplyModel (Ok m)) w'
       = Some (encoding, with_notices (set_model w' (Some m)) [NotifyModelLoaded])
       ∧ waiting_on encoding
         = awaits_encoding cfg m (clean_text_for_embedding clean_embedding1 texts))
  ∧ (∀ (w' : world) e, step_task loading (ReplyModel (Raise e)) w' = Some (Throw e, w')).
Proof.
  intros Hc Hne. unfold compute_embeddings_local_async, _chunk_indices, awaits_encoding.
  case_decide as Hl; [by apply nil_length_inv in Hl|].
  destruct (decide (EMBED_BATCH_SIZE cfg = 0)); cbn; rewrite Hc; cbn; repeat split;
    intros w' m; eexists; split; reflexivity.
Qed.

(** The first segment of the local back end leaves the failure counter and
    the fallback flag alone and shows no fallback notification. *)
Lemma advance_local_frame cfg texts (w : world) :
  let w' := snd (advance (local_async cfg texts) w) in
  _API_FAILURES (globals w') = _API_FAILURES (globals w)
  ∧ FALLBACK_ACTIVE (globals w') = FALLBACK_ACTIVE (globals w)
  ∧ fallback_notices (notices w') = fallback_notices (notices w).
Proof.
  unfold compute_embeddings_local_async. case_decide; [done|]. cbn -[fallback_notices].
  destruct (_LOCAL_ST_MODEL (globals w)); cbn -[fallback_notices];
    [by destruct (_chunk_indices _ _)|].
  rewrite fallback_notices_app. change (fallback_notices [NotifyModelLoading]) with 0.
  repeat split; lia.
Qed.

(** The coroutine suspended on the remote call is the same whatever the
    world the request started in. *)
Lemma awaiting_remote_any_world cfg texts pc (w : world) :
  MODEL_FALLBACK_MODE cfg = "auto" →
  FALLBACK_ACTIVE (globals w) = false →
  advance (resilient cfg texts pc) w = (awaiting cfg texts pc, w).
Proof.
  intros Hm Hf. unfold awaiting_remote, compute_embeddings_resilient_async.
  rewrite Hm. cbn. by rewrite Hf.
Qed.

(** One failure delivered: the counter the world holds at that moment goes
    up by one, and the fallback is notified when that count trips. *)
Lemma remote_failure_step cfg texts pc e (w : world) :
  MODEL_FALLBACK_MODE cfg = "auto" →
  ∃ c' w',
    step_task (awaiting cfg texts pc) (ReplyMatrix (Raise e)) w = Some (c', w')
    ∧ _API_FAILURES (globals w') = (_API_FAILURES (globals w) + 1)%Z
    ∧ fallback_notices (notices w')
      = fallback_notices (notices w)
        + (if trips cfg (_API_FAILURES (globals w) + 1) then 1 else 0).
Proof.
  intros Hm.
  destruct (auto_mode_segments cfg texts pc idle Hm eq_refl) as (_ & _ & _ & Hfail).
  fold (awaiting cfg texts pc) in Hfail. specialize (Hfail w e). cbn zeta in Hfail.
  unfold trips. case_decide as Ht.
  - rewrite bool_decide_eq_true_2 by done.
    destruct (advance (local_async cfg texts) _) as [c' w'] eqn:Hadv.
    exists c', w'. split; [done|].
    pose proof (advance_local_frame cfg texts
      (with_notices (set_globals w (_API_FAILURES (globals w) + 1) true)
         (NotifyFallback (_API_FAILURES (globals w) + 1) (length texts)
          :: progress_notice pc "API unavailable. Falling back to local CPU."))) as Hfr.
    rewrite Hadv in Hfr. cbn -[fallback_notices] in Hfr. destruct Hfr as (-> & _ & ->).
    split; [done|]. cbn -[fallback_notices]. rewrite fallback_notices_app.
    by destruct pc.
  - rewrite bool_decide_eq_false_2 by done. eexists _, _. split; [done|].
    cbn -[fallback_notices]. split; lia.
Qed.

Lemma tripping_all cfg failures n :
  (API_MAX_FAILURES cfg ≤ failures + 1)%Z → tripping cfg failures n = n.
Proof.
  revert failures. induction n as [|n IH]; intros failures Hle; simpl; [done|].
  unfold trips. rewrite bool_decide_eq_true_2 by done. rewrite IH by lia. done.
Qed.

(** Failures delivered to requests in flight together, in any order: every
    increment lands, and every failure that trips is notified. *)
Lemma concurrent_failures cfg pc (texts_of : nat → list text) errs order
    (ts : list (coro (@matrix vec))) (w : world) fin :
  MODEL_FALLBACK_MODE cfg = "auto" →
  NoDup order →
  (∀ i, i ∈ order → ts !! i = Some (awaiting cfg (texts_of i) pc)) →
  ∃ ex,
    run_schedule {| tasks := ts; now := w; finished := fin |} (failures_schedule order errs)
    = Some ex
    ∧ _API_FAILURES (globals (now ex))
      = (_API_FAILURES (globals w) + Z.of_nat (length order))%Z
    ∧ fallback_notices (notices (now ex))
      = fallback_notices (notices w)
        + tripping cfg (_API_FAILURES (globals w)) (length order).
Proof.
  intros Hm Hnd. revert ts w fin.
  induction Hnd as [|i order Hi Hnd IH]; intros ts w fin Hts.
  - eexists. split; [done|]. simpl. split; lia.
  - destruct (remote_failure_step cfg (texts_of i) pc (errs i) w Hm)
      as (c' & w' & Hstep & Hc & Hn).
    destruct (IH (<[i := c']> ts) w' (fin ++ outcome i c')) as (ex & Hrun & Hc' & Hn').
    { intros j Hj. rewrite list_lookup_insert_ne by set_solver. apply Hts. by right. }
    exists ex. split.
    + unfold failures_schedule. rewrite fmap_cons. cbn [run_schedule]. unfold deliver.
      cbn [fst snd tasks now finished]. rewrite (Hts i) by left. cbn [mbind option_bind].
      rewrite Hstep. cbn [mbind option_bind]. apply Hrun.
    + rewrite Hc', Hn', Hc, Hn. cbn [length tripping]. split; lia.
Qed.

(** C9 (as amended). Nothing serializes the workers beyond the event loop
    itself. The increment of the failure counter reads and writes the
    counter in one uninterrupted segment, so of failures delivered to
    requests in flight together, in any order, none is lost; every such
    failure that finds the incremented counter at or above the threshold
    shows the fallback notification, so with the threshold reached each of
    [n] concurrent failures shows it. [_load_local_model] starts a load
    whenever it finds the cache empty and stores the loaded model over
    whatever the cache holds when the load ends: concurrent first callers
    each load the model. *)
Theorem C9_event_loop_is_the_only_lock cfg pc :
  MODEL_FALLBACK_MODE cfg = "auto" →
  (∀ (texts_of : nat → list text) errs order (ts : list (coro (@matrix vec)))
     (w : world) fin,
     NoDup order →
     (∀ i, i ∈ order → ts !! i = Some (awaiting_remote clean_embedding1 cfg (texts_of i) pc)) →
     ∃ ex,
       run_schedule {| tasks := ts; now := w; finished := fin |}
         (failures_schedule order errs) = Some ex
       ∧ _API_FAILURES (globals (now ex))
         = (_API_FAILURES (globals w) + Z.of_nat (length order))%Z
       ∧ fallback_notices (notices (now ex))
         = fallback_notices (notices w)
           + tripping cfg (_API_FAILURES (globals w)) (length order))
  ∧ (∀ failures n,
       (API_MAX_FAILURES cfg ≤ failures + 1)%Z → tripping cfg failures n = n)
  ∧ (∀ texts (w : world),
       _LOCAL_ST_MODEL (globals w) = None →
       clean_text_for_embedding clean_embedding1 texts ≠ [] →
       let loading := fst (advance (compute_embeddings_local_async (vec := vec) clean_embedding1 cfg texts) w) in
       advance (compute_embeddings_local_async (vec := vec) clean_embedding1 cfg texts) w = (loading, with_notices w [NotifyModelLoading])
       ∧ waiting_on loading = WaitLoad
       ∧ ∀ (w' : world) m, ∃ encoding,
           step_task loading (ReplyModel (Ok m)) w'
           = Some (encoding, with_notices (set_model w' (Some m)) [NotifyModelLoaded])
           ∧ waiting_on encoding
             = awaits_encoding cfg m (clean_text_for_embedding clean_embedding1 texts)).
Proof.
  intros Hm. split; [|split].
  - intros texts_of errs order ts w fin Hnd Hts.
    by apply (concurrent_failures cfg pc texts_of).
  - apply tripping_all.
  - intros texts w Hc Hne.
    destruct (local_async_cache_empty cfg texts w Hc Hne) as (?&?&?&?). by repeat split.
Qed.

(** What the start of a run leaves behind when no early return is taken. *)
Lemma run_matching_start_resets cfg rq (w : world) :
  guards_pass rq →
  let sleeping := fst (advance (start cfg rq) w) in
  advance (start cfg rq) w = (sleeping, set_globals w 0 false)
  ∧ waiting_on sleeping = WaitSleep 0.1
  ∧ ∃ prepared w_end,
      run_alone (start cfg rq) w [ReplyUnit; ReplyUnit] = Some (Ok (Some prepared), w_end)
      ∧ input_list prepared = input_column rq
      ∧ target_list_unique prepared = dict_fromkeys (target_column rq)
      ∧ globals w_end
        = {| _API_FAILURES := 0;
             FALLBACK_ACTIVE := String.eqb (MODEL_FALLBACK_MODE cfg) "local";
             _LOCAL_ST_MODEL := _LOCAL_ST_MODEL (globals w) |}.
Proof.
  intros (H1 & H2 & H3 & H4 & H5). unfold run_matching_start, run_alone.
  rewrite H1, H2, H3, H4, H5. cbn. repeat split.
  destruct (String.eqb (MODEL_FALLBACK_MODE cfg) "local"); cbn; eauto 10.
Qed.

(** C4. A run that gets past its early returns sets the failure counter to
    0 and the fallback flag to false in its first segment, before it awaits
    anything, whatever the globals held. From there to the call of the
    matcher it only sleeps (it awaits no embedding operation), and when the
    matcher is called the counter is 0 and the flag is false unless the mode
    is "local", which sets it again: nothing of the previous run's counter
    or flag is left. *)
Theorem C4_run_start_resets_the_circuit cfg rq (w : world) :
  guards_pass rq →
  let sleeping := fst (advance (run_matching_start (vec := vec) clean_simple1 cfg rq) w) in
  advance (run_matching_start (vec := vec) clean_simple1 cfg rq) w = (sleeping, set_globals w 0 false)
  ∧ waiting_on sleeping = WaitSleep 0.1
  ∧ ∃ prepared w_end,
      run_alone (run_matching_start (vec := vec) clean_simple1 cfg rq) w [ReplyUnit; ReplyUnit] = Some (Ok (Some prepared), w_end)
      ∧ globals w_end
        = {| _API_FAILURES := 0;
             FALLBACK_ACTIVE := String.eqb (MODEL_FALLBACK_MODE cfg) "local";
             _LOCAL_ST_MODEL := _LOCAL_ST_MODEL (globals w) |}.
Proof.
  intros Hg. destruct (run_matching_start_resets cfg rq w Hg)
    as (H1 & H2 & prepared & w_end & H3 & _ & _ & H4).
  split; [done|]. split; [done|]. by exists prepared, w_end.
Qed.

End ControllerFacts.

(** ** Scores and statuses *)

Section Scores.
Context (clean_simple1 : text → text).
Local Abbreviation results := (run_matching_results clean_simple1).

Lemma SFeqb_irrefl_nan (p : spec_float) : SFeqb p p = false → p = S754_nan.
Proof.
  unfold SFeqb. destruct p as [s|s| |s m e]; simpl; try done.
  - by destruct s.
  - rewrite Z.compare_refl, Pos.compare_cont_refl. by destruct s.
Qed.

Lemma is_nan_Prim2SF (x : float) : PrimFloat.is_nan x = true ↔ Prim2SF x = S754_nan.
Proof.
  unfold PrimFloat.is_nan. rewrite FloatAxioms.eqb_spec. split.
  - intros H. apply SFeqb_irrefl_nan. by destruct (SFeqb _ _).
  - by intros ->.
Qed.

(** A NaN is below nothing. *)
Lemma ltb_nan_l (x y : float) : PrimFloat.is_nan x = true → PrimFloat.ltb x y = false.
Proof. rewrite is_nan_Prim2SF, FloatAxioms.ltb_spec. by intros ->. Qed.

Lemma eqb_not_ltb (x y : float) : PrimFloat.eqb x y = true → PrimFloat.ltb x y = false.
Proof.
  rewrite FloatAxioms.eqb_spec, FloatAxioms.ltb_spec. unfold SFeqb, SFltb.
  by destruct (SFcompare _ _) as [[]|].
Qed.

Lemma match_status_NO_MATCH (threshold s : float) :
  match_status threshold s = NO_MATCH ↔ PrimFloat.ltb s threshold = true.
Proof.
  unfold match_status. destruct (PrimFloat.is_nan s) eqn:Hn; simpl.
  - rewrite (ltb_nan_l _ _ Hn). split; discriminate.
  - destruct (PrimFloat.ltb s threshold); split; done.
Qed.

Lemma match_status_at_threshold (threshold s : float) :
  PrimFloat.eqb s threshold = true → match_status threshold s = Match.
Proof.
  intros He. destruct (match_status threshold s) eqn:Hs; [|done].
  apply match_status_NO_MATCH in Hs. by rewrite (eqb_not_ltb _ _ He) in Hs.
Qed.

Lemma match_status_nan (threshold s : float) :
  PrimFloat.is_nan s = true → match_status threshold s = Match.
Proof. intros Hn. unfold match_status. by rewrite Hn. Qed.

Lemma rint_nan (x : float) : PrimFloat.is_nan x = true → rint x = x.
Proof.
  intros Hn. unfold rint. rewrite FloatAxioms.ltb_spec, FloatAxioms.abs_spec.
  apply is_nan_Prim2SF in Hn as ->. done.
Qed.

(** Rounding keeps a NaN a NaN. *)
Lemma np_round4_nan (x : float) :
  PrimFloat.is_nan x = true → PrimFloat.is_nan (np_round4 x) = true.
Proof.
  intros Hn. unfold np_round4.
  assert (Hm : PrimFloat.is_nan (x * 10000) = true).
  { apply is_nan_Prim2SF. rewrite FloatAxioms.mul_spec.
    by apply is_nan_Prim2SF in Hn as ->. }
  rewrite (rint_nan _ Hm). apply is_nan_Prim2SF. rewrite FloatAxioms.div_spec.
  by apply is_nan_Prim2SF in Hm as ->.
Qed.

Lemma zip_rows (threshold : float) (display labels : list (option text))
    (scores : list float) :
  length labels = length display → length scores = length display →
  Forall2 (λ s row, similarity_score row = s ∧ status row = match_status threshold s)
    scores
    (zip_with (λ st '(d, (m, s)),
                 {| status := st; input_description := d; best_match := m;
                    similarity_score := s |})
       (match_status threshold <$> scores) (zip display (zip labels scores))).
Proof.
  revert labels scores. induction display as [|d display IH];
    intros [|m labels] [|s scores] Hl Hs; simplify_eq/=; constructor; auto.
Qed.

(** A column assignment that the frame accepts leaves it with as many rows
    as the value has cells; the frame had that many rows, or none. *)
Lemma setitem_index_ok rows values n :
  setitem_index rows values = Ok n → n = values ∧ (rows = values ∨ rows = 0).
Proof. unfold setitem_index. repeat case_decide; intros [= <-]; naive_solver. Qed.

Lemma setitem_index_raise rows values e :
  setitem_index rows values = Raise e → rows ≠ 0 ∧ values ≠ rows.
Proof. unfold setitem_index. repeat case_decide; [done..|]. intros _. lia. Qed.

Lemma length_reindex {A} rows (column : list (option A)) :
  length column = rows ∨ length column = 0 → length (reindex rows column) = rows.
Proof. unfold reindex. rewrite length_app, length_replicate. lia. Qed.

Lemma reindex_reindex {A} rows1 rows2 (column : list (option A)) :
  length column ≤ rows1 ≤ rows2 →
  reindex rows2 (reindex rows1 column) = reindex rows2 column.
Proof.
  intros Hle. unfold reindex.
  rewrite length_app, length_replicate, <- (assoc_L (++)), <- replicate_add.
  do 2 f_equal. lia.
Qed.

(** A cell of a column of strings that was reindexed: the string at that
    row, NaN where there was none. *)
Lemma reindex_lookup {A} rows (l : list A) i cell :
  reindex rows (Some <$> l) !! i = Some cell → cell = l !! i.
Proof.
  unfold reindex. intros [Hi|[Hge Hi]]%lookup_app_Some.
  - rewrite list_lookup_fmap in Hi. by destruct (l !! i); simplify_eq/=.
  - rewrite length_fmap in Hge. apply lookup_replicate in Hi as [-> _].
    symmetry. by apply lookup_ge_None.
Qed.

(** The table the run builds: the three columns have one cell per score. *)
Lemma run_matching_results_columns rq display embed_results rows :
  results rq display embed_results = Ok rows →
  let matched := if clean_target_text rq then clean_text_simple clean_simple1 embed_results.1
                 else embed_results.1 in
  let n := length embed_results.2 in
  (length display = n ∨ length display = 0)
  ∧ (length matched = n ∨ length matched = 0)
  ∧ (length matched = length display ∨ length display = 0)
  ∧ rows = zip_with (λ st '(d, (m, s)),
                       {| status := st; input_description := d; best_match := m;
                          similarity_score := s |})
             (match_status (threshold rq) <$> (np_round4 <$> embed_results.2))
             (zip (reindex n (Some <$> display))
                (zip (reindex n (Some <$> matched)) (np_round4 <$> embed_results.2))).
Proof.
  unfold run_matching_results. cbn zeta.
  set (matched := if clean_target_text rq then clean_text_simple clean_simple1 embed_results.1
                  else embed_results.1).
  rewrite length_fmap.
  destruct (setitem_index (length display) (length matched)) as [rows1|] eqn:H1; [|done].
  destruct (setitem_index rows1 (length embed_results.2)) as [rows2|] eqn:H2; [|done].
  apply setitem_index_ok in H1 as [-> H1], H2 as [-> H2]. intros [= <-].
  split; [lia|]. split; [lia|]. split; [lia|].
  by rewrite reindex_reindex by (rewrite length_fmap; lia).
Qed.

(** Row by row, the stored score is the rounded raw score and the status
    is computed from the stored score. *)
Lemma run_matching_results_rows rq display embed_results rows :
  results rq display embed_results = Ok rows →
  Forall2 (λ raw row,
             similarity_score row = np_round4 raw
             ∧ status row = match_status (threshold rq) (np_round4 raw))
    embed_results.2 rows.
Proof.
  intros Hr. apply run_matching_results_columns in Hr as (Hd & Hm & _ & ->).
  pose proof (zip_rows (threshold rq)
    (reindex (length embed_results.2) (Some <$> display))
    (reindex (length embed_results.2)
       (Some <$> (if clean_target_text rq
                  then clean_text_simple clean_simple1 embed_results.1
                  else embed_results.1)))
    (np_round4 <$> embed_results.2)) as Hz.
  rewrite !length_reindex, length_fmap in Hz by (by rewrite length_fmap).
  by apply Forall2_fmap_l in Hz.
Qed.

(** The table is produced whenever the matcher reported one label and one
    score per input. *)
Lemma run_matching_results_total rq display embed_results :
  length embed_results.1 = length display → length embed_results.2 = length display →
  ∃ rows, results rq display embed_results = Ok rows.
Proof.
  intros Hl Hs. unfold run_matching_results, setitem_index. cbn zeta.
  assert (Hm : length (if clean_target_text rq
                       then clean_text_simple clean_simple1 embed_results.1
                       else embed_results.1) = length display).
  { destruct (clean_target_text rq); [|done]. unfold clean_text_simple.
    by rewrite length_fmap. }
  rewrite length_fmap, Hm, Hs.
  destruct (decide (length display = 0 ∧ length display ≠ 0)); [lia|].
  rewrite decide_True by done.
  destruct (decide (length display = 0 ∧ length display ≠ 0)); [lia|].
  rewrite decide_True by done. eauto.
Qed.

(** C7. In every row of the results table the status is NO MATCH exactly
    when the row's similarity score is strictly below the threshold, and a
    score equal to the threshold gives Match. *)
Theorem C7_status_against_threshold rq display embed_results rows :
  run_matching_results clean_simple1 rq display embed_results = Ok rows →
  Forall (λ row,
            (status row = NO_MATCH
             ↔ PrimFloat.ltb (similarity_score row) (threshold rq) = true)
            ∧ (PrimFloat.eqb (similarity_score row) (threshold rq) = true
               → status row = Match))
    rows.
Proof.
  intros Hr. apply run_matching_results_rows in Hr.
  induction Hr as [|raw row scores rows [Hs Hst] _ IH]; constructor; [|done].
  rewrite Hst, Hs. split.
  - apply match_status_NO_MATCH.
  - apply match_status_at_threshold.
Qed.

(** C10. The score a row stores is the raw score rounded to four decimals,
    and the status is computed from that rounded score: a raw score strictly
    below the threshold whose rounding equals the threshold gives Match, and
    so does a raw score that is NaN. *)
Theorem C10_status_from_the_rounded_score rq display embed_results rows :
  run_matching_results clean_simple1 rq display embed_results = Ok rows →
  Forall2 (λ raw row,
             similarity_score row = np_round4 raw
             ∧ status row = match_status (threshold rq) (np_round4 raw)
             ∧ (PrimFloat.ltb raw (threshold rq) = true
                → PrimFloat.eqb (np_round4 raw) (threshold rq) = true
                → status row = Match)
             ∧ (PrimFloat.is_nan raw = true → status row = Match))
    embed_results.2 rows.
Proof.
  intros Hr. apply run_matching_results_rows in Hr.
  eapply Forall2_impl; [done|]. intros raw row [Hs Hst]. rewrite Hst. repeat split; [done|..].
  - intros _. apply match_status_at_threshold.
  - intros Hn. by apply match_status_nan, np_round4_nan.
Qed.

End Scores.

(** ** Deduplication of the targets *)

Section Dedup.
Implicit Types (keys d : list text) (x : text).

Lemma remember_nil x : remember [] x = [x].
Proof. unfold remember. by rewrite (decide_False (P := x ∈ [])) by set_solver. Qed.

Lemma foldl_remember d keys :
  foldl remember d keys = d ++ filter (λ z, z ∉ d) (foldl remember [] keys).
Proof.
  revert d. induction keys as [|y keys IH]; intros d; simpl.
  - by rewrite filter_nil, (right_id_L [] (++)).
  - rewrite (IH (remember d y)), (IH (remember [] y)), remember_nil. unfold remember.
    simpl. destruct (decide (y ∈ d)) as [Hy|Hy].
    + rewrite filter_cons_False by naive_solver. f_equal.
      rewrite list_filter_filter. apply list_filter_iff. set_solver.
    + rewrite filter_cons_True by done. rewrite <- (assoc_L (++)). simpl. do 2 f_equal.
      rewrite list_filter_filter. apply list_filter_iff. set_solver.
Qed.

(** First-seen order: the first key comes first, and the rest is the
    deduplicated rest without it. *)
Lemma dict_fromkeys_cons x keys :
  dict_fromkeys (x :: keys) = x :: filter (λ z, z ≠ x) (dict_fromkeys keys).
Proof.
  unfold dict_fromkeys. simpl. rewrite remember_nil, foldl_remember.
  simpl. f_equal. apply list_filter_iff. set_solver.
Qed.

Lemma elem_of_dict_fromkeys x keys : x ∈ dict_fromkeys keys ↔ x ∈ keys.
Proof.
  induction keys as [|y keys IH]; [done|]. rewrite dict_fromkeys_cons.
  rewrite !elem_of_cons, list_elem_of_filter, IH.
  destruct (decide (x = y)); naive_solver.
Qed.


End Dedup.

(** ** Labels *)

Section Labels.

Lemma argmax_scan_bound rest mp max_ind i :
  max_ind < i → argmax_scan mp max_ind i rest < i + length rest.
Proof.
  revert mp max_ind i. induction rest as [|x rest IH]; intros mp max_ind i Hlt; simpl; [lia|].
  destruct (negb _); [destruct (PrimFloat.is_nan x)|].
  - lia.
  - specialize (IH x i (S i)). lia.
  - specialize (IH mp max_ind (S i)). lia.
Qed.

Lemma np_argmax_bound row idx : np_argmax row = Ok idx → idx < length row.
Proof.
  destruct row as [|x rest]; simpl; [done|].
  destruct (PrimFloat.is_nan x); intros [= <-]; [lia|].
  pose proof (argmax_scan_bound rest x 0 1). lia.
Qed.

Lemma np_argmax_total row : row ≠ [] → ∃ idx, np_argmax row = Ok idx.
Proof. destruct row; [done|]. simpl. destruct (PrimFloat.is_nan _); eauto. Qed.

Lemma match_rows_labels target_list sim batch_matches batch_scores :
  match_rows target_list sim = Ok (batch_matches, batch_scores) →
  Forall2 (label_of target_list) sim batch_matches
  ∧ Forall2 score_of sim batch_scores.
Proof.
  revert batch_matches batch_scores.
  induction sim as [|row sim IH]; intros ms ss; simpl.
  - intros [= <- <-]. split; constructor.
  - destruct (np_argmax row) as [idx|] eqn:Hidx; [|done].
    destruct (target_list !! idx) as [label|] eqn:Hl; [|done].
    destruct (row !! idx) as [score|] eqn:Hs; [|done].
    destruct (match_rows target_list sim) as [[ms' ss']|]; [|done].
    intros [= <- <-]. destruct (IH _ _ eq_refl). split; constructor; try done.
    + by exists idx.
    + by exists idx.
Qed.

(** The loop returns whenever no row is empty or longer than the target
    list. *)
Lemma match_rows_total target_list sim :
  Forall (λ row, row ≠ [] ∧ length row ≤ length target_list) sim →
  ∃ ms, match_rows target_list sim = Ok ms.
Proof.
  induction 1 as [|row sim [Hne Hlen] _ [[ms ss] IH]]; simpl; [eauto|].
  destruct (np_argmax_total row Hne) as [idx Hidx]. rewrite Hidx.
  pose proof (np_argmax_bound _ _ Hidx) as Hb.
  destruct (lookup_lt_is_Some_2 target_list idx) as [l ->]; [lia|].
  destruct (lookup_lt_is_Some_2 row idx) as [s ->]; [lia|].
  rewrite IH. eauto.
Qed.

End Labels.

(** ** What a task may return *)

Section ReturnsOnly.
Context {vec model : Type}.
Local Abbreviation coro := (@coro vec model).
Local Abbreviation world := (@world model).

Lemma returns_only_any {A} (c : coro A) : returns_only (λ _, True) c.
Proof. induction c; constructor; auto. Qed.

Lemma returns_only_bind {A B} (Q : A → Prop) (P : B → Prop) (f : A → coro B) c :
  returns_only Q c → (∀ a, Q a → returns_only P (f a)) → returns_only P (coro_bind f c).
Proof. intros Hc Hf. induction Hc; simpl; try constructor; auto. Qed.

Lemma returns_only_advance {A} (P : A → Prop) (c : coro A) (w : world) :
  returns_only P c → returns_only P (fst (advance c w)).
Proof.
  intros Hc. revert w. induction Hc; intros w; simpl; auto; by constructor.
Qed.

Lemma returns_only_step {A} (P : A → Prop) (c c' : coro A) r (w w' : world) :
  returns_only P c → step_task c r w = Some (c', w') → returns_only P c'.
Proof.
  intros Hc Hs. destruct Hc; try done. simpl in Hs.
  destruct (grant op w) as [w1|]; [|done]. simpl in Hs.
  assert (∃ c1, resume op k r = Some c1 ∧ returns_only P c1) as (c1 & Hr & Hc1).
  { destruct op, r; simpl in *; try done; eauto. }
  rewrite Hr in Hs. simpl in Hs.
  pose proof (returns_only_advance P c1 w1 Hc1) as Ha.
  destruct (advance c1 w1). by simplify_eq.
Qed.

Lemma deliver_returns {A} (P : A → Prop) (ex ex' : @exec vec model A) ev :
  Forall (returns_only P) (tasks ex) → finished_ok P (finished ex) →
  deliver ex ev = Some ex' →
  Forall (returns_only P) (tasks ex') ∧ finished_ok P (finished ex').
Proof.
  intros Ht Hf. unfold deliver.
  destruct (tasks ex !! ev.1) as [c|] eqn:Hc; [|done]. simpl.
  destruct (step_task c ev.2 (now ex)) as [[c' w']|] eqn:Hs; [|done]. simpl.
  intros [= <-]. simpl.
  assert (Hc' : returns_only P c').
  { eapply returns_only_step; [|done]. eapply Forall_lookup_1; done. }
  split.
  - by apply Forall_insert.
  - apply Forall_app. split; [done|].
    destruct Hc'; simpl; repeat constructor; simpl; intros ? [= <-]; done.
Qed.

(** Under every schedule, what the tasks of a loop have returned is what
    they may return. *)
Lemma run_schedule_returns {A} (P : A → Prop) schedule (ex ex' : @exec vec model A) :
  Forall (returns_only P) (tasks ex) → finished_ok P (finished ex) →
  run_schedule ex schedule = Some ex' →
  finished_ok P (finished ex').
Proof.
  revert ex. induction schedule as [|ev schedule IH]; intros ex Ht Hf; simpl.
  - by intros [= <-].
  - destruct (deliver ex ev) as [ex1|] eqn:Hd; [|done]. simpl.
    destruct (deliver_returns P _ _ _ Ht Hf Hd). by apply IH.
Qed.



End ReturnsOnly.

(** ** The labels the matcher reports *)

Section MatcherLabels.
Context {vec model : Type}.
Context (clean_embedding1 clean_simple1 : text → text).
Context (cosine_similarity : @matrix vec → @matrix vec → result (list (list float))).
Local Abbreviation world := (@world model).
Local Abbreviation worker :=
  (@embed_match_worker vec model clean_embedding1 cosine_similarity).
Local Abbreviation start := (@run_matching_start vec model clean_simple1).

Lemma worker_returns cfg input_list_clean target_list target_embeddings pc first last :
  returns_only (matched_against target_list)
    (worker cfg input_list_clean target_list target_embeddings pc first last).
Proof.
  unfold embed_match_worker.
  eapply (returns_only_bind (λ _, True)); [apply returns_only_any|].
  intros emb _. destruct (cosine_similarity emb target_embeddings) as [sim|e]; [|constructor].
  destruct (match_rows target_list sim) as [ms|e] eqn:Hm; [|constructor].
  destruct pc; simpl; repeat constructor; by exists sim.
Qed.

Lemma collect_matches_values (P : list text * list float → Prop) done results results' :
  Forall (λ r, ∀ b : batch, r = Ok b → P b.2) done →
  map_Forall (λ _ v, P v) results →
  collect_matches done results = Ok results' →
  map_Forall (λ _ v, P v) results'.
Proof.
  intros Hd. revert results. induction Hd as [|r done Hr _ IH]; intros results Hres; simpl.
  - by intros [= <-].
  - destruct r as [[first ms]|e]; [|done]. apply IH.
    apply map_Forall_insert_2; [|done]. by apply (Hr (first, ms)).
Qed.

Lemma assemble_matches_labels (P : text → Prop) (results : gmap nat (list text * list float)) :
  map_Forall (λ _ v, Forall P v.1) results →
  Forall P (assemble_matches results).1.
Proof.
  intros Hres. unfold assemble_matches. simpl.
  apply Forall_concat, Forall_fmap, Forall_fmap, Forall_forall.
  intros s Hs. apply sorted_keys_lookup in Hs as [v Hv]. simpl.
  rewrite (lookup_total_correct _ _ _ Hv). by apply (Hres s).
Qed.

(** Every label the asynchronous matcher reports is the entry of
    [target_list] at the argmax index of a similarity row, whatever the
    schedule of the workers. *)
Lemma run_embed_match_async_labels cfg replies_targets schedule input_list target_list
    batch_size max_concurrency pc clean_input clean_target (w w' : world) matches scores :
  run_embed_match_async clean_embedding1 cosine_similarity cfg replies_targets schedule
    input_list target_list batch_size max_concurrency pc clean_input clean_target w
  = Some (Ok (matches, scores), w') →
  Forall (λ label, ∃ row, label_of target_list row label) matches.
Proof.
  unfold run_embed_match_async.
  destruct (run_alone _ w replies_targets) as [[[target_embeddings|e] w1]|]; simpl; try done.
  destruct (_chunk_indices _ _) as [input_slices|e]; [|done].
  match goal with |- context [run_schedule ?e schedule] => set (ex0 := e) end.
  destruct (run_schedule ex0 schedule) as [ex|] eqn:Hrun; simpl; [|done].
  destruct (first_raise (finished ex)); [done|]. case_decide; [|done].
  destruct (collect_matches _ ∅) as [results|e] eqn:Hcol; [|done].
  intros [= <- <-].
  assert (Hfin : finished_ok (matched_against target_list) (finished ex)).
  { eapply (run_schedule_returns _ schedule ex0); [| |done].
    - simpl. apply Forall_fmap, Forall_forall. intros [s e] _. apply worker_returns.
    - constructor. }
  apply (assemble_matches_labels _ results).
  pose proof (collect_matches_values
    (λ v, Forall (λ label, ∃ row, label_of target_list row label) v.1)
    (snd <$> finished ex) ∅ results) as Hvals.
  apply Hvals; [|apply map_Forall_empty|done].
  apply Forall_fmap. eapply Forall_impl; [apply Hfin|].
  intros [i r] Hr b Hb. simpl in *. destruct (Hr b Hb) as [sim Hsim].
  destruct b as [first [ms ss]]. simpl in *.
  apply match_rows_labels in Hsim as [Hl _].
  clear -Hl. induction Hl; constructor; eauto.
Qed.



End MatcherLabels.

(** ** The code run on the stand-ins *)

(** C2 (witness): the default configuration, a first failure below the
    threshold of 3 is raised to the caller with the counter at 1; under a
    threshold of 1 the same failure opens the circuit and the request goes
    on loading the local model. *)
Lemma C2_auto_mode_request_witness :
  waiting_on Mock.apple_suspended = WaitApi ["apple"]
  ∧ step_task Mock.apple_suspended Mock.failed Mock.fresh
    = Some (Throw Mock.unavailable, set_globals Mock.fresh 1 false)
  ∧ step_task Mock.apple_suspended (Mock.embedded ["apple"]) Mock.tripped
    = Some (Ret ["<apple>"], set_globals Mock.tripped 0 false).
Proof.
  destruct (C2_auto_mode_request (vec := string) Mock.keep default_config ["apple"] true
              Mock.fresh eq_refl eq_refl) as (_ & Hwait & Hok & Hfail & _).
  split; [exact Hwait|]. split.
  - exact (Hfail Mock.fresh Mock.unavailable).
  - exact (Hok Mock.tripped ["<apple>"]).
Defined.

(** C3 (failing input). Threshold 1, two permits, three input batches a, b
    and c. The workers of a and b get the permits and await the remote back
    end. The call for a fails: the circuit opens and a goes on to the local
    model. The call for b, in flight since before, then succeeds: its
    success path clears the flag. The permit b gives back goes to c, which
    finds the circuit closed and awaits the remote back end. The run ends
    with the flag false although it fell back. *)
Theorem C3_circuit_closes_again_within_a_run :
  Mock.observe <$> run_schedule Mock.loop
    [(0, Mock.granted); (1, Mock.granted); (0, Mock.failed)]
  = Some ([WaitLoad; WaitApi ["b"]; WaitAcquire],
          {| _API_FAILURES := 1; FALLBACK_ACTIVE := true; _LOCAL_ST_MODEL := None |},
          [NotifyFallback 1 1; Progress "API unavailable. Falling back to local CPU.";
           NotifyModelLoading],
          0)
  ∧ Mock.observe <$> run_schedule Mock.loop
      [(0, Mock.granted); (1, Mock.granted); (0, Mock.failed); (1, Mock.embedded ["b"])]
    = Some ([WaitLoad; Ended; WaitAcquire],
            {| _API_FAILURES := 0; FALLBACK_ACTIVE := false; _LOCAL_ST_MODEL := None |},
            [NotifyFallback 1 1; Progress "API unavailable. Falling back to local CPU.";
             NotifyModelLoading; Progress "Matching"],
            1)
  ∧ Mock.observe <$> run_schedule Mock.loop
      [(0, Mock.granted); (1, Mock.granted); (0, Mock.failed); (1, Mock.embedded ["b"]);
       (2, Mock.granted)]
    = Some ([WaitLoad; Ended; WaitApi ["c"]],
            {| _API_FAILURES := 0; FALLBACK_ACTIVE := false; _LOCAL_ST_MODEL := None |},
            [NotifyFallback 1 1; Progress "API unavailable. Falling back to local CPU.";
             NotifyModelLoading; Progress "Matching"],
            0)
  ∧ (λ r, (r.1, FALLBACK_ACTIVE (globals r.2), fallback_notices (notices r.2)))
    <$> run_embed_match_async Mock.keep Mock.cosine Mock.tight
          [Mock.embedded ["a"; "b"]]
          [(0, Mock.granted); (1, Mock.granted); (0, Mock.failed);
           (1, Mock.embedded ["b"]); (2, Mock.granted); (2, Mock.embedded ["c"]);
           (0, Mock.loaded "instance 1"); (0, Mock.embedded ["a"])]
          ["a"; "b"; "c"] ["a"; "b"] 1 2 true false false Mock.fresh
    = Some (Ok (["a"; "b"; "a"], [1%float; 1%float; 0%float]), false, 1).
Proof. repeat split; vm_compute; reflexivity. Qed.

(** C4 (witness): a run started in the world that a tripped circuit left. *)
Lemma C4_run_start_resets_the_circuit_witness :
  ∃ prepared w_end,
    run_alone (run_matching_start (vec := string) Mock.keep default_config Mock.request)
      Mock.tripped [Mock.granted; Mock.granted]
    = Some (Ok (Some prepared), w_end)
    ∧ globals w_end = initial_globals.
Proof.
  destruct (C4_run_start_resets_the_circuit (vec := string) Mock.keep default_config
              Mock.request Mock.tripped) as (_ & _ & H).
  - repeat split.
  - exact H.
Defined.

(** C7 (witness): threshold 0.85 and the scores 0.9, 0.85, 0.2 and 0.84994. *)
Lemma C7_status_against_threshold_witness :
  Forall (λ row,
            (status row = NO_MATCH
             ↔ PrimFloat.ltb (similarity_score row) 0.85 = true)
            ∧ (PrimFloat.eqb (similarity_score row) 0.85 = true → status row = Match))
    [ {| status := Match; input_description := Some "a"; best_match := Some "x";
         similarity_score := 0.9 |};
      {| status := Match; input_description := Some "b"; best_match := Some "y";
         similarity_score := 0.85 |};
      {| status := NO_MATCH; input_description := Some "c"; best_match := Some "x";
         similarity_score := 0.2 |};
      {| status := NO_MATCH; input_description := Some "d"; best_match := Some "y";
         similarity_score := 0.8499 |} ].
Proof.
  apply (C7_status_against_threshold Mock.keep Mock.request ["a"; "b"; "c"; "d"]
           (["x"; "y"; "x"; "y"], [0.9; 0.85; 0.2; 0.84994]%float)).
  vm_compute. reflexivity.
Defined.

(** C9 (counterexample). Threshold 1, two workers in flight, both remote
    calls fail: the fallback notification is shown twice, both workers find
    the model cache empty and both load the model, neither waiting for the
    other, and each encodes with the instance it loaded. *)
Lemma C9_duplicate_notification_and_double_load :
  Mock.observe <$> run_schedule Mock.loop
    [(0, Mock.granted); (1, Mock.granted); (0, Mock.failed); (1, Mock.failed);
     (0, Mock.loaded "instance 1"); (1, Mock.loaded "instance 2")]
  = Some ([WaitEncode "instance 1" [["a"]]; WaitEncode "instance 2" [["b"]]; WaitAcquire],
          {| _API_FAILURES := 2; FALLBACK_ACTIVE := true;
             _LOCAL_ST_MODEL := Some "instance 2" |},
          [NotifyFallback 1 1; Progress "API unavailable. Falling back to local CPU.";
           NotifyModelLoading;
           NotifyFallback 2 1; Progress "API unavailable. Falling back to local CPU.";
           NotifyModelLoading;
           NotifyModelLoaded; NotifyModelLoaded],
          0).
Proof. vm_compute. reflexivity. Qed.

(** C9 (witness): two requests in flight under threshold 1, the failure of
    the second delivered first. *)
Lemma C9_event_loop_is_the_only_lock_witness :
  ∃ ex,
    run_schedule
      {| tasks := [Mock.in_flight ["a"]; Mock.in_flight ["b"]];
         now := Mock.fresh; finished := [] |}
      (failures_schedule [1; 0] (λ _, Mock.unavailable))
    = Some ex
    ∧ _API_FAILURES (globals (now ex)) = 2%Z
    ∧ fallback_notices (notices (now ex)) = 2.
Proof.
  destruct (C9_event_loop_is_the_only_lock (vec := string) (model := string)
              Mock.keep Mock.tight true eq_refl) as (H & _ & _).
  apply (H (λ i, if decide (i = 0) then ["a"] else ["b"])).
  - repeat constructor; set_solver.
  - intros i Hi. repeat (apply elem_of_cons in Hi as [->|Hi]; [done|]). by inversion Hi.
Defined.

(** C10 (witness): threshold 0.85; the raw score 0.8499600291252136 (a
    float32) is below the threshold and rounds to it, and a NaN score. *)
Lemma C10_status_from_the_rounded_score_witness :
  Forall2 (λ raw row,
             similarity_score row = np_round4 raw
             ∧ status row = match_status 0.85 (np_round4 raw)
             ∧ (PrimFloat.ltb raw 0.85 = true
                → PrimFloat.eqb (np_round4 raw) 0.85 = true
                → status row = Match)
             ∧ (PrimFloat.is_nan raw = true → status row = Match))
    [0.9; 0x1.b32df6p-1; nan]%float
    [ {| status := Match; input_description := Some "a"; best_match := Some "x";
         similarity_score := 0.9 |};
      {| status := Match; input_description := Some "b"; best_match := Some "y";
         similarity_score := 0.85 |};
      {| status := Match; input_description := Some "c"; best_match := Some "x";
         similarity_score := nan |} ]
  ∧ PrimFloat.ltb 0x1.b32df6p-1 0.85 = true
  ∧ PrimFloat.eqb (np_round4 0x1.b32df6p-1) 0.85 = true.
Proof.
  split; [|split; vm_compute; reflexivity].
  apply (C10_status_from_the_rounded_score Mock.keep Mock.request ["a"; "b"; "c"]
           (["x"; "y"; "x"], [0.9; 0x1.b32df6p-1; nan]%float)).
  vm_compute. reflexivity.
Defined.

(** A request started in the world a tripped circuit left (witness of
    [auto_mode_circuit_open]): it loads the local model. *)
Lemma auto_mode_circuit_open_witness :
  advance Mock.apple Mock.tripped
  = advance (compute_embeddings_local_async Mock.keep default_config ["apple"])
      (with_notices Mock.tripped [Progress "Local CPU embeddings (fallback active)."])
  ∧ waiting_on (fst (advance Mock.apple Mock.tripped)) = WaitLoad.
Proof.
  split; [|reflexivity].
  apply (auto_mode_circuit_open (vec := string) Mock.keep default_config ["apple"] true
           Mock.tripped); reflexivity.
Defined.

(** A whole run, every remote call answered: with the asynchronous matcher
    the table is stored, in the order of the inputs; with the thread-pool
    matcher the run ends in the error of the synchronous remote call. *)
Example run_matching_on_a_healthy_endpoint :
  fst <$> run_matching Mock.keep Mock.keep Mock.cosine Mock.tight Mock.request
            Mock.healthy Mock.tripped
  = Some (Ok (Some
      [ {| status := Match; input_description := Some "x"; best_match := Some "x";
           similarity_score := 1 |};
        {| status := Match; input_description := Some "y"; best_match := Some "y";
           similarity_score := 1 |};
        {| status := NO_MATCH; input_description := Some "z"; best_match := Some "x";
           similarity_score := 0 |} ]))
  ∧ run_matching Mock.keep Mock.keep Mock.cosine Mock.tight_threads Mock.request
      Mock.healthy Mock.tripped
    = Some (Raise (Exception "DeepInfra API error: 'tuple' object has no attribute 'data'"),
            {| globals := initial_globals;
               notices :=
                 [NotifyWarning
                    "Error: DeepInfra API error: 'tuple' object has no attribute 'data'"];
               permits := 0 |}).
Proof. split; vm_compute; reflexivity. Qed.

(** ** More on the batches *)

Section ChunkingFacts.

Lemma chunks_bounds total chunk_size :
  chunk_size ≠ 0 →
  Forall (λ '(s, e), s < e ≤ total ∧ e - s ≤ chunk_size) (chunks total chunk_size).
Proof.
  intros Hs. unfold chunks, py_range0. rewrite <- list_fmap_compose.
  apply Forall_fmap, Forall_forall. intros k Hk%elem_of_seq. simpl.
  pose proof (Nat.div_mod (total + chunk_size - 1) chunk_size Hs) as Hdm.
  pose proof (Nat.mod_upper_bound (total + chunk_size - 1) chunk_size Hs).
  nia.
Qed.

Lemma chunks_length total chunk_size :
  length (chunks total chunk_size) = (total + chunk_size - 1) `div` chunk_size.
Proof. unfold chunks, py_range0. by rewrite !length_fmap, length_seq. Qed.

Lemma chunks_lookup total chunk_size k s e :
  chunks total chunk_size !! k = Some (s, e) → s = k * chunk_size.
Proof.
  unfold chunks, py_range0. rewrite <- list_fmap_compose, list_lookup_fmap.
  intros Hk. apply fmap_Some in Hk as (j & Hj & Heq). apply lookup_seq in Hj as [-> _].
  simpl in Heq. by simplify_eq.
Qed.

(** [_chunk_indices] cuts [range(total)] into consecutive batches: batch
    [k] starts at [k * chunk_size], every batch is non-empty and holds at
    most [chunk_size] items, there are ceil(total / chunk_size) of them, and
    the slices they select, in order, make up the list: no item is dropped
    or sent twice. *)
Theorem chunk_indices_partition {A} (l : list A) chunk_size :
  chunk_size ≠ 0 →
  ∃ slices,
    _chunk_indices (length l) chunk_size = Ok slices
    ∧ concat ((λ '(s, e), slice l s e) <$> slices) = l
    ∧ Forall (λ '(s, e), s < e ≤ length l ∧ e - s ≤ chunk_size) slices
    ∧ length slices = (length l + chunk_size - 1) `div` chunk_size
    ∧ ∀ k s e, slices !! k = Some (s, e) → s = k * chunk_size.
Proof.
  intros Hs. exists (chunks (length l) chunk_size).
  split; [by apply _chunk_indices_chunks|]. split; [by apply chunks_cover|].
  split; [by apply chunks_bounds|]. split; [apply chunks_length|].
  apply chunks_lookup.
Qed.

End ChunkingFacts.

(** Seven items in batches of three. *)
Lemma chunk_indices_partition_witness :
  ∃ slices,
    _chunk_indices (length ["a"; "b"; "c"; "d"; "e"; "f"; "g"]) 3 = Ok slices
    ∧ concat ((λ '(s, e), slice ["a"; "b"; "c"; "d"; "e"; "f"; "g"] s e) <$> slices)
      = ["a"; "b"; "c"; "d"; "e"; "f"; "g"]
    ∧ Forall (λ '(s, e), s < e ≤ length ["a"; "b"; "c"; "d"; "e"; "f"; "g"] ∧ e - s ≤ 3)
        slices
    ∧ length slices = (length ["a"; "b"; "c"; "d"; "e"; "f"; "g"] + 3 - 1) `div` 3
    ∧ ∀ k s e, slices !! k = Some (s, e) → s = k * 3.
Proof. apply (chunk_indices_partition ["a"; "b"; "c"; "d"; "e"; "f"; "g"] 3). lia. Defined.

(** ** More on the asynchronous scheduler *)

Section SchedulerFacts.
Context {vec : Type}.
Local Abbreviation matrix := (@matrix vec).
Implicit Types (texts : list text) (picks : list nat) (eps : nat → @endpoint vec).

Lemma collect_raises (done : list (result (nat * matrix))) results x :
  collect done results = Raise x → Raise x ∈ done.
Proof.
  revert results. induction done as [|[[s v]|e] done IH]; intros results; simpl.
  - done.
  - intros H. right. by apply (IH _ H).
  - intros [= ->]. left.
Qed.

Lemma collect_returns (done : list (result (nat * matrix))) results results' :
  collect done results = Ok results' → Forall (λ r, is_ok r = true) done.
Proof.
  revert results. induction done as [|[[s v]|e] done IH]; intros results; simpl.
  - constructor.
  - intros H. constructor; [done|]. by apply (IH _ H).
  - done.
Qed.

(** The asynchronous scheduler returns all rows or none: it returns a
    matrix only when every batch call returned, and the matrix is then the
    batch results in the order of the batches; otherwise it raises the error
    of a batch call that failed. It never returns the rows of some batches
    only. *)
Theorem parallel_async_all_or_nothing eps picks texts batch_size max_concurrency :
  texts ≠ [] → batch_size ≠ 0 → max_concurrency ≠ 0 →
  let call := λ se : nat * nat,
    fst (compute_embeddings_deepinfra_async (eps se.1) (slice texts se.1 se.2)) in
  match compute_embeddings_parallel_async eps picks texts batch_size max_concurrency with
  | Some (Ok m) =>
      ∃ got, Forall2 (λ se vecs, call se = Ok vecs) (chunks (length texts) batch_size) got
             ∧ m = concat got
  | Some (Raise x) =>
      ∃ se, se ∈ chunks (length texts) batch_size ∧ call se = Raise x
  | None => False
  end.
Proof.
  intros Ht Hb Hc call.
  set (W := (λ '(start, stop), parallel_worker (eps start) start stop texts)
              <$> chunks (length texts) batch_size).
  assert (Hres : compute_embeddings_parallel_async eps picks texts batch_size max_concurrency
                 = match collect (as_completed picks W) ∅ with
                   | Raise e => Some (Raise e)
                   | Ok results => Some (Ok (assemble results))
                   end).
  { unfold compute_embeddings_parallel_async.
    case_decide as Hn; [by destruct texts|]. rewrite _chunk_indices_chunks by done.
    by case_decide. }
  destruct (collect (as_completed picks W) ∅) as [results|x] eqn:Hcol.
  - apply collect_returns in Hcol. rewrite as_completed_perm in Hcol.
    set (got := λ s e, match call (s, e) with Ok v => v | Raise _ => [] end).
    assert (Hgot : ∀ s e, (s, e) ∈ chunks (length texts) batch_size →
                     call (s, e) = Ok (got s e)).
    { intros s e Hin. rewrite Forall_forall in Hcol.
      specialize (Hcol (parallel_worker (eps s) s e texts)).
      unfold got. unfold parallel_worker in Hcol. unfold call; simpl.
      destruct (fst (compute_embeddings_deepinfra_async (eps s) (slice texts s e)))
        as [v|x] eqn:Hcall; [done|].
      exfalso. assert (is_ok (Raise x : result (nat * matrix)) = true); [|done].
      apply Hcol. unfold W. apply list_elem_of_fmap. exists (s, e). split; [|done].
      unfold parallel_worker. by rewrite Hcall. }
    rewrite (parallel_async_any_order eps picks texts batch_size max_concurrency got)
      by done.
    exists ((λ '(s, e), got s e) <$> chunks (length texts) batch_size). split; [|done].
    apply Forall2_fmap_r, Forall_Forall2_diag, Forall_forall. intros [s e] Hin.
    by apply Hgot.
  - rewrite Hres. apply collect_raises in Hcol. rewrite as_completed_perm in Hcol.
    unfold W in Hcol. apply list_elem_of_fmap in Hcol as ([s e] & Heq & Hin).
    exists (s, e). split; [done|]. unfold parallel_worker in Heq. unfold call; simpl.
    destruct (fst (compute_embeddings_deepinfra_async (eps s) (slice texts s e)));
      by simplify_eq.
Qed.

End SchedulerFacts.

(** Five texts in batches of two, the endpoint down for the batch that
    starts at 2: the scheduler raises that batch's error. *)
Lemma parallel_async_all_or_nothing_witness :
  ∃ se, se ∈ chunks 5 2
        ∧ fst (compute_embeddings_deepinfra_async
                 (if decide (se.1 = 2) then Mock.endpoint_down else Mock.endpoint_up)
                 (slice ["a"; "b"; "c"; "d"; "e"] se.1 se.2))
          = Raise (Exception
              "DeepInfra API error: DeepInfra API error after retries: 503 Service Unavailable").
Proof.
  exact (parallel_async_all_or_nothing
           (λ s, if decide (s = 2) then Mock.endpoint_down else Mock.endpoint_up)
           [0; 0; 0] ["a"; "b"; "c"; "d"; "e"] 2 3
           ltac:(done) ltac:(done) ltac:(done)).
Defined.

(** ** What a task may write, show and await *)

Section ConfinedFacts.
Context {vec model : Type}.
Local Abbreviation coro := (@coro vec model).
Local Abbreviation world := (@world model).
Context (P : @Globals model → Prop) (Q : notice → Prop) (R : ∀ B, @io vec model B → Prop).

Lemma confined_bind {A B} (f : A → coro B) (c : coro A) :
  confined P Q R c → (∀ a, confined P Q R (f a)) → confined P Q R (coro_bind f c).
Proof. intros Hc Hf. induction Hc; simpl; try constructor; auto. Qed.

Lemma confined_try_except {A} (body : coro A) handler :
  confined P Q R body → (∀ e, confined P Q R (handler e)) →
  confined P Q R (try_except body handler).
Proof. intros Hc Hf. induction Hc; simpl; try constructor; auto. Qed.

Lemma evolved_refl (w : world) : P (globals w) → evolved P Q w w.
Proof. intros. split; [done|]. exists []. by rewrite (right_id_L [] (++)). Qed.

Lemma evolved_trans (w0 w1 w2 : world) :
  evolved P Q w0 w1 → evolved P Q w1 w2 → evolved P Q w0 w2.
Proof.
  intros [_ (ns1 & H1 & Hq1)] [Hp (ns2 & H2 & Hq2)]. split; [done|].
  exists (ns1 ++ ns2). rewrite H2, H1, (assoc_L (++)). split; [done|].
  by apply Forall_app.
Qed.

Lemma confined_advance {A} (c : coro A) (w : world) :
  confined P Q R c → P (globals w) →
  confined P Q R (fst (advance c w)) ∧ evolved P Q w (snd (advance c w)).
Proof.
  intros Hc. revert w. induction Hc; intros w Hw; simpl;
    try (split; [by constructor | by apply evolved_refl]).
  - by apply H0.
  - destruct (IHHc {| globals := g; notices := notices w; permits := permits w |})
      as [? [? (ns & Hn & Hq)]]; [done|]. split; [done|]. split; [done|]. by exists ns.
  - destruct (IHHc {| globals := globals w; notices := notices w ++ [n];
                      permits := permits w |}) as [? [? (ns & Hn & Hq)]]; [done|].
    split; [done|]. split; [done|]. exists (n :: ns). simpl in Hn.
    rewrite Hn, <- (assoc_L (++)). split; [done|]. by constructor.
  - destruct (IHHc {| globals := globals w; notices := notices w;
                      permits := S (permits w) |}) as [? [? (ns & Hn & Hq)]]; [done|].
    split; [done|]. split; [done|]. by exists ns.
Qed.

Lemma grant_globals {B} (op : @io vec model B) (w w1 : world) :
  grant op w = Some w1 → globals w1 = globals w ∧ notices w1 = notices w.
Proof.
  destruct op; simpl; try (by intros [= <-]).
  destruct (permits w); [done|]. by intros [= <-].
Qed.

Lemma confined_step {A} (c c' : coro A) r (w w' : world) :
  confined P Q R c → P (globals w) → step_task c r w = Some (c', w') →
  confined P Q R c' ∧ evolved P Q w w'.
Proof.
  intros Hc Hw Hs. destruct Hc; try done. simpl in Hs.
  destruct (grant op w) as [w1|] eqn:Hg; [|done]. simpl in Hs.
  apply grant_globals in Hg as [Hg Hn].
  assert (∃ c1, resume op k r = Some c1 ∧ confined P Q R c1) as (c1 & Hr & Hc1).
  { destruct op, r; simpl in *; try done; eauto. }
  rewrite Hr in Hs. simpl in Hs.
  destruct (confined_advance c1 w1 Hc1) as [Ha [Hp (ns & Hns & Hq)]]; [by rewrite Hg|].
  destruct (advance c1 w1). simplify_eq/=. split; [done|]. split; [done|].
  exists ns. by rewrite Hns, Hn.
Qed.

Lemma confined_awaits {A} (c : coro A) : confined P Q R c → awaits_only R c.
Proof. by destruct 1. Qed.

Lemma confined_deliver {A} (ex ex' : @exec vec model A) ev :
  Forall (confined P Q R) (tasks ex) → P (globals (now ex)) →
  deliver ex ev = Some ex' →
  Forall (confined P Q R) (tasks ex') ∧ evolved P Q (now ex) (now ex').
Proof.
  intros Ht Hp. unfold deliver.
  destruct (tasks ex !! ev.1) as [c|] eqn:Hc; [|done]. simpl.
  destruct (step_task c ev.2 (now ex)) as [[c' w']|] eqn:Hs; [|done]. simpl.
  intros [= <-]. simpl.
  destruct (confined_step c c' ev.2 (now ex) w') as [Hc' He]; [|done..|].
  { eapply Forall_lookup_1; done. }
  split; [by apply Forall_insert|done].
Qed.

(** Under every schedule, tasks that are confined stay confined and leave
    a world that evolved accordingly. *)
Lemma confined_run_schedule {A} schedule (ex ex' : @exec vec model A) :
  Forall (confined P Q R) (tasks ex) → P (globals (now ex)) →
  run_schedule ex schedule = Some ex' →
  Forall (confined P Q R) (tasks ex') ∧ evolved P Q (now ex) (now ex').
Proof.
  revert ex. induction schedule as [|ev schedule IH]; intros ex Ht Hp; simpl.
  - intros [= <-]. split; [done|]. by apply evolved_refl.
  - destruct (deliver ex ev) as [ex1|] eqn:Hd; [|done]. simpl. intros Hrun.
    destruct (confined_deliver _ _ _ Ht Hp Hd) as [Ht1 He1].
    destruct (IH ex1 Ht1 (proj1 He1) Hrun) as [Ht2 He2].
    split; [done|]. by eapply evolved_trans.
Qed.

Lemma confined_run_suspended {A} replies (c : coro A) (w w' : world) r :
  confined P Q R c → P (globals w) → run_suspended c w replies = Some (r, w') →
  evolved P Q w w'.
Proof.
  revert c w. induction replies as [|rp replies IH]; intros c w Hc Hp.
  - destruct Hc; simpl; try done; intros [= <- <-]; by apply evolved_refl.
  - destruct (step_task c rp w) as [[c1 w1]|] eqn:Hs.
    + destruct (confined_step _ _ _ _ _ Hc Hp Hs) as [Hc1 He1].
      destruct Hc; simpl in *; try done. rewrite Hs. simpl. intros Hrun.
      eapply evolved_trans; [done|]. eapply IH; [done|apply He1|done].
    + destruct Hc; simpl in *; try done; try (intros [= <- <-]; by apply evolved_refl).
      by rewrite Hs.
Qed.

Lemma confined_run_alone {A} replies (c : coro A) (w w' : world) r :
  confined P Q R c → P (globals w) → run_alone c w replies = Some (r, w') →
  evolved P Q w w'.
Proof.
  intros Hc Hp. unfold run_alone.
  destruct (confined_advance c w Hc Hp) as [Hc1 He1].
  destruct (advance c w) as [c1 w1]. simpl in *. intros Hrun.
  eapply evolved_trans; [done|]. eapply confined_run_suspended; [done|apply He1|done].
Qed.

End ConfinedFacts.

(** ** The modes of the resilient wrapper and the local back end *)

Section ModeFacts.
Context {vec model : Type}.
Context (clean_embedding1 : text → text).
Context (cosine_similarity : @matrix vec → @matrix vec → result (list (list float))).
Local Abbreviation world := (@world model).
Local Abbreviation resilient :=
  (@compute_embeddings_resilient_async vec model clean_embedding1).
Local Abbreviation local_async :=
  (@compute_embeddings_local_async vec model clean_embedding1).
Local Abbreviation worker :=
  (@embed_match_worker vec model clean_embedding1 cosine_similarity).

(** The local back end writes the model cache only, shows the two
    notifications of the load and awaits the load and the encoding of the
    batches of its texts. *)
Lemma local_async_awaits (P : @Globals model → Prop) (Q : notice → Prop)
    (R : ∀ B, @io vec model B → Prop) cfg texts :
  (∀ g m, P g → P {| _API_FAILURES := _API_FAILURES g;
                     FALLBACK_ACTIVE := FALLBACK_ACTIVE g; _LOCAL_ST_MODEL := m |}) →
  Q NotifyModelLoading → Q NotifyModelLoaded →
  R _ IoLoadModel →
  (∀ m, EMBED_BATCH_SIZE cfg ≠ 0 →
        R _ (IoEncode m (encode_batches (clean_text_for_embedding clean_embedding1 texts)
                           (EMBED_BATCH_SIZE cfg)))) →
  confined P Q R (local_async cfg texts).
Proof.
  intros HP Hq1 Hq2 Hr1 Hr2. unfold compute_embeddings_local_async, _chunk_indices.
  case_decide; [constructor|].
  destruct (decide (EMBED_BATCH_SIZE cfg = 0)) as [Hb|Hb]; cbn.
  - constructor. intros g Hg. destruct (_LOCAL_ST_MODEL g); cbn; [constructor|].
    constructor; [done|]. constructor; [done|]. intros [m|e]; cbn; [|constructor].
    constructor. intros g' Hg'. constructor; [by apply HP|].
    constructor; [done|]. constructor.
  - constructor. intros g Hg. destruct (_LOCAL_ST_MODEL g); cbn.
    + constructor; [by apply Hr2|]. intros [?|?]; constructor.
    + constructor; [done|]. constructor; [done|]. intros [m|e]; cbn; [|constructor].
      constructor. intros g' Hg'. constructor; [by apply HP|].
      constructor; [done|]. constructor; [by apply Hr2|]. intros [?|?]; constructor.
Qed.

Lemma local_async_confined (P : @Globals model → Prop) (Q : notice → Prop) cfg texts :
  (∀ g m, P g → P {| _API_FAILURES := _API_FAILURES g;
                     FALLBACK_ACTIVE := FALLBACK_ACTIVE g; _LOCAL_ST_MODEL := m |}) →
  Q NotifyModelLoading → Q NotifyModelLoaded →
  confined P Q (@not_remote vec model) (local_async cfg texts).
Proof. intros HP Hq1 Hq2. by apply local_async_awaits. Qed.

Lemma progress_confined (P : @Globals model → Prop) (Q : notice → Prop) R {A} pc msg
    (k : @coro vec model A) :
  (pc = true → Q (Progress msg)) → confined P Q R k →
  confined P Q R (coro_bind (λ _, k) (progress pc msg)).
Proof. intros Hq Hk. destruct pc; cbn; [constructor; auto|done]. Qed.

(** [async with sem] adds the acquisition of a permit and its release. *)
Lemma async_with_sem_confined (P : @Globals model → Prop) (Q : notice → Prop)
    (R : ∀ B, @io vec model B → Prop) {A} (body : @coro vec model A) :
  R _ IoAcquire → confined P Q R body → confined P Q R (async_with_sem body).
Proof.
  intros Hr Hb. unfold async_with_sem. cbn. constructor; [done|].
  intros [[]|e]; cbn; [|constructor].
  apply confined_try_except.
  - apply confined_bind; [done|]. intros a. repeat constructor.
  - intros e. repeat constructor.
Qed.

Lemma worker_confined (P : @Globals model → Prop) (Q : notice → Prop)
    (R : ∀ B, @io vec model B → Prop) cfg input_list_clean target_list
    target_embeddings pc first last :
  R _ IoAcquire → (pc = true → Q (Progress "Matching")) →
  confined P Q R (resilient cfg (slice input_list_clean first last) pc) →
  confined P Q R (worker cfg input_list_clean target_list target_embeddings pc first last).
Proof.
  intros Hr Hq Hc. unfold embed_match_worker.
  apply confined_bind; [by apply async_with_sem_confined|].
  intros emb. destruct (cosine_similarity emb target_embeddings) as [sim|e]; [|constructor].
  destruct (match_rows target_list sim) as [ms|e]; [|constructor].
  destruct pc; cbn; repeat constructor. by apply Hq.
Qed.

(** In local mode a request sets the flag and goes on as the local back
    end. *)
Lemma resilient_local_confined (P : @Globals model → Prop) (Q : notice → Prop)
    cfg texts pc :
  MODEL_FALLBACK_MODE cfg = "local" →
  (∀ g m, P g → P {| _API_FAILURES := _API_FAILURES g;
                     FALLBACK_ACTIVE := FALLBACK_ACTIVE g; _LOCAL_ST_MODEL := m |}) →
  (∀ g, P g → P {| _API_FAILURES := _API_FAILURES g;
                   FALLBACK_ACTIVE := true; _LOCAL_ST_MODEL := _LOCAL_ST_MODEL g |}) →
  (∀ nt, is_fallback_notice nt = false → Q nt) →
  confined P Q (@not_remote vec model) (resilient cfg texts pc).
Proof.
  intros Hm HP1 HP2 Hq. unfold compute_embeddings_resilient_async. rewrite Hm. cbn.
  constructor. intros g Hg. constructor; [by apply HP2|].
  apply (progress_confined _ _ _ pc "Local CPU embeddings (forced)."
           (compute_embeddings_local_async clean_embedding1 cfg texts)); [by auto|].
  apply local_async_confined; by auto.
Qed.

(** In auto mode, as long as the flag is set a request goes on as the
    local back end. *)
Lemma resilient_open_confined (Q : notice → Prop) cfg texts pc n :
  MODEL_FALLBACK_MODE cfg = "auto" →
  (∀ nt, is_fallback_notice nt = false → Q nt) →
  confined (λ g, _API_FAILURES g = n ∧ FALLBACK_ACTIVE g = true) Q (@not_remote vec model)
    (resilient cfg texts pc).
Proof.
  intros Hm Hq. unfold compute_embeddings_resilient_async. rewrite Hm. cbn.
  constructor. intros g [Hg1 Hg2]. rewrite Hg2.
  apply (progress_confined _ _ _ pc "Local CPU embeddings (fallback active)."
           (compute_embeddings_local_async clean_embedding1 cfg texts)); [by auto|].
  apply local_async_confined; [|by auto..]. by intros g' m [??].
Qed.

Lemma fallback_notices_none ns :
  Forall (λ nt, is_fallback_notice nt = false) ns → fallback_notices ns = 0.
Proof.
  unfold fallback_notices. induction 1 as [|nt ns Hn _ IH]; [done|].
  rewrite filter_cons_False; [done|]. by rewrite Hn.
Qed.

Lemma awaits_only_not_remote {A} (c : @coro vec model A) :
  awaits_only (@not_remote vec model) c → ∀ texts, waiting_on c ≠ WaitApi texts.
Proof. destruct c as [| | | | | |B op k]; try done. by destruct op. Qed.

(** Workers whose requests are confined, under any schedule. *)
Lemma workers_confined_run (P : @Globals model → Prop) cfg input_list_clean target_list
    target_embeddings pc input_slices max_concurrency schedule (w : world) ex :
  (∀ texts, confined P (λ nt, is_fallback_notice nt = false) (@not_remote vec model)
              (resilient cfg texts pc)) →
  P (globals w) →
  run_schedule
    (gather_start
       (embed_match_workers clean_embedding1 cosine_similarity cfg input_list_clean
          target_list target_embeddings pc input_slices) w max_concurrency) schedule
  = Some ex →
  Forall (λ c, ∀ texts, waiting_on c ≠ WaitApi texts) (tasks ex)
  ∧ P (globals (now ex))
  ∧ fallback_notices (notices (now ex)) = fallback_notices (notices w).
Proof.
  intros Hres Hp Hrun.
  match type of Hrun with run_schedule ?e _ = _ =>
    destruct (λ H1 H2, confined_run_schedule P (λ nt, is_fallback_notice nt = false)
                (@not_remote vec model) schedule e ex H1 H2 Hrun)
      as [Ht [Hp' (ns & Hns & Hq)]]
  end.
  - simpl. unfold embed_match_workers. apply Forall_fmap, Forall_forall.
    intros [first last] _. simpl. by apply worker_confined.
  - done.
  - split; [|split; [done|]].
    + eapply Forall_impl; [done|]. intros c Hc.
      by apply awaits_only_not_remote, (confined_awaits P (λ nt, is_fallback_notice nt = false)).
    + rewrite Hns. simpl. rewrite fallback_notices_app, (fallback_notices_none ns Hq). lia.
Qed.

(** In local mode no worker of the matcher ever awaits the remote back
    end, under any schedule: the workers leave the failure counter alone,
    show no fallback notification, and the flag, once set, stays set. *)
Theorem forced_local_never_calls_remote cfg input_list_clean target_list
    target_embeddings pc input_slices max_concurrency schedule (w : world) ex :
  MODEL_FALLBACK_MODE cfg = "local" →
  run_schedule
    (gather_start
       (embed_match_workers clean_embedding1 cosine_similarity cfg input_list_clean
          target_list target_embeddings pc input_slices) w max_concurrency) schedule
  = Some ex →
  Forall (λ c, ∀ texts, waiting_on c ≠ WaitApi texts) (tasks ex)
  ∧ _API_FAILURES (globals (now ex)) = _API_FAILURES (globals w)
  ∧ fallback_notices (notices (now ex)) = fallback_notices (notices w)
  ∧ (FALLBACK_ACTIVE (globals w) = true → FALLBACK_ACTIVE (globals (now ex)) = true).
Proof.
  intros Hm Hrun.
  destruct (workers_confined_run (λ g, _API_FAILURES g = _API_FAILURES (globals w))
              cfg input_list_clean target_list target_embeddings pc input_slices
              max_concurrency schedule w ex) as (H1 & H2 & H3); [|done..|].
  { intros texts. by apply resilient_local_confined. }
  repeat split; [done..|]. intros Hf.
  destruct (workers_confined_run
              (λ g, _API_FAILURES g = _API_FAILURES (globals w) ∧ FALLBACK_ACTIVE g = true)
              cfg input_list_clean target_list target_embeddings pc input_slices
              max_concurrency schedule w ex) as (_ & [_ H4] & _); [|done..].
  intros texts. apply resilient_local_confined; [done| |naive_solver|done].
  by intros g m [??].
Qed.

(** In auto mode, workers that start with the circuit open leave it open:
    under any schedule none of them awaits the remote back end, the flag
    stays set, the failure counter is left alone and no fallback
    notification is shown. *)
Theorem open_circuit_stays_open cfg input_list_clean target_list
    target_embeddings pc input_slices max_concurrency schedule (w : world) ex :
  MODEL_FALLBACK_MODE cfg = "auto" →
  FALLBACK_ACTIVE (globals w) = true →
  run_schedule
    (gather_start
       (embed_match_workers clean_embedding1 cosine_similarity cfg input_list_clean
          target_list target_embeddings pc input_slices) w max_concurrency) schedule
  = Some ex →
  Forall (λ c, ∀ texts, waiting_on c ≠ WaitApi texts) (tasks ex)
  ∧ FALLBACK_ACTIVE (globals (now ex)) = true
  ∧ _API_FAILURES (globals (now ex)) = _API_FAILURES (globals w)
  ∧ fallback_notices (notices (now ex)) = fallback_notices (notices w).
Proof.
  intros Hm Hf Hrun.
  destruct (workers_confined_run
              (λ g, _API_FAILURES g = _API_FAILURES (globals w) ∧ FALLBACK_ACTIVE g = true)
              cfg input_list_clean target_list target_embeddings pc input_slices
              max_concurrency schedule w ex) as (H1 & [H2 H3] & H4); [|done..|done].
  intros texts. by apply resilient_open_confined.
Qed.

(** In the modes "api" and "off" a request clears the flag and awaits the
    remote back end on its texts; whatever the remote call answers is the
    outcome of the request. A failure is raised to the caller as it is: the
    failure counter is not touched, the flag stays cleared, nothing is
    notified and the local back end is not used. *)
Theorem forced_remote_modes_never_fall_back cfg texts pc (w : world) r :
  MODEL_FALLBACK_MODE cfg = "api" ∨ MODEL_FALLBACK_MODE cfg = "off" →
  waiting_on
    (fst (advance (compute_embeddings_resilient_async (vec := vec) clean_embedding1
                     cfg texts pc) w))
  = WaitApi texts
  ∧ run_alone (compute_embeddings_resilient_async (vec := vec) clean_embedding1
                 cfg texts pc) w [ReplyMatrix r]
    = Some (r, with_notices (set_globals w (_API_FAILURES (globals w)) false)
                 (if String.eqb (MODEL_FALLBACK_MODE cfg) "api"
                  then progress_notice pc "Using API embeddings (forced)." else [])).
Proof.
  intros [Hm|Hm]; unfold compute_embeddings_resilient_async, run_alone; rewrite Hm;
    destruct pc, r; cbn; split; try done.
  all: unfold with_notices; cbn; by rewrite (right_id_L [] (++)).
Qed.

(** A mode that is none of "local", "api" and "off" is auto mode: a
    request under it is the request of auto mode. *)
Theorem unrecognized_mode_is_auto cfg texts pc :
  MODEL_FALLBACK_MODE cfg ≠ "local" →
  MODEL_FALLBACK_MODE cfg ≠ "api" →
  MODEL_FALLBACK_MODE cfg ≠ "off" →
  compute_embeddings_resilient_async (vec := vec) (model := model) clean_embedding1
    cfg texts pc
  = compute_embeddings_resilient_async clean_embedding1
      {| MAX_CONCURRENCY := MAX_CONCURRENCY cfg;
         EMBED_BATCH_SIZE := EMBED_BATCH_SIZE cfg;
         USE_ASYNC := USE_ASYNC cfg;
         API_MAX_FAILURES := API_MAX_FAILURES cfg;
         MODEL_FALLBACK_MODE := "auto" |} texts pc.
Proof.
  intros H1%String.eqb_neq H2%String.eqb_neq H3%String.eqb_neq.
  unfold compute_embeddings_resilient_async. cbn. by rewrite H1, H2, H3.
Qed.

(** The edges of the local back end. With nothing to embed it returns the
    empty matrix without loading the model or notifying. When the load of
    the model fails, the error is raised to the caller, the cache stays
    empty and the "loading" notification stays up: nothing removes it. *)
Theorem local_backend_edges cfg texts (w : world) :
  (clean_text_for_embedding clean_embedding1 texts = [] →
   run_alone (compute_embeddings_local_async (vec := vec) clean_embedding1 cfg texts) w []
   = Some (Ok [], w))
  ∧ (clean_text_for_embedding clean_embedding1 texts ≠ [] →
     _LOCAL_ST_MODEL (globals w) = None →
     ∀ e,
       run_alone (compute_embeddings_local_async (vec := vec) clean_embedding1 cfg texts) w
         [ReplyModel (Raise e)]
       = Some (Raise e, with_notices w [NotifyModelLoading])).
Proof.
  unfold compute_embeddings_local_async, run_alone. split.
  - intros ->. done.
  - intros Hne Hc e. case_decide as Hl; [by apply nil_length_inv in Hl|]. cbn.
    by rewrite Hc.
Qed.


End ModeFacts.

(** The modes "api" and "off" on a failing remote call. *)
Lemma forced_remote_modes_never_fall_back_witness :
  run_alone
    (compute_embeddings_resilient_async (vec := string) (model := string) Mock.keep
       Mock.fallback_off ["apple"] true)
    Mock.tripped [Mock.failed]
  = Some (Raise Mock.unavailable, set_globals Mock.tripped 7 false).
Proof.
  destruct (forced_remote_modes_never_fall_back (vec := string) (model := string) Mock.keep
              Mock.fallback_off ["apple"] true
              Mock.tripped (Raise Mock.unavailable)) as [_ H].
  - by right.
  - exact H.
Defined.

(** Local mode: two workers admitted, the first has loaded the model. *)
Lemma forced_local_never_calls_remote_witness :
  match run_schedule (gather_start (Mock.workers_under Mock.forced_local) Mock.fresh 2)
          [(0, Mock.granted); (1, Mock.granted); (0, Mock.loaded "instance 1")] with
  | Some ex =>
      Forall (λ c, ∀ texts, waiting_on c ≠ WaitApi texts) (tasks ex)
      ∧ _API_FAILURES (globals (now ex)) = 0%Z
      ∧ fallback_notices (notices (now ex)) = 0
  | None => False
  end.
Proof.
  destruct (run_schedule _ _) as [ex|] eqn:Hrun; [|vm_compute in Hrun; discriminate].
  destruct (forced_local_never_calls_remote Mock.keep Mock.cosine Mock.forced_local
              ["a"; "b"; "c"] ["a"; "b"] (Mock.fingerprint <$> ["a"; "b"]) true
              [(0, 1); (1, 2); (2, 3)] 2
              [(0, Mock.granted); (1, Mock.granted); (0, Mock.loaded "instance 1")]
              Mock.fresh ex eq_refl Hrun) as (H1 & H2 & H3 & _).
  split; [exact H1|]. split; [exact H2|exact H3].
Defined.

(** Auto mode, threshold 1, the workers started in the world of a tripped
    circuit: the first worker loads the model and encodes, the second is
    admitted. *)
Lemma open_circuit_stays_open_witness :
  match run_schedule (gather_start (Mock.workers_under Mock.tight) Mock.tripped 2)
          [(0, Mock.granted); (0, Mock.loaded "instance 1"); (0, Mock.embedded ["a"]);
           (1, Mock.granted)] with
  | Some ex =>
      Forall (λ c, ∀ texts, waiting_on c ≠ WaitApi texts) (tasks ex)
      ∧ FALLBACK_ACTIVE (globals (now ex)) = true
      ∧ _API_FAILURES (globals (now ex)) = 7%Z
      ∧ fallback_notices (notices (now ex)) = 0
  | None => False
  end.
Proof.
  destruct (run_schedule _ _) as [ex|] eqn:Hrun; [|vm_compute in Hrun; discriminate].
  exact (open_circuit_stays_open Mock.keep Mock.cosine Mock.tight
           ["a"; "b"; "c"] ["a"; "b"] (Mock.fingerprint <$> ["a"; "b"]) true
           [(0, 1); (1, 2); (2, 3)] 2
           [(0, Mock.granted); (0, Mock.loaded "instance 1"); (0, Mock.embedded ["a"]);
            (1, Mock.granted)]
           Mock.tripped ex eq_refl eq_refl Hrun).
Defined.

(** [MODEL_FALLBACK_MODE=automatic] *)
Lemma unrecognized_mode_is_auto_witness :
  compute_embeddings_resilient_async (vec := string) (model := string) Mock.keep
    Mock.misspelt ["apple"] true
  = compute_embeddings_resilient_async Mock.keep Mock.tight ["apple"] true.
Proof.
  exact (unrecognized_mode_is_auto (vec := string) (model := string) Mock.keep
           Mock.misspelt ["apple"] true ltac:(done) ltac:(done) ltac:(done)).
Defined.


(** ** Whole runs *)

Section RunFacts.
Context {vec model : Type}.
Context (clean_embedding1 clean_simple1 : text → text).
Context (cosine_similarity : @matrix vec → @matrix vec → result (list (list float))).
Local Abbreviation world := (@world model).
Local Abbreviation run :=
  (@run_matching vec model clean_embedding1 clean_simple1 cosine_similarity).
Local Abbreviation start := (@run_matching_start vec model clean_simple1).

(** An early return of [run_matching]: when the input or the target frame
    is empty, a column is not selected or no API key is found, the run shows
    one warning and returns. It awaits nothing and requests no embedding,
    and it does not reset the circuit: the failure counter and the fallback
    flag stay as the previous run left them. *)
Theorem run_matching_early_return cfg rq out (w : world) :
  ¬ guards_pass rq →
  ∃ msg,
    run_matching clean_embedding1 clean_simple1 cosine_similarity cfg rq out w
    = Some (Ok None, with_notices w [NotifyWarning msg]).
Proof.
  unfold guards_pass, run_matching, run_matching_start, run_alone. intros Hg.
  destruct (in_df_empty rq); [destruct (replies_start out); cbn; eauto|].
  destruct (tgt_df_empty rq); [destruct (replies_start out); cbn; eauto|].
  destruct (truthy (Some (in_col rq))); [|destruct (replies_start out); cbn; eauto].
  destruct (truthy (Some (tgt_col rq))); [|destruct (replies_start out); cbn; eauto].
  destruct (truthy (api_key rq)); [|destruct (replies_start out); cbn; eauto].
  exfalso. apply Hg. by repeat split.
Qed.

Lemma dict_fromkeys_nil keys : dict_fromkeys keys = [] → keys = [].
Proof.
  intros H. destruct keys as [|x keys]; [done|].
  assert (Hx : x ∈ dict_fromkeys (x :: keys)) by (apply elem_of_dict_fromkeys; left).
  rewrite H in Hx. by apply elem_of_nil in Hx.
Qed.

(** The run up to the matcher when no early return is taken. *)
Lemma run_matching_started cfg rq (w : world) :
  guards_pass rq →
  ∃ prepared w1,
    run_alone (start cfg rq) w [ReplyUnit; ReplyUnit] = Some (Ok (Some prepared), w1)
    ∧ input_list prepared = input_column rq
    ∧ target_list_unique prepared = dict_fromkeys (target_column rq).
Proof.
  intros Hg. destruct (run_matching_start_resets (vec := vec) clean_simple1 cfg rq w Hg)
    as (_ & _ & prepared & w1 & H1 & H2 & H3 & _). eauto.
Qed.

(** With a batch size of zero a run that passes the guards fails before it
    requests any embedding: counting the batches divides by zero, the error
    is shown and raised, and the world is the one the start of the run left
    plus that notification, whatever the back ends would have answered. *)
Theorem run_matching_zero_batch_size cfg rq out (w : world) :
  guards_pass rq →
  EMBED_BATCH_SIZE cfg = 0 →
  replies_start out = [ReplyUnit; ReplyUnit] →
  ∃ e prepared w1,
    run_alone (run_matching_start (vec := vec) clean_simple1 cfg rq) w (replies_start out)
    = Some (Ok (Some prepared), w1)
    ∧ run_matching clean_embedding1 clean_simple1 cosine_similarity cfg rq out w
      = Some (Raise e, with_notices w1 [NotifyWarning ("Error: " +:+ str e)]).
Proof.
  intros Hg Hb Hr. destruct (run_matching_started cfg rq w Hg) as (prepared & w1 & H1 & _).
  eexists _, prepared, w1. rewrite Hr. split; [done|].
  unfold run_matching. rewrite Hr, H1. cbn. unfold batches_total. rewrite Hb. done.
Qed.

Lemma collect_matches_head_raises (y : result batch) rest results e :
  y = Raise e → collect_matches (y :: rest) results = Raise e.
Proof. by intros ->. Qed.

(** The thread-pool matcher never returns once it has anything to embed. *)
Lemma run_embed_match_raises eps_targets eps_inputs picks_targets picks_inputs
    input_list target_list batch_size max_concurrency clean_input clean_target :
  target_list ≠ [] ∨ input_list ≠ [] →
  ∃ e, run_embed_match clean_embedding1 cosine_similarity eps_targets eps_inputs
         picks_targets picks_inputs input_list target_list batch_size max_concurrency
         clean_input clean_target = Raise e.
Proof.
  intros Hne. unfold run_embed_match.
  set (input_list_clean :=
         if clean_input then clean_text_for_embedding clean_embedding1 input_list
         else input_list).
  set (target_list_clean :=
         if clean_target then clean_text_for_embedding clean_embedding1 target_list
         else target_list).
  assert (Hi : input_list_clean = [] → input_list = []).
  { unfold input_list_clean, clean_text_for_embedding.
    destruct clean_input; [apply fmap_nil_inv|done]. }
  assert (Ht : target_list_clean = [] → target_list = []).
  { unfold target_list_clean, clean_text_for_embedding.
    destruct clean_target; [apply fmap_nil_inv|done]. }
  destruct (compute_embeddings_parallel eps_targets picks_targets target_list_clean
              (batch_size `min` 1024) max_concurrency) as [target_embeddings|e] eqn:Hp;
    [|eauto].
  assert (Htn : target_list_clean = []).
  { destruct (decide (target_list_clean = [])) as [|Hn]; [done|]. exfalso.
    assert (Hl : length target_list_clean ≠ 0) by (by intros ?%nil_length_inv).
    destruct (decide (batch_size `min` 1024 = 0)) as [Hb|Hb].
    { unfold compute_embeddings_parallel, _chunk_indices in Hp.
      rewrite (decide_False (P := length target_list_clean = 0)) in Hp by done.
      by rewrite (decide_True (P := batch_size `min` 1024 = 0)) in Hp by done. }
    destruct (decide (max_concurrency = 0)) as [Hc|Hc].
    { unfold compute_embeddings_parallel in Hp.
      rewrite (decide_False (P := length target_list_clean = 0)) in Hp by done.
      rewrite _chunk_indices_chunks in Hp by done.
      by rewrite (decide_True (P := max_concurrency = 0)) in Hp by done. }
    destruct (parallel_sync_raises eps_targets picks_targets target_list_clean
                (batch_size `min` 1024) max_concurrency Hn Hb Hc)
      as (? & ? & _ & x & _ & Hx).
    by rewrite Hx in Hp. }
  assert (Hin : input_list_clean ≠ []).
  { intros H. destruct Hne as [Hne|Hne]; [by apply Hne, Ht|by apply Hne, Hi]. }
  destruct (_chunk_indices (length input_list_clean) (batch_size `min` 1024))
    as [input_slices|e] eqn:Hch; [|eauto].
  case_decide; [eauto|].
  assert (Hb : batch_size `min` 1024 ≠ 0).
  { intros Hb. unfold _chunk_indices in Hch. by rewrite decide_True in Hch by done. }
  rewrite _chunk_indices_chunks in Hch by done. injection Hch as <-.
  destruct (chunks (length input_list_clean) (batch_size `min` 1024)) as [|[s e] l] eqn:Hcs.
  { apply fmap_nil_inv in Hcs. apply py_range0_nonempty in Hcs; [done..|].
    by destruct input_list_clean. }
  match goal with |- context [as_completed picks_inputs (?g <$> _)] => set (f := g) end.
  rewrite fmap_cons.
  destruct (as_completed_head picks_inputs (f (s, e)) (f <$> l)) as (y & rest & -> & Hy).
  change (y ∈ f <$> (s, e) :: l) in Hy.
  assert (∃ x, y = Raise x) as [x ->]; [|simpl; eauto].
  apply list_elem_of_fmap in Hy as ([s' e'] & -> & _).
  unfold f, _process_input_slice.
  destruct (sync_call_raises (eps_inputs s') (slice input_list_clean s' e')) as [x ->].
  eauto.
Qed.

(** With [EMBEDDING_ASYNC] off every run that passes the guards and has a
    target or an input to embed ends in an error, whatever the endpoint
    answers and in whatever order the batches complete: the error is shown
    and raised, and no table is stored. *)
Theorem run_matching_thread_pool_fails cfg rq out (w : world) :
  guards_pass rq →
  USE_ASYNC cfg = false →
  target_column rq ≠ [] ∨ input_column rq ≠ [] →
  replies_start out = [ReplyUnit; ReplyUnit] →
  ∃ e w1,
    run_matching clean_embedding1 clean_simple1 cosine_similarity cfg rq out w
    = Some (Raise e, with_notices w1 [NotifyWarning ("Error: " +:+ str e)]).
Proof.
  intros Hg Ha Hne Hr.
  destruct (run_matching_started cfg rq w Hg) as (prepared & w1 & H1 & Hi & Ht).
  unfold run_matching. rewrite Hr, H1, Ha. cbn.
  destruct (batches_total cfg prepared) as [n|e]; [|by eexists _, _].
  destruct (run_embed_match_raises (eps_targets out) (eps_inputs out) (picks_targets out)
              (picks_inputs out) (input_list prepared) (target_list_unique prepared)
              (EMBED_BATCH_SIZE cfg) (MAX_CONCURRENCY cfg) (clean_input_text rq)
              (clean_target_text rq)) as [e ->].
  { rewrite Hi, Ht. destruct Hne as [Hne|Hne]; [left|by right].
    intros H. by apply Hne, dict_fromkeys_nil. }
  cbn. by eexists _, _.
Qed.

(** [get_api_key] prefers [DEEPINFRA_API_KEY]: a non-empty value of it is
    the key. When it is unset or empty the key is whatever
    [DEEPINFRA_TOKEN] holds, so a key is found exactly when one of the two
    variables holds a non-empty string; and when none does, a run that gets
    to the check of the key returns early with the warning that names
    [DEEPINFRA_API_KEY]. *)
Theorem get_api_key_precedence (environ : gmap string string) :
  (∀ k, environ !! "DEEPINFRA_API_KEY" = Some k → k ≠ "" → get_api_key environ = Some k)
  ∧ (environ !! "DEEPINFRA_API_KEY" = None ∨ environ !! "DEEPINFRA_API_KEY" = Some "" →
     get_api_key environ = environ !! "DEEPINFRA_TOKEN")
  ∧ (truthy (get_api_key environ) = true
     ↔ ∃ k, k ≠ ""
            ∧ (environ !! "DEEPINFRA_API_KEY" = Some k
               ∨ environ !! "DEEPINFRA_TOKEN" = Some k))
  ∧ (∀ cfg rq out (w : world),
       api_key rq = get_api_key environ →
       truthy (get_api_key environ) = false →
       in_df_empty rq = false → tgt_df_empty rq = false →
       in_col rq ≠ "" → tgt_col rq ≠ "" →
       run_matching clean_embedding1 clean_simple1 cosine_similarity cfg rq out w
       = Some (Ok None,
               with_notices w
                 [NotifyWarning "DeepInfra API key not found. Please set DEEPINFRA_API_KEY"])).
Proof.
  assert (Ht : ∀ o : option string, truthy o = true ↔ ∃ k, k ≠ "" ∧ o = Some k).
  { intros [k|]; simpl; [|naive_solver]. rewrite negb_true_iff, String.eqb_neq.
    naive_solver. }
  unfold get_api_key. split; [|split; [|split]].
  - intros k Hk Hne. rewrite Hk. simpl. apply String.eqb_neq in Hne. by rewrite Hne.
  - by intros [->| ->].
  - destruct (truthy (environ !! "DEEPINFRA_API_KEY")) eqn:Hk; simpl.
    + rewrite Ht. apply Ht in Hk. naive_solver.
    + rewrite Ht. split; [naive_solver|]. intros (k & Hne & [Hk'|Hk']); [|by eauto].
      assert (truthy (environ !! "DEEPINFRA_API_KEY") = true) by (apply Ht; eauto).
      congruence.
  - intros cfg rq out w Hkey Hnone H1 H2 H3%String.eqb_neq H4%String.eqb_neq.
    unfold run_matching, run_matching_start, run_alone.
    rewrite H1, H2, Hkey. unfold get_api_key. rewrite Hnone. simpl. rewrite H3, H4. simpl.
    by destruct (replies_start out).
Qed.

End RunFacts.

Section TableFacts.
Context (clean_simple1 : text → text).

(** The results table is aligned with the scores and the inputs. The frame
    accepts the two columns when the matcher reported one label and one
    score per input; it then has one row per input, and row [i] holds the
    [i]-th input as displayed, the [i]-th label (display-cleaned when the
    clean-target toggle is on) and the [i]-th score rounded to four
    decimals. A column of another length is refused, except by a frame
    without rows (no input at all): that frame takes its index from the
    first column assigned that is not empty, and the cells of the columns
    it had by then are NaN. *)
Theorem run_matching_results_aligned rq display labels scores :
  match run_matching_results clean_simple1 rq display (labels, scores) with
  | Ok rows =>
      ((length labels = length display ∧ length scores = length display)
       ∨ (display = [] ∧ (labels = [] ∨ length labels = length scores)))
      ∧ length rows = length scores
      ∧ ∀ i row, rows !! i = Some row →
          input_description row = display !! i
          ∧ best_match row
            = (if clean_target_text rq then clean_simple1 <$> labels !! i else labels !! i)
          ∧ np_round4 <$> scores !! i = Some (similarity_score row)
  | Raise _ =>
      (display ≠ [] ∧ (length labels ≠ length display ∨ length scores ≠ length display))
      ∨ (display = [] ∧ labels ≠ [] ∧ length scores ≠ length labels)
  end.
Proof.
  set (matched := if clean_target_text rq then clean_text_simple clean_simple1 labels
                  else labels).
  assert (Hml : length matched = length labels).
  { unfold matched, clean_text_simple. destruct (clean_target_text rq); [|done].
    by rewrite length_fmap. }
  assert (Hmi : ∀ i, matched !! i
                     = if clean_target_text rq then clean_simple1 <$> labels !! i
                       else labels !! i).
  { intros i. unfold matched, clean_text_simple. destruct (clean_target_text rq); [|done].
    by rewrite list_lookup_fmap. }
  destruct (run_matching_results clean_simple1 rq display (labels, scores))
    as [rows|e] eqn:Hr.
  - apply run_matching_results_columns in Hr as (Hd & Hm & Hmd & ->).
    cbn [fst snd] in *. fold matched in Hm, Hmd |- *. rewrite Hml in Hm, Hmd.
    split; [|split].
    + destruct display as [|d display]; [right|left; simpl in *; lia].
      split; [done|]. destruct labels; [by left|right; simpl in *; lia].
    + rewrite length_zip_with, !length_zip, !length_reindex, !length_fmap
        by (rewrite length_fmap; lia). lia.
    + intros i row Hi.
      apply lookup_zip_with_Some in Hi as (st & [d [m s]] & -> & _ & Hz). simpl.
      apply lookup_zip_with_Some in Hz as (d' & [m' s'] & [= <- <- <-] & Hd' & Hz).
      apply lookup_zip_with_Some in Hz as (m' & s' & [= <- <-] & Hm' & Hs').
      apply reindex_lookup in Hd', Hm'. rewrite <- Hmi.
      by rewrite <- list_lookup_fmap.
  - unfold run_matching_results in Hr. cbn [fst snd] in Hr. fold matched in Hr.
    rewrite length_fmap in Hr.
    destruct (setitem_index (length display) (length matched)) as [rows1|e1] eqn:H1.
    + destruct (setitem_index rows1 (length scores)) as [rows2|e2] eqn:H2; [done|].
      apply setitem_index_ok in H1 as [-> H1]. apply setitem_index_raise in H2.
      rewrite Hml in *.
      destruct display as [|d display]; [right|left; split; [done|]; simpl in *; right; lia].
      split; [done|]. destruct labels; simpl in *; [lia|]. split; [done|lia].
    + apply setitem_index_raise in H1. rewrite Hml in *.
      destruct display as [|d display]; simpl in *; [lia|]. left. split; [done|].
      left. lia.
Qed.

End TableFacts.

(** A run without an API key, started in the world a tripped circuit left:
    the circuit is left as it was. *)
Lemma run_matching_early_return_witness :
  ∃ msg,
    run_matching Mock.keep Mock.keep Mock.cosine Mock.tight Mock.request_without_key
      Mock.healthy Mock.tripped
    = Some (Ok None, with_notices Mock.tripped [NotifyWarning msg]).
Proof.
  apply (run_matching_early_return Mock.keep Mock.keep Mock.cosine Mock.tight
           Mock.request_without_key Mock.healthy Mock.tripped).
  intros (_ & _ & _ & _ & H). vm_compute in H. discriminate.
Defined.

(** A run under [EMBEDDING_BATCH_SIZE=0]. *)
Lemma run_matching_zero_batch_size_witness :
  ∃ e prepared w1,
    run_alone (run_matching_start (vec := string) Mock.keep Mock.zero_batch Mock.request)
      Mock.tripped (replies_start Mock.healthy)
    = Some (Ok (Some prepared), w1)
    ∧ run_matching Mock.keep Mock.keep Mock.cosine Mock.zero_batch Mock.request
        Mock.healthy Mock.tripped
      = Some (Raise e, with_notices w1 [NotifyWarning ("Error: " +:+ str e)]).
Proof.
  apply (run_matching_zero_batch_size Mock.keep Mock.keep Mock.cosine Mock.zero_batch
           Mock.request Mock.healthy Mock.tripped); [repeat split|reflexivity..].
Defined.

(** A run under [EMBEDDING_ASYNC=false] against an endpoint that answers. *)
Lemma run_matching_thread_pool_fails_witness :
  ∃ e w1,
    run_matching Mock.keep Mock.keep Mock.cosine Mock.tight_threads Mock.request
      Mock.healthy Mock.tripped
    = Some (Raise e, with_notices w1 [NotifyWarning ("Error: " +:+ str e)]).
Proof.
  apply (run_matching_thread_pool_fails Mock.keep Mock.keep Mock.cosine Mock.tight_threads
           Mock.request Mock.healthy Mock.tripped);
    [repeat split|reflexivity|by left|reflexivity].
Defined.

(** ** The semaphore of the matcher *)

Section SemaphoreFacts.
Context {vec model : Type}.
Context (clean_embedding1 : text → text).
Context (cosine_similarity : @matrix vec → @matrix vec → result (list (list float))).
Local Abbreviation coro := (@coro vec model).
Local Abbreviation world := (@world model).
Local Abbreviation resilient :=
  (@compute_embeddings_resilient_async vec model clean_embedding1).
Local Abbreviation worker :=
  (@embed_match_worker vec model clean_embedding1 cosine_similarity).

Lemma section_body_bind {A B} (f : A → coro B) (c : coro A) :
  section_body c → (∀ a, section_body (f a)) → section_body (coro_bind f c).
Proof. intros Hc Hf. induction Hc; simpl; try constructor; auto. Qed.

Lemma section_body_try_except {A} (body : coro A) handler :
  section_body body → (∀ e, section_body (handler e)) →
  section_body (try_except body handler).
Proof. intros Hc Hf. induction Hc; simpl; try constructor; auto. Qed.

Lemma local_async_section_body cfg texts :
  section_body (compute_embeddings_local_async (vec := vec) (model := model)
                  clean_embedding1 cfg texts).
Proof.
  unfold compute_embeddings_local_async. case_decide; [constructor|].
  destruct (_chunk_indices _ _) as [slices|e]; cbn.
  - constructor. intros g. destruct (_LOCAL_ST_MODEL g); cbn.
    + constructor; [done|]. intros [?|?]; constructor.
    + constructor. constructor; [done|]. intros [m|e]; cbn; [|constructor].
      constructor. intros g'. constructor. constructor. constructor; [done|].
      intros [?|?]; constructor.
  - constructor. intros g. destruct (_LOCAL_ST_MODEL g); cbn; [constructor|].
    constructor. constructor; [done|]. intros [m|e']; cbn; [|constructor].
    constructor. intros g'. constructor. constructor. constructor.
Qed.

Lemma progress_section_body {A} pc msg (k : coro A) :
  section_body k → section_body (coro_bind (λ _, k) (progress pc msg)).
Proof. intros Hk. destruct pc; cbn; [by constructor|done]. Qed.

(** A request awaits back ends only and releases nothing, in every mode. *)
Lemma resilient_section_body cfg texts pc : section_body (resilient cfg texts pc).
Proof.
  pose proof (local_async_section_body cfg texts) as Hl.
  assert (Hapi : section_body (_try_api_embeddings (vec := vec) (model := model) texts)).
  { constructor; [done|]. intros [?|?]; constructor. }
  unfold compute_embeddings_resilient_async.
  destruct (String.eqb _ "local"); cbn.
  { constructor. intros g. constructor. by apply progress_section_body. }
  destruct (String.eqb _ "api"); cbn.
  { constructor. intros g. constructor. by apply progress_section_body. }
  destruct (String.eqb _ "off"); cbn.
  { constructor. intros g. by constructor. }
  constructor. intros g. destruct (FALLBACK_ACTIVE g).
  { by apply progress_section_body. }
  constructor; [done|]. intros [vecs|e]; cbn.
  - repeat (constructor; intros).
  - constructor. intros g1. constructor. intros g2. constructor. constructor. intros g3.
    case_decide; [|constructor]. cbn. constructor. intros g4. constructor. constructor.
    by apply progress_section_body.
Qed.

Lemma after_section_bind {A B} (f : A → coro B) (c : coro A) :
  after_section c → (∀ a, after_section (f a)) → after_section (coro_bind f c).
Proof. intros Hc Hf. induction Hc; simpl; try constructor; auto. Qed.

Lemma in_section_bind {A B} (f : A → coro B) (c : coro A) :
  in_section c → (∀ a, after_section (f a)) → in_section (coro_bind f c).
Proof.
  intros Hc Hf. induction Hc; simpl; try (constructor; by auto).
  constructor. by apply after_section_bind.
Qed.

(** The body of [async with sem], once the permit is granted. *)
Lemma with_sem_in_section {A} (body : coro A) :
  section_body body →
  in_section (try_except (coro_bind (λ x, Release (Ret x)) body) (λ e, Release (Throw e))).
Proof. induction 1; simpl; try (constructor; by auto); repeat constructor. Qed.

Lemma worker_queued cfg input_list_clean target_list target_embeddings pc first last :
  queued (worker cfg input_list_clean target_list target_embeddings pc first last).
Proof.
  unfold embed_match_worker, async_with_sem. cbn. constructor. cbn.
  apply in_section_bind; [apply with_sem_in_section, resilient_section_body|].
  intros emb. destruct (cosine_similarity emb target_embeddings) as [sim|e]; [|constructor].
  destruct (match_rows target_list sim) as [ms|e]; [|constructor].
  destruct pc; cbn; repeat constructor.
Qed.

(** A task that holds no permit any more runs to its end without awaiting. *)
Lemma after_section_advance {A} (c : coro A) (w : world) :
  after_section c →
  in_flight (fst (advance c w)) = false
  ∧ step_task (fst (advance c w)) = (λ _ _, None)
  ∧ permits (snd (advance c w)) = permits w.
Proof.
  intros Hc. revert w. induction Hc; intros w; simpl; try done; auto.
  - apply (IHHc {| globals := g; notices := notices w; permits := permits w |}).
  - apply (IHHc {| globals := globals w; notices := notices w ++ [n];
                   permits := permits w |}).
Qed.

Lemma in_section_advance {A} (c : coro A) (w : world) :
  in_section c →
  (in_section (fst (advance c w)) ∧ in_flight (fst (advance c w)) = true
   ∧ permits (snd (advance c w)) = permits w)
  ∨ (in_flight (fst (advance c w)) = false
     ∧ step_task (fst (advance c w)) = (λ _ _, None)
     ∧ permits (snd (advance c w)) = S (permits w)).
Proof.
  intros Hc. revert w. induction Hc; intros w; simpl.
  - apply H0.
  - apply (IHHc {| globals := g; notices := notices w; permits := permits w |}).
  - apply (IHHc {| globals := globals w; notices := notices w ++ [n];
                   permits := permits w |}).
  - right. destruct (after_section_advance k
      {| globals := globals w; notices := notices w; permits := S (permits w) |})
      as (?&?&?); auto.
  - left. split; [by constructor|]. split; [|done]. by destruct op.
Qed.

Lemma count_in_flight_insert {A} (l : list (coro A)) i c c' :
  l !! i = Some c →
  count_in_flight (<[i := c']> l) + (if in_flight c then 1 else 0)
  = count_in_flight l + (if in_flight c' then 1 else 0).
Proof.
  unfold count_in_flight. revert i. induction l as [|x l IH]; intros [|i] Hi; simplify_eq/=.
  - rewrite !filter_cons. destruct (in_flight c), (in_flight c'); simpl;
      repeat case_decide; try done; simpl; lia.
  - specialize (IH i Hi). rewrite !filter_cons. case_decide; simpl; lia.
Qed.

Lemma placed_deliver {A} (ex ex' : @exec vec model A) ev :
  Forall placed (tasks ex) →
  deliver ex ev = Some ex' →
  Forall placed (tasks ex')
  ∧ count_in_flight (tasks ex') + permits (now ex')
    = count_in_flight (tasks ex) + permits (now ex).
Proof.
  intros Ht. unfold deliver.
  destruct (tasks ex !! ev.1) as [c|] eqn:Hc; [|done]. simpl.
  destruct (step_task c ev.2 (now ex)) as [[c' w']|] eqn:Hs; [|done]. simpl.
  intros [= <-]. simpl.
  pose proof (count_in_flight_insert _ _ _ c' Hc) as Hcount.
  assert (Hpl : placed c) by (eapply Forall_lookup_1; done).
  assert (placed c' ∧ (if in_flight c' then 1 else 0) + permits w'
                      = (if in_flight c then 1 else 0) + permits (now ex)) as [Hc' Hp].
  { destruct Hpl as [Hq|[[Hin Hfl]|[_ Hend]]].
    - destruct Hq as [k Hk]. simpl in Hs.
      destruct (permits (now ex)) as [|p] eqn:Hperm; [done|]. simpl in Hs.
      destruct ev.2; try done. simpl in Hs. injection Hs as Hs.
      destruct (in_section_advance (k (Ok ()))
                  {| globals := globals (now ex); notices := notices (now ex);
                     permits := p |} Hk) as [(H1 & H2 & H3)|(H1 & H2 & H3)];
        rewrite Hs in *; simpl in *.
      + split; [right; left; done|]. rewrite H2. cbn. lia.
      + split; [right; right; done|]. rewrite H1. cbn. lia.
    - destruct Hin as [| | | |B op k Hop Hk]; try done. simpl in Hs.
      assert (Hg : grant op (now ex) = Some (now ex)) by (by destruct op).
      rewrite Hg in Hs. simpl in Hs.
      assert (∃ r, resume op k ev.2 = Some (k r)) as [r Hr].
      { destruct op, ev.2; simpl in *; try done; eauto. }
      rewrite Hr in Hs. simpl in Hs. injection Hs as Hs.
      destruct (in_section_advance (k r) (now ex) (Hk r))
        as [(H1 & H2 & H3)|(H1 & H2 & H3)]; rewrite Hs in *; simpl in *.
      + split; [right; left; done|]. rewrite H2, Hfl. lia.
      + split; [right; right; done|]. rewrite H1, Hfl. lia.
    - by rewrite Hend in Hs. }
  split; [by apply Forall_insert|]. lia.
Qed.

(** The semaphore bounds the requests in flight: under every schedule of
    the input workers of the matcher, the number of workers that await a
    back end (the remote call, the load of the model or an encoding) plus
    the number of free permits is [max_concurrency]; at most
    [max_concurrency] workers are in flight at any time. *)
Theorem semaphore_bounds_in_flight cfg input_list_clean target_list target_embeddings pc
    input_slices max_concurrency schedule (w : world) ex :
  run_schedule
    (gather_start
       (embed_match_workers clean_embedding1 cosine_similarity cfg input_list_clean
          target_list target_embeddings pc input_slices) w max_concurrency) schedule
  = Some ex →
  count_in_flight (tasks ex) + permits (now ex) = max_concurrency
  ∧ count_in_flight (tasks ex) ≤ max_concurrency.
Proof.
  intros Hrun.
  assert (Hgen : ∀ (deliveries : list (nat * reply)) (ex0 ex : @exec vec model batch),
            Forall placed (tasks ex0) → run_schedule ex0 deliveries = Some ex →
            count_in_flight (tasks ex) + permits (now ex)
            = count_in_flight (tasks ex0) + permits (now ex0)).
  { clear. intros deliveries.
    induction deliveries as [|ev deliveries IH]; intros ex0 ex Ht; simpl.
    - by intros [= <-].
    - destruct (deliver ex0 ev) as [ex1|] eqn:Hd; [|done]. simpl. intros Hrun.
      destruct (placed_deliver _ _ _ Ht Hd) as [Ht1 Hc1].
      rewrite (IH ex1 ex Ht1 Hrun). done. }
  assert (Hw : Forall placed
                 (embed_match_workers (model := model) clean_embedding1 cosine_similarity cfg
                    input_list_clean target_list target_embeddings pc input_slices)).
  { unfold embed_match_workers. apply Forall_fmap, Forall_forall. intros [first last] _.
    left. apply worker_queued. }
  assert (H0 : count_in_flight
                 (embed_match_workers (model := model) clean_embedding1 cosine_similarity cfg
                    input_list_clean target_list target_embeddings pc input_slices) = 0).
  { clear. unfold count_in_flight, embed_match_workers.
    induction input_slices as [|[first last] l IH]; [done|].
    rewrite fmap_cons, filter_cons_False; [exact IH|].
    pose proof (worker_queued cfg input_list_clean target_list target_embeddings pc
                  first last) as Hq. by destruct Hq. }
  pose proof (Hgen schedule _ ex (Hw : Forall placed (tasks (gather_start _ w _))) Hrun)
    as Hinv.
  simpl in Hinv. rewrite H0 in Hinv. lia.
Qed.

End SemaphoreFacts.

(** Threshold 1 and two permits for three workers: two are admitted, one
    of them falls back and loads the model, the third waits. *)
Lemma semaphore_bounds_in_flight_witness :
  match run_schedule (gather_start (Mock.workers_under Mock.tight) Mock.fresh 2)
          [(0, Mock.granted); (1, Mock.granted); (0, Mock.failed)] with
  | Some ex =>
      count_in_flight (tasks ex) + permits (now ex) = 2 ∧ count_in_flight (tasks ex) ≤ 2
  | None => False
  end.
Proof.
  destruct (run_schedule _ _) as [ex|] eqn:Hrun; [|vm_compute in Hrun; discriminate].
  exact (semaphore_bounds_in_flight Mock.keep Mock.cosine Mock.tight
           ["a"; "b"; "c"] ["a"; "b"] (Mock.fingerprint <$> ["a"; "b"]) true
           [(0, 1); (1, 2); (2, 3)] 2
           [(0, Mock.granted); (1, Mock.granted); (0, Mock.failed)]
           Mock.fresh ex Hrun).
Defined.

(** ** The order of the rows the asynchronous matcher returns *)

Section Alignment.
Context {vec model : Type}.
Context (clean_embedding1 : text → text).
Context (cosine_similarity : @matrix vec → @matrix vec → result (list (list float))).
Local Abbreviation matrix := (@matrix vec).
Local Abbreviation coro := (@coro vec model).
Local Abbreviation world := (@world model).
Local Abbreviation reply := (@reply vec model).
Local Abbreviation resilient :=
  (@compute_embeddings_resilient_async vec model clean_embedding1).
Local Abbreviation worker :=
  (@embed_match_worker vec model clean_embedding1 cosine_similarity).

Lemma yields_bind {A B} (Q : option matrix → A → Prop) (Q' : option matrix → B → Prop)
    held (f : A → coro B) (c : coro A) :
  yields Q held c → (∀ held' a, Q held' a → yields Q' held' (f a)) →
  yields Q' held (coro_bind f c).
Proof. intros Hc Hf. induction Hc; simpl; try constructor; auto. Qed.

Lemma yields_try_except {A} (Q : option matrix → A → Prop) held (body : coro A) handler :
  yields Q held body → (∀ held' e, yields Q held' (handler e)) →
  yields Q held (try_except body handler).
Proof. intros Hc Hf. induction Hc; simpl; try constructor; auto. Qed.

Lemma yields_advance {A} (Q : option matrix → A → Prop) held (c : coro A) (w : world) :
  yields Q held c → yields Q held (fst (advance c w)).
Proof. intros Hc. revert w. induction Hc; intros w; simpl; auto; by constructor. Qed.

Lemma yields_step {A} (Q : option matrix → A → Prop) held (c c' : coro A) r (w w' : world) :
  yields Q held c → step_task c r w = Some (c', w') →
  yields Q (latest held (reply_matrix r)) c'.
Proof.
  intros Hc Hs. destruct Hc; try done. simpl in Hs.
  destruct (grant op w) as [w1|]; [|done]. simpl in Hs.
  assert (∃ c1, resume op k r = Some c1
                ∧ yields Q (latest held (reply_matrix r)) c1) as (c1 & Hr & Hc1).
  { destruct op, r; simpl in *; try done; eexists; (split; [done|]).
    - apply (H r).
    - apply (H r).
    - apply (H r).
    - apply (H (Ok ())).
    - apply (H (Ok ())). }
  rewrite Hr in Hs. simpl in Hs.
  pose proof (yields_advance Q _ c1 w1 Hc1) as Ha.
  destruct (advance c1 w1). by simplify_eq.
Qed.

Lemma local_async_yields cfg texts held :
  yields (returned texts) held
    (compute_embeddings_local_async (vec := vec) (model := model) clean_embedding1
       cfg texts).
Proof.
  unfold compute_embeddings_local_async. case_decide as Hl.
  { constructor. right. split; [|done]. apply nil_length_inv in Hl.
    by apply fmap_nil_inv in Hl. }
  destruct (_chunk_indices _ _) as [slices|e]; cbn.
  - constructor. intros g. destruct (_LOCAL_ST_MODEL g) as [cached|]; cbn.
    + constructor. intros [vecs|e]; constructor. by left.
    + constructor. constructor. intros [loaded|e]; cbn; [|constructor].
      constructor. intros g'. constructor. constructor. constructor.
      intros [vecs|e]; constructor. by left.
  - constructor. intros g. destruct (_LOCAL_ST_MODEL g) as [cached|]; cbn; [constructor|].
    constructor. constructor. intros [loaded|e']; cbn; [|constructor].
    constructor. intros g'. constructor. constructor. constructor.
Qed.

Lemma progress_yields {A} (Q : option matrix → A → Prop) held pc msg (k : coro A) :
  yields Q held k → yields Q held (coro_bind (λ _, k) (progress pc msg)).
Proof. intros Hk. destruct pc; cbn; [by constructor|done]. Qed.

Lemma resilient_yields cfg texts pc held :
  yields (returned texts) held (resilient cfg texts pc).
Proof.
  assert (Hl : ∀ held, yields (returned texts) held
            (compute_embeddings_local_async (vec := vec) (model := model)
               clean_embedding1 cfg texts)) by apply local_async_yields.
  assert (Hapi : ∀ held, yields (returned texts) held
            (_try_api_embeddings (vec := vec) (model := model) texts)).
  { intros h. constructor. intros [m|e]; constructor. by left. }
  unfold compute_embeddings_resilient_async.
  destruct (String.eqb _ "local"); cbn.
  { constructor. intros g. constructor. by apply progress_yields. }
  destruct (String.eqb _ "api"); cbn.
  { constructor. intros g. constructor. by apply progress_yields. }
  destruct (String.eqb _ "off"); cbn.
  { constructor. intros g. by constructor. }
  constructor. intros g. destruct (FALLBACK_ACTIVE g).
  { by apply progress_yields. }
  constructor. intros [vecs|e]; cbn.
  - repeat (constructor; intros).
  - constructor. intros g1. constructor. intros g2. constructor. constructor. intros g3.
    case_decide; [|constructor]. cbn. constructor. intros g4. constructor. constructor.
    by apply progress_yields.
Qed.

Lemma yields_impl {A} (Q Q' : option matrix → A → Prop) held (c : coro A) :
  (∀ h a, Q h a → Q' h a) → yields Q held c → yields Q' held c.
Proof. intros HQ. induction 1; constructor; auto. Qed.

Lemma worker_yields cfg input_list_clean target_list target_embeddings pc first last held :
  yields (batch_of cosine_similarity target_list (slice input_list_clean first last)
            target_embeddings first) held
    (worker cfg input_list_clean target_list target_embeddings pc first last).
Proof.
  unfold embed_match_worker.
  apply (yields_bind (returned (slice input_list_clean first last))).
  - unfold async_with_sem. cbn. constructor. intros [[]|e]; cbn; [|constructor].
    apply yields_try_except.
    + eapply yields_bind; [apply resilient_yields|]. intros held' emb Hemb.
      constructor. by constructor.
    + intros held' e. repeat constructor.
  - intros held' emb Hemb.
    destruct (cosine_similarity emb target_embeddings) as [sim|e] eqn:Hsim; [|constructor].
    destruct (match_rows target_list sim) as [ms|e] eqn:Hms; [|constructor].
    assert (batch_of cosine_similarity target_list (slice input_list_clean first last)
              target_embeddings first held' (first, ms)).
    { split; [done|]. by exists emb, sim. }
    destruct pc; cbn; [constructor|]; by constructor.
Qed.

Lemma last_matrix_snoc (delivered : list (nat * reply)) ev i :
  last_matrix (delivered ++ [ev]) i
  = if decide (ev.1 = i) then latest (last_matrix delivered i) (reply_matrix ev.2)
    else last_matrix delivered i.
Proof. unfold last_matrix. by rewrite foldl_app. Qed.

Lemma tracking_deliver {A} (Q : nat → option matrix → A → Prop) delivered
    (ex ex' : @exec vec model A) ev :
  tracking Q delivered (tasks ex) → deliver ex ev = Some ex' →
  tracking Q (delivered ++ [ev]) (tasks ex').
Proof.
  intros Ht. unfold deliver.
  destruct (tasks ex !! ev.1) as [c|] eqn:Hc; [|done]. simpl.
  destruct (step_task c ev.2 (now ex)) as [[c' w']|] eqn:Hs; [|done]. simpl.
  intros [= <-]. simpl. intros i ci Hi. rewrite last_matrix_snoc.
  destruct (decide (ev.1 = i)) as [<-|Hne].
  - rewrite list_lookup_insert_eq in Hi by (by eapply lookup_lt_Some). simplify_eq.
    eapply yields_step; [|done]. by apply Ht.
  - rewrite list_lookup_insert_ne in Hi by done. by apply Ht.
Qed.

Lemma outcome_cases {A} i (c : coro A) :
  outcome i c = [] ∨ ∃ r, outcome i c = [(i, r)].
Proof. destruct c; simpl; eauto. Qed.

Lemma settled_deliver {A} (ex ex' : @exec vec model A) ev :
  settled ex → deliver ex ev = Some ex' →
  settled ex' ∧ length (tasks ex') = length (tasks ex).
Proof.
  intros [Hnd Hrec]. unfold deliver.
  destruct (tasks ex !! ev.1) as [c|] eqn:Hc; [|done]. simpl.
  destruct (step_task c ev.2 (now ex)) as [[c' w']|] eqn:Hs; [|done]. simpl.
  intros [= <-]. simpl. split; [|by rewrite length_insert].
  assert (Hnew : ev.1 ∉ (finished ex).*1).
  { intros Hin. apply list_elem_of_fmap in Hin as ([i r] & Hi & Hin). simpl in Hi. subst i.
    destruct (Hrec _ _ Hin) as (c0 & Hc0 & Hout). rewrite Hc in Hc0.
    injection Hc0 as <-. by destruct c. }
  unfold settled. simpl. split.
  - rewrite fmap_app. apply NoDup_app. split; [done|]. split.
    + intros i Hi Hi'. destruct (outcome_cases ev.1 c') as [Ho|[r Ho]]; rewrite Ho in Hi'.
      * by apply elem_of_nil in Hi'.
      * apply list_elem_of_singleton in Hi'. simpl in Hi'. by subst i.
    + destruct (outcome_cases ev.1 c') as [->|[r ->]]; [constructor|apply NoDup_singleton].
  - intros i r Hin. apply elem_of_app in Hin as [Hin|Hin].
    + destruct (Hrec _ _ Hin) as (c0 & Hc0 & Hout). exists c0. split; [|done].
      rewrite list_lookup_insert_ne; [done|]. intros Heq. apply Hnew. rewrite Heq.
      apply list_elem_of_fmap. by exists (i, r).
    + destruct (outcome_cases ev.1 c') as [Ho|[r' Ho]]; rewrite Ho in Hin.
      * by apply elem_of_nil in Hin.
      * apply list_elem_of_singleton in Hin. simplify_eq. exists c'. split; [|done].
        apply list_lookup_insert_eq. by eapply lookup_lt_Some.
Qed.

(** Under every schedule the tasks keep returning what they may, given what
    was delivered to each, and the record of the finished tasks stays in
    order. *)
Lemma tracking_run_schedule {A} (Q : nat → option matrix → A → Prop) deliveries delivered
    (ex ex' : @exec vec model A) :
  tracking Q delivered (tasks ex) → settled ex →
  run_schedule ex deliveries = Some ex' →
  tracking Q (delivered ++ deliveries) (tasks ex') ∧ settled ex'
  ∧ length (tasks ex') = length (tasks ex).
Proof.
  revert delivered ex. induction deliveries as [|ev deliveries IH]; intros delivered ex Ht Hs;
    simpl.
  - intros [= <-]. by rewrite (right_id_L [] (++)).
  - destruct (deliver ex ev) as [ex1|] eqn:Hd; [|done]. simpl. intros Hrun.
    destruct (settled_deliver _ _ _ Hs Hd) as [Hs1 Hl1].
    pose proof (tracking_deliver Q delivered _ _ _ Ht Hd) as Ht1.
    destruct (IH (delivered ++ [ev]) ex1 Ht1 Hs1 Hrun) as (Ht2 & Hs2 & Hl2).
    rewrite <- (assoc_L (++)) in Ht2. simpl in Ht2. split; [done|]. split; [done|].
    congruence.
Qed.

Lemma yields_run_suspended {A} (Q : option matrix → A → Prop) held replies (c : coro A)
    (w w' : world) a :
  yields Q held c → run_suspended c w replies = Some (Ok a, w') →
  ∃ held', Q held' a
           ∧ (held' = held ∨ ∃ m, held' = Some m ∧ ReplyMatrix (Ok m) ∈ replies).
Proof.
  revert held c w. induction replies as [|r replies IH]; intros held c w Hc.
  - destruct Hc; simpl; try done. intros [= <- _]. eauto.
  - destruct (step_task c r w) as [[c1 w1]|] eqn:Hs.
    + pose proof (yields_step Q _ _ _ _ _ _ Hc Hs) as Hc1.
      destruct Hc; simpl in *; try done. rewrite Hs. simpl. intros Hrun.
      destruct (IH _ _ _ Hc1 Hrun) as (held' & HQ & Hh). exists held'. split; [done|].
      destruct Hh as [->|(m & -> & Hm)].
      * destruct r as [[m|e]| |]; simpl; eauto. right. exists m. split; [done|]. left.
      * right. exists m. split; [done|]. by right.
    + destruct Hc; simpl in *; try done.
      * intros [= <- _]. eauto.
      * by rewrite Hs.
Qed.

Lemma yields_run_alone {A} (Q : option matrix → A → Prop) held replies (c : coro A)
    (w w' : world) a :
  yields Q held c → run_alone c w replies = Some (Ok a, w') →
  ∃ held', Q held' a
           ∧ (held' = held ∨ ∃ m, held' = Some m ∧ ReplyMatrix (Ok m) ∈ replies).
Proof.
  intros Hc. unfold run_alone. pose proof (yields_advance Q held c w Hc) as Ha.
  destruct (advance c w) as [c1 w1]. by apply yields_run_suspended.
Qed.

Lemma first_raise_none {A} (fin : list (nat * result A)) :
  first_raise fin = None → Forall (λ f, ∃ a, f.2 = Ok a) fin.
Proof.
  induction fin as [|[i [a|e]] fin IH]; simpl; [constructor| |done].
  intros H. constructor; [by exists a|by apply IH].
Qed.

(** When [gather] returns, every task has ended with a value, and the
    values are recorded in the order in which the tasks ended. *)
Lemma gathered {A} (ex : @exec vec model A) :
  settled ex → length (finished ex) = length (tasks ex) →
  first_raise (finished ex) = None →
  ∃ ended values,
    snd <$> finished ex = Ok <$> ended
    ∧ ended ≡ₚ values
    ∧ Forall2 (λ i a, tasks ex !! i = Some (Ret a)) (seq 0 (length (tasks ex))) values.
Proof.
  intros [Hnd Hrec] Hlen Hraise. apply first_raise_none in Hraise.
  set (ret_at := λ i, tasks ex !! i ≫= ret_of).
  assert (Hfin : Forall (λ f, ∃ a, f.2 = Ok a ∧ tasks ex !! f.1 = Some (Ret a))
                   (finished ex)).
  { apply Forall_forall. intros [i r] Hin. rewrite Forall_forall in Hraise.
    destruct (Hraise _ Hin) as [a Ha]. simpl in Ha. subst r. exists a. split; [done|].
    destruct (Hrec _ _ Hin) as (c & Hc & Hout). simpl. rewrite Hc.
    destruct c; simpl in Hout; by simplify_eq. }
  assert (Hperm : (finished ex).*1 ≡ₚ seq 0 (length (tasks ex))).
  { apply submseteq_length_Permutation.
    - apply NoDup_submseteq; [done|]. intros i Hi.
      apply list_elem_of_fmap in Hi as ([i' r] & -> & Hin).
      destruct (Hrec _ _ Hin) as (c & Hc & _). apply elem_of_seq. simpl.
      apply lookup_lt_Some in Hc. lia.
    - by rewrite length_seq, length_fmap, Hlen. }
  exists (omap ret_at (finished ex).*1), (omap ret_at (seq 0 (length (tasks ex)))).
  split; [|split].
  - clear -Hfin. induction Hfin as [|[i r] fin (a & Ha & Hc) _ IH]; [done|].
    simpl in *. subst r. unfold ret_at at 1. rewrite Hc. simpl. by f_equal.
  - by rewrite Hperm.
  - assert (Hall : Forall (λ i, ∃ a, tasks ex !! i = Some (Ret a))
                     (seq 0 (length (tasks ex)))).
    { apply Forall_forall. intros i Hi. rewrite <- Hperm in Hi.
      apply list_elem_of_fmap in Hi as ([i' r] & -> & Hin). rewrite Forall_forall in Hfin.
      destruct (Hfin _ Hin) as (a & _ & Ha). eauto. }
    clear -Hall. induction Hall as [|i l [a Ha] _ IH]; [constructor|].
    simpl. unfold ret_at at 1. rewrite Ha. simpl. by constructor.
Qed.

Lemma collect_matches_ok (kvs : list batch) results :
  collect_matches (Ok <$> kvs) results
  = Ok (foldl (λ m kv, <[kv.1 := kv.2]> m) results kvs).
Proof.
  revert results. induction kvs as [|[k v] kvs IH]; intros m; simpl; [done|apply IH].
Qed.

Lemma assemble_matches_list_to_map (kvs : list (nat * (list text * list float))) :
  StronglySorted lt kvs.*1 →
  assemble_matches (list_to_map kvs) = (concat kvs.*2.*1, concat kvs.*2.*2).
Proof.
  intros Hs. unfold assemble_matches. rewrite sorted_keys_list_to_map by done.
  rewrite lookups_list_to_map; [done|]. by apply ascending_NoDup.
Qed.

Lemma slice_nonempty {A} (l : list A) s e : s < e ≤ length l → slice l s e ≠ [].
Proof.
  intros Hse Hnil. apply (f_equal length) in Hnil. unfold slice in Hnil.
  rewrite length_take, length_drop in Hnil. simpl in Hnil. lia.
Qed.

Lemma Forall2_split3 {X U V Y} (P : X → U → Prop) (R : U → V → Prop) (S : V → Y → Prop)
    (l : list X) (k : list Y) :
  Forall2 (λ x y, ∃ u v, P x u ∧ R u v ∧ S v y) l k →
  ∃ us vs, Forall2 P l us ∧ Forall2 R us vs ∧ Forall2 S vs k.
Proof.
  induction 1 as [|x y l k (u & v & HP & HR & HS) _ (us & vs & IH1 & IH2 & IH3)].
  - exists [], []. by repeat constructor.
  - exists (u :: us), (v :: vs). by repeat constructor.
Qed.

(** What the asynchronous matcher returns, and from what. *)
Lemma run_embed_match_async_rows cfg replies_targets schedule input_list target_list
    batch_size max_concurrency pc clean_input clean_target (w w' : world) matches scores :
  run_embed_match_async clean_embedding1 cosine_similarity cfg replies_targets schedule
    input_list target_list batch_size max_concurrency pc clean_input clean_target w
  = Some (Ok (matches, scores), w') →
  let input_list_clean :=
    if clean_input then clean_text_for_embedding clean_embedding1 input_list
    else input_list in
  let target_list_clean :=
    if clean_target then clean_text_for_embedding clean_embedding1 target_list
    else target_list in
  let input_slices := chunks (length input_list_clean) (batch_size `min` 1024) in
  ∃ target_embeddings w1 embs sims per_batch,
    run_alone (target_request clean_embedding1 cfg target_list_clean pc) w replies_targets
    = Some (Ok target_embeddings, w1)
    ∧ (ReplyMatrix (Ok target_embeddings) ∈ replies_targets
       ∨ (target_list_clean = [] ∧ target_embeddings = []))
    ∧ Forall2 (λ i emb, last_matrix schedule i = Some emb)
        (seq 0 (length input_slices)) embs
    ∧ Forall2 (λ emb sim, cosine_similarity emb target_embeddings = Ok sim) embs sims
    ∧ Forall2 (λ sim ms, match_rows target_list sim = Ok ms) sims per_batch
    ∧ matches = concat per_batch.*1
    ∧ scores = concat per_batch.*2.
Proof.
  unfold run_embed_match_async. intros Hrun. cbn zeta.
  set (input_list_clean :=
         if clean_input then clean_text_for_embedding clean_embedding1 input_list
         else input_list) in *.
  set (target_list_clean :=
         if clean_target then clean_text_for_embedding clean_embedding1 target_list
         else target_list) in *.
  destruct (run_alone _ w replies_targets) as [[[T|e] w1]|] eqn:Htargets;
    simpl in Hrun; try done.
  destruct (_chunk_indices _ _) as [input_slices|e] eqn:Hch; [|done].
  assert (Hb : batch_size `min` 1024 ≠ 0).
  { intros Hb. unfold _chunk_indices in Hch. by rewrite decide_True in Hch by done. }
  rewrite _chunk_indices_chunks in Hch by done. injection Hch as <-.
  set (input_slices := chunks (length input_list_clean) (batch_size `min` 1024)) in *.
  match type of Hrun with context [run_schedule ?e schedule] => set (ex0 := e) in * end.
  destruct (run_schedule ex0 schedule) as [ex|] eqn:Hsched; simpl in Hrun; [|done].
  destruct (first_raise (finished ex)) eqn:Hraise; [done|].
  case_decide as Hlen; [|done].
  destruct (collect_matches _ ∅) as [results|e] eqn:Hcol; [|done].
  assert (Hres : assemble_matches results = (matches, scores)) by congruence.
  clear Hrun.
  (* the target embeddings *)
  assert (HT : ReplyMatrix (Ok T) ∈ replies_targets ∨ (target_list_clean = [] ∧ T = [])).
  { destruct (yields_run_alone (returned target_list_clean) None _ _ _ _ _
                (progress_yields _ None pc _ _ (resilient_yields cfg target_list_clean pc None))
                Htargets) as (held & [Hh|Hh] & Hfrom); [|by right].
    destruct Hfrom as [->|(m & -> & Hm)]; [done|]. left. by simplify_eq. }
  (* the workers under the schedule *)
  set (Q := λ (i : nat) (held : option matrix) (b : batch),
         ∃ s e, input_slices !! i = Some (s, e)
                ∧ batch_of cosine_similarity target_list (slice input_list_clean s e)
                    T s held b).
  assert (Ht0 : tracking Q [] (tasks ex0)).
  { intros i c Hi. simpl in Hi. rewrite list_lookup_fmap in Hi.
    destruct (input_slices !! i) as [[s e]|] eqn:Hse; [|done]. simpl in Hi.
    injection Hi as <-. eapply yields_impl; [|apply worker_yields].
    intros held b Hbatch. by exists s, e. }
  assert (Hs0 : settled ex0).
  { split; [constructor|]. intros i r Hin. by apply elem_of_nil in Hin. }
  destruct (tracking_run_schedule Q schedule [] ex0 ex Ht0 Hs0 Hsched) as (Ht & Hs & Hl).
  simpl in Ht. rewrite length_fmap in Hlen.
  assert (Hn : length (tasks ex) = length input_slices).
  { rewrite Hl. simpl. by rewrite length_fmap. }
  destruct (gathered ex Hs) as (ended & values & Hended & Hperm & Hvalues);
    [congruence|done|].
  rewrite Hn in Hvalues. unfold batch in *.
  assert (Hbatches : Forall2 (λ i b, Q i (last_matrix schedule i) b)
                       (seq 0 (length input_slices)) values).
  { eapply Forall2_impl; [done|]. intros i b Hi. specialize (Ht i _ Hi).
    by inversion Ht. }
  (* the starts of the values are the starts of the slices *)
  assert (Hstarts : values.*1 = input_slices.*1).
  { apply list_eq. intros i. rewrite !list_lookup_fmap.
    destruct (decide (i < length input_slices)) as [Hi|Hi].
    - destruct (Forall2_lookup_l _ _ _ i i Hbatches) as (b & Hvb & Hb').
      { apply lookup_seq. split; [done|lia]. }
      destruct Hb' as (s & e & Hse & [Hb1 _]).
      rewrite Hvb, Hse. simpl. by rewrite Hb1.
    - rewrite (lookup_ge_None_2 values), (lookup_ge_None_2 input_slices); [done|lia|].
      apply Forall2_length in Hbatches. rewrite length_seq in Hbatches. lia. }
  assert (Hsorted : StronglySorted lt values.*1).
  { rewrite Hstarts. by apply chunks_starts_ascending. }
  (* the dict and its assembly *)
  rewrite Hended, collect_matches_ok, foldl_insert_union, (right_id_L ∅ (∪)) in Hcol.
  injection Hcol as <-.
  assert (Hmap : (list_to_map (reverse ended) : gmap nat (list text * list float))
                 = list_to_map values).
  { apply list_to_map_proper.
    - rewrite reverse_Permutation, Hperm. by apply ascending_NoDup.
    - by rewrite reverse_Permutation. }
  rewrite Hmap, assemble_matches_list_to_map in Hres by done.
  injection Hres as <- <-.
  (* the matrices, the similarity rows and the batches *)
  assert (Hsplit : Forall2 (λ i (ms : list text * list float), ∃ emb sim,
                      last_matrix schedule i = Some emb
                      ∧ cosine_similarity emb T = Ok sim
                      ∧ match_rows target_list sim = Ok ms)
                     (seq 0 (length input_slices)) values.*2).
  { apply Forall2_fmap_r. eapply Forall2_impl; [done|].
    intros i b (s & e & Hse & _ & emb & sim & Hret & Hsim & Hms).
    exists emb, sim. split; [|done]. destruct Hret as [?|[Hnil _]]; [done|].
    exfalso. revert Hnil. apply slice_nonempty.
    pose proof (chunks_bounds (length input_list_clean) (batch_size `min` 1024) Hb) as Hbd.
    rewrite Forall_forall in Hbd. apply (Hbd (s, e)). by eapply list_elem_of_lookup_2. }
  apply Forall2_split3 in Hsplit as (embs & sims & H1 & H2 & H3).
  exists T, w1, embs, sims, values.*2. done.
Qed.

(** The asynchronous matcher keeps the rows in the order of the inputs,
    whatever the schedule of its workers: when it returns, its labels and
    scores are, slice after slice in the order of the slices, the labels and
    scores of the similarity rows of the matrix that was delivered last to
    the worker of that slice (the answer of the remote call, or of the local
    encoding after a fallback) against the target embeddings the run
    obtained. *)
Theorem run_embed_match_async_aligned cfg replies_targets schedule input_list target_list
    batch_size max_concurrency pc clean_input clean_target (w w' : world) matches scores :
  run_embed_match_async clean_embedding1 cosine_similarity cfg replies_targets schedule
    input_list target_list batch_size max_concurrency pc clean_input clean_target w
  = Some (Ok (matches, scores), w') →
  let input_list_clean :=
    if clean_input then clean_text_for_embedding clean_embedding1 input_list
    else input_list in
  let target_list_clean :=
    if clean_target then clean_text_for_embedding clean_embedding1 target_list
    else target_list in
  let input_slices := chunks (length input_list_clean) (batch_size `min` 1024) in
  ∃ target_embeddings embs sims per_batch,
    (ReplyMatrix (Ok target_embeddings) ∈ replies_targets
     ∨ (target_list_clean = [] ∧ target_embeddings = []))
    ∧ Forall2 (λ i emb, last_matrix schedule i = Some emb)
        (seq 0 (length input_slices)) embs
    ∧ Forall2 (λ emb sim, cosine_similarity emb target_embeddings = Ok sim) embs sims
    ∧ Forall2 (λ sim ms, match_rows target_list sim = Ok ms) sims per_batch
    ∧ matches = concat per_batch.*1
    ∧ scores = concat per_batch.*2.
Proof.
  intros Hrun.
  destruct (run_embed_match_async_rows _ _ _ _ _ _ _ _ _ _ _ _ _ _ Hrun)
    as (T & w1 & embs & sims & per_batch & _ & H).
  by exists T, embs, sims, per_batch.
Qed.

End Alignment.

(** Three inputs in batches of one under two permits; the second worker
    ends first. *)
Lemma run_embed_match_async_aligned_witness :
  ∃ target_embeddings embs sims per_batch,
    (ReplyMatrix (Ok target_embeddings) ∈ [Mock.embedded ["x"; "y"]]
     ∨ (["x"; "y"] = [] ∧ target_embeddings = []))
    ∧ Forall2 (λ i emb,
                 last_matrix
                   [(0, Mock.granted); (1, Mock.granted); (1, Mock.embedded ["y"]);
                    (0, Mock.embedded ["x"]); (2, Mock.granted); (2, Mock.embedded ["x"])]
                   i = Some emb)
        [0; 1; 2] embs
    ∧ Forall2 (λ emb sim, Mock.cosine emb target_embeddings = Ok sim) embs sims
    ∧ Forall2 (λ sim ms, match_rows ["x"; "y"] sim = Ok ms) sims per_batch
    ∧ ["x"; "y"; "x"] = concat per_batch.*1
    ∧ [1%float; 1%float; 1%float] = concat per_batch.*2.
Proof.
  exact (run_embed_match_async_aligned Mock.keep Mock.cosine Mock.tight
           [Mock.embedded ["x"; "y"]]
           [(0, Mock.granted); (1, Mock.granted); (1, Mock.embedded ["y"]);
            (0, Mock.embedded ["x"]); (2, Mock.granted); (2, Mock.embedded ["x"])]
           ["x"; "y"; "x"] ["x"; "y"] 1 2 true false false Mock.fresh
           {| globals := initial_globals;
              notices :=
                [Progress "Computing target embeddings (async concurrent)...";
                 Progress "Computing input embeddings (async concurrent)...";
                 Progress "Matching"; Progress "Matching"; Progress "Matching";
                 Progress "Finalizing results..."];
              permits := 2 |}
           ["x"; "y"; "x"] [1%float; 1%float; 1%float]
           ltac:(vm_compute; reflexivity)).
Defined.

(** ** What the fallback can and cannot do for a run *)

Section Untripped.
Context {vec model : Type}.
Context (clean_embedding1 clean_simple1 : text → text).
Context (cosine_similarity : @matrix vec → @matrix vec → result (list (list float))).
Local Abbreviation matrix := (@matrix vec).
Local Abbreviation coro := (@coro vec model).
Local Abbreviation world := (@world model).
Local Abbreviation resilient :=
  (@compute_embeddings_resilient_async vec model clean_embedding1).
Local Abbreviation worker :=
  (@embed_match_worker vec model clean_embedding1 cosine_similarity).

Lemma untripped_intro {A B} (J : world → Prop) (op : @io vec model B)
    (k : result B → coro A) :
  (∀ r w w1 c1, J w → grant op w = Some w1 → resume op k r = Some c1 →
     raised (fst (advance c1 w1)) = false →
     J (snd (advance c1 w1)) ∧ untripped J (fst (advance c1 w1))) →
  untripped J (Await op k).
Proof. intros H. constructor; intros r w w1 c1 ????; by edestruct H. Qed.

Lemma quiet_progress n m (w : world) msg :
  quiet n m w →
  quiet n m {| globals := globals w; notices := notices w ++ [Progress msg];
               permits := permits w |}.
Proof.
  intros (?&?&?&?). repeat split; try done. simpl. rewrite fallback_notices_app.
  change (fallback_notices [Progress msg]) with 0. lia.
Qed.

(** In auto mode under a threshold of two or more, a remote failure that
    finds the counter at 0 is raised: the request of a worker either ends in
    an exception or leaves the circuit closed and untouched. *)
Lemma worker_untripped cfg input_list_clean target_list target_embeddings pc first last
    n m :
  MODEL_FALLBACK_MODE cfg = "auto" → (2 ≤ API_MAX_FAILURES cfg)%Z →
  untripped (quiet n m)
    (worker cfg input_list_clean target_list target_embeddings pc first last).
Proof.
  intros Hm Hthr. unfold embed_match_worker, async_with_sem. cbn.
  apply untripped_intro. intros r w w1 c1 HJ Hg Hr _.
  destruct r; try done. simpl in Hr. injection Hr as <-.
  simpl in Hg. destruct (permits w) as [|p]; [done|]. injection Hg as <-.
  destruct HJ as (Hc & Hf & Hn & Hmod).
  unfold compute_embeddings_resilient_async. rewrite Hm. cbn. rewrite Hf. cbn.
  split; [done|].
  apply untripped_intro. clear w Hc Hf Hn Hmod p. intros r w w1 c1 HJ Hg Hr Hnr.
  simpl in Hg. injection Hg as <-.
  destruct r as [res| |]; try done. simpl in Hr. injection Hr as <-.
  destruct HJ as (Hc & Hf & Hn & Hmod).
  destruct res as [vecs|e]; cbn -[fallback_notices] in *.
  - destruct (cosine_similarity vecs target_embeddings) as [sim|e];
      cbn -[fallback_notices] in *; [|done].
    destruct (match_rows target_list sim) as [ms|e]; cbn -[fallback_notices] in *; [|done].
    destruct pc; cbn -[fallback_notices] in *.
    + split; [|constructor]. repeat split; try done. simpl.
      rewrite fallback_notices_app. change (fallback_notices [_]) with 0. lia.
    + split; [|constructor]. by repeat split.
  - rewrite Hc in Hnr. rewrite Hc. case_decide; [lia|]. done.
Qed.

(** The request for the target embeddings, run from a quiet world. *)
Lemma target_request_quiet cfg texts pc n m (w : world) :
  MODEL_FALLBACK_MODE cfg = "auto" → (2 ≤ API_MAX_FAILURES cfg)%Z →
  quiet n m w →
  let c := coro_bind (λ _, resilient cfg texts pc)
             (progress pc "Computing target embeddings (async concurrent)...") in
  quiet n m (snd (advance c w)) ∧ untripped (quiet n m) (fst (advance c w)).
Proof.
  intros Hm Hthr HJ.
  assert (Hgen : ∀ w : world, quiet n m w →
            quiet n m (snd (advance (resilient cfg texts pc) w))
            ∧ untripped (quiet n m) (fst (advance (resilient cfg texts pc) w))).
  { clear w HJ. intros w (Hc & Hf & Hn & Hmod).
    unfold compute_embeddings_resilient_async. rewrite Hm. cbn. rewrite Hf. cbn.
    split; [done|]. apply untripped_intro. clear w Hc Hf Hn Hmod.
    intros r w w1 c1 (Hc & Hf & Hn & Hmod) Hg Hr Hnr.
    simpl in Hg. injection Hg as <-.
    destruct r as [res| |]; try done. simpl in Hr. injection Hr as <-.
    destruct res as [vecs|e]; cbn -[fallback_notices] in *.
    - split; [|constructor]. by repeat split.
    - rewrite Hc in Hnr. rewrite Hc. case_decide; [lia|]. done. }
  destruct pc; cbn -[fallback_notices].
  - apply Hgen. by apply quiet_progress.
  - by apply Hgen.
Qed.

Lemma untripped_run_suspended {A} (J : world → Prop) replies (c : coro A) (w w' : world) a :
  untripped J c → J w → run_suspended c w replies = Some (Ok a, w') → J w'.
Proof.
  revert c w. induction replies as [|r replies IH]; intros c w Hc HJ.
  - destruct Hc; simpl; try done. by intros [= _ <-].
  - destruct Hc as [a0|e|B op k H1 H2]; simpl; [by intros [= _ <-]|done|].
    destruct (grant op w) as [w1|] eqn:Hg; [|done]. simpl.
    destruct (resume op k r) as [c1|] eqn:Hr; [|done]. simpl.
    specialize (H1 _ _ _ _ HJ Hg Hr). specialize (H2 _ _ _ _ HJ Hg Hr).
    destruct (advance c1 w1) as [c' w1'] eqn:Hadv. simpl in *.
    destruct (raised c') eqn:Hraised.
    + destruct c'; try done. destruct replies; simpl; done.
    + apply IH; auto.
Qed.

(** The loop of the workers: either a task has ended in an exception, or
    the world is as [J] says and every task is untripped. *)
Lemma untripped_run_schedule {A} (J : world → Prop) deliveries (ex ex' : @exec vec model A) :
  J (now ex) → Forall (untripped J) (tasks ex) →
  run_schedule ex deliveries = Some ex' →
  first_raise (finished ex') = None →
  J (now ex').
Proof.
  assert (Hmono : ∀ deliveries (ex ex' : @exec vec model A),
            run_schedule ex deliveries = Some ex' →
            first_raise (finished ex) ≠ None → first_raise (finished ex') ≠ None).
  { clear. intros deliveries. induction deliveries as [|ev deliveries IH]; intros ex ex'; simpl.
    - by intros [= <-].
    - unfold deliver at 1. destruct (tasks ex !! ev.1) as [c|]; [|done]. simpl.
      destruct (step_task c ev.2 (now ex)) as [[c' w']|]; [|done]. simpl.
      intros Hrun Hr. apply (IH _ _ Hrun). simpl. clear -Hr.
      induction (finished ex) as [|[i [a|e]] fin IHf]; simpl in *; [done|auto|done]. }
  revert ex. induction deliveries as [|ev deliveries IH]; intros ex HJ Ht; simpl.
  - by intros [= <-].
  - destruct (deliver ex ev) as [ex1|] eqn:Hd; [|done]. simpl. intros Hrun Hnone.
    unfold deliver in Hd.
    destruct (tasks ex !! ev.1) as [c|] eqn:Hc; [|done]. simpl in Hd.
    destruct (step_task c ev.2 (now ex)) as [[c' w']|] eqn:Hs; [|done]. simpl in Hd.
    injection Hd as <-.
    assert (Hcu : untripped J c) by (eapply Forall_lookup_1; done).
    destruct Hcu as [a0|e|B op k H1 H2]; try done. simpl in Hs.
    destruct (grant op (now ex)) as [w1|] eqn:Hg; [|done]. simpl in Hs.
    destruct (resume op k ev.2) as [c1|] eqn:Hr; [|done]. simpl in Hs.
    specialize (H1 _ _ _ _ HJ Hg Hr). specialize (H2 _ _ _ _ HJ Hg Hr).
    injection Hs as Hs. rewrite Hs in H1, H2. simpl in *.
    destruct (raised c') eqn:Hraised.
    + exfalso. revert Hnone. apply (Hmono _ _ _ Hrun). simpl. destruct c'; try done.
      simpl. clear. induction (finished ex) as [|[i [a|e0]] fin IHf]; simpl; done.
    + apply (IH {| tasks := <[ev.1:=c']> (tasks ex); now := w';
                   finished := finished ex ++ outcome ev.1 c' |}); [by apply H1| |done..].
      simpl. apply Forall_insert; auto.
Qed.

(** A run of the asynchronous matcher that starts quiet and returns a
    result ends quiet. *)
Lemma quiet_matcher_run cfg replies_targets schedule input_list target_list
    batch_size max_concurrency pc clean_input clean_target (w w' : world) res :
  MODEL_FALLBACK_MODE cfg = "auto" →
  (2 ≤ API_MAX_FAILURES cfg)%Z →
  _API_FAILURES (globals w) = 0%Z →
  FALLBACK_ACTIVE (globals w) = false →
  run_embed_match_async clean_embedding1 cosine_similarity cfg replies_targets schedule
    input_list target_list batch_size max_concurrency pc clean_input clean_target w
  = Some (Ok res, w') →
  _API_FAILURES (globals w') = 0%Z
  ∧ FALLBACK_ACTIVE (globals w') = false
  ∧ fallback_notices (notices w') = fallback_notices (notices w)
  ∧ _LOCAL_ST_MODEL (globals w') = _LOCAL_ST_MODEL (globals w).
Proof.
  intros Hm Hthr Hc Hf. unfold run_embed_match_async.
  set (J := quiet (fallback_notices (notices w)) (_LOCAL_ST_MODEL (globals w))).
  assert (HJ : J w) by done.
  match goal with |- context [run_alone ?c w replies_targets] =>
    pose proof (target_request_quiet cfg
                  (if clean_target then clean_text_for_embedding clean_embedding1 target_list
                   else target_list) pc _ _ w Hm Hthr HJ) as [HJ0 Hu0];
    destruct (run_alone c w replies_targets) as [[[T|e] w1]|] eqn:Htargets
  end; simpl; try done.
  assert (HJ1 : J w1).
  { unfold run_alone in Htargets.
    destruct (advance _ w) as [c0 w0] eqn:Hadv. simpl in *.
    by eapply untripped_run_suspended. }
  destruct (_chunk_indices _ _) as [input_slices|e]; [|done].
  match goal with |- context [run_schedule ?e schedule] => set (ex0 := e) end.
  destruct (run_schedule ex0 schedule) as [ex|] eqn:Hsched; simpl; [|done].
  destruct (first_raise (finished ex)) eqn:Hraise; [done|].
  case_decide; [|done].
  destruct (collect_matches _ ∅); [|done]. intros [= _ <-].
  assert (HJ2 : J (now ex)).
  { apply (untripped_run_schedule J schedule ex0 ex); [| |done..].
    - subst ex0. simpl. destruct pc; cbn -[fallback_notices]; [|done].
      destruct HJ1 as (?&?&?&?). repeat split; try done. simpl.
      rewrite fallback_notices_app. change (fallback_notices [_]) with 0. lia.
    - subst ex0. simpl. apply Forall_fmap, Forall_forall. intros [s e] _.
      by apply worker_untripped. }
  destruct pc; cbn -[fallback_notices]; [|done].
  destruct HJ2 as (?&?&?&?). repeat split; try done. simpl.
  rewrite fallback_notices_app. change (fallback_notices [_]) with 0. lia.
Qed.

(** The start of a run in auto mode, when it gets to the matcher. *)
Lemma run_matching_start_quiet cfg rq (w w1 : world) replies prepared :
  MODEL_FALLBACK_MODE cfg = "auto" →
  run_alone (run_matching_start (vec := vec) clean_simple1 cfg rq) w replies
  = Some (Ok (Some prepared), w1) →
  quiet (fallback_notices (notices w)) (_LOCAL_ST_MODEL (globals w)) w1.
Proof.
  intros Hm. unfold run_matching_start, run_alone. rewrite Hm.
  destruct (in_df_empty rq || tgt_df_empty rq); [by destruct replies|].
  destruct (negb (truthy (Some (in_col rq))) || negb (truthy (Some (tgt_col rq))));
    [by destruct replies|].
  destruct (negb (truthy (api_key rq))); [by destruct replies|].
  cbn -[fallback_notices].
  destruct replies as [|[]]; cbn -[fallback_notices]; try done.
  destruct replies as [|[]]; cbn -[fallback_notices]; try done.
  destruct replies; cbn -[fallback_notices]; by intros [= _ <-].
Qed.

(** In auto mode under a threshold of two or more (the default is three),
    the fallback never rescues a run that has the process to itself, as
    [run_matching] has it: no request of an earlier run is still in flight
    and no other session is at work. Every remote failure of such a run
    finds the counter at 0, as the start of the run or a success of the run
    left it, so it is raised and fails the run. Such a run, when it stores a
    results table, therefore never used the local back end, whatever the
    globals held when it started: when it ends the counter is 0 and the flag
    is cleared, it has shown no fallback notification and the model cache is
    as it was. Requests that another run left in flight can raise the
    counter in between; the statement does not cover them. *)
Theorem fallback_never_rescues_a_run cfg rq out (w w' : world) rows :
  MODEL_FALLBACK_MODE cfg = "auto" →
  (2 ≤ API_MAX_FAILURES cfg)%Z →
  run_matching clean_embedding1 clean_simple1 cosine_similarity cfg rq out w
  = Some (Ok (Some rows), w') →
  _API_FAILURES (globals w') = 0%Z
  ∧ FALLBACK_ACTIVE (globals w') = false
  ∧ fallback_notices (notices w') = fallback_notices (notices w)
  ∧ _LOCAL_ST_MODEL (globals w') = _LOCAL_ST_MODEL (globals w).
Proof.
  intros Hm Hthr. unfold run_matching.
  destruct (run_alone _ w (replies_start out)) as [[[[prepared|]|e] w1]|] eqn:Hstart;
    simpl; try done.
  apply run_matching_start_quiet in Hstart as HJ1; [|done].
  destruct (batches_total cfg prepared) as [total|e]; [|done].
  destruct (USE_ASYNC cfg).
  - destruct (run_embed_match_async _ _ _ _ _ _ _ _ _ _ _ _ w1)
      as [[[res|e] w2]|] eqn:Hmatch; simpl; try done.
    destruct (run_matching_results _ _ _ res); simpl; [|done]. intros [= _ <-].
    destruct HJ1 as (H1 & H2 & H3 & H4).
    destruct (quiet_matcher_run _ _ _ _ _ _ _ _ _ _ _ _ _ Hm Hthr H1 H2 Hmatch)
      as (?&?&?&?).
    repeat split; congruence.
  - simpl. destruct (run_embed_match _ _ _ _ _ _ _ _ _ _ _ _) as [res|e]; simpl; [|done].
    destruct (run_matching_results _ _ _ res); simpl; [|done]. by intros [= _ <-].
Qed.

End Untripped.

(** A run whose remote calls are all answered, started in the world a
    tripped circuit left. *)
Lemma fallback_never_rescues_a_run_witness :
  match run_matching Mock.keep Mock.keep Mock.cosine Mock.patient
          Mock.request Mock.healthy Mock.tripped with
  | Some (Ok (Some rows), w') =>
      _API_FAILURES (globals w') = 0%Z
      ∧ FALLBACK_ACTIVE (globals w') = false
      ∧ fallback_notices (notices w') = 0
      ∧ _LOCAL_ST_MODEL (globals w') = None
  | _ => False
  end.
Proof.
  destruct (run_matching _ _ _ _ _ _ _) as [[[[rows|]|e] w']|] eqn:Hrun;
    try (vm_compute in Hrun; discriminate).
  exact (fallback_never_rescues_a_run Mock.keep Mock.keep Mock.cosine Mock.patient
           Mock.request Mock.healthy Mock.tripped w' rows eq_refl ltac:(simpl; lia) Hrun).
Defined.

(** ** The best match *)

Section Argmax.

Lemma SFcompare_key (x y : spec_float) :
  x ≠ S754_nan → y ≠ S754_nan →
  match SFcompare x y with
  | Some Lt => key_lt (float_key x) (float_key y)
  | Some Eq => float_key x = float_key y
  | Some Gt => key_lt (float_key y) (float_key x)
  | None => False
  end.
Proof.
  intros Hx Hy. unfold key_lt.
  destruct x as [sx|sx| |sx mx ex], y as [sy|sy| |sy my ey]; try done;
    try (destruct sx; simpl; try done; lia);
    try (destruct sy; simpl; try done; lia);
    try (destruct sx, sy; simpl; try done; lia).
  destruct sx, sy; simpl; try lia.
  - destruct (Z.compare_spec ex ey); simpl; try lia.
    rewrite Pos.compare_cont_spec. simpl. subst.
    destruct (Pos.compare_spec mx my); simpl; try lia. by subst.
  - destruct (Z.compare_spec ex ey); simpl; try lia.
    rewrite Pos.compare_cont_spec. simpl. subst.
    destruct (Pos.compare_spec mx my); simpl; try lia. by subst.
Qed.

Lemma not_nan_Prim2SF (x : float) : PrimFloat.is_nan x = false → Prim2SF x ≠ S754_nan.
Proof. intros Hn Hx. apply is_nan_Prim2SF in Hx. congruence. Qed.

Lemma ltb_key (x y : float) :
  PrimFloat.is_nan x = false → PrimFloat.is_nan y = false →
  PrimFloat.ltb x y = true ↔ key_lt (float_key (Prim2SF x)) (float_key (Prim2SF y)).
Proof.
  intros Hx%not_nan_Prim2SF Hy%not_nan_Prim2SF. rewrite FloatAxioms.ltb_spec.
  pose proof (SFcompare_key _ _ Hx Hy) as Hk. unfold SFltb.
  destruct (SFcompare _ _) as [[]|]; try done.
  - rewrite Hk. unfold key_lt. split; [done|lia].
  - split; [done|]. revert Hk. unfold key_lt. lia.
Qed.

Lemma leb_key (x y : float) :
  PrimFloat.is_nan x = false → PrimFloat.is_nan y = false →
  PrimFloat.leb x y = true
  ↔ key_lt (float_key (Prim2SF x)) (float_key (Prim2SF y))
    ∨ float_key (Prim2SF x) = float_key (Prim2SF y).
Proof.
  intros Hx%not_nan_Prim2SF Hy%not_nan_Prim2SF. rewrite FloatAxioms.leb_spec.
  pose proof (SFcompare_key _ _ Hx Hy) as Hk. unfold SFleb.
  destruct (SFcompare _ _) as [[]|]; try done.
  - split; [auto|done].
  - split; [auto|done].
  - split; [done|]. revert Hk. unfold key_lt. intros Hk [Hlt|Heq]; [|rewrite Heq in Hk]; lia.
Qed.

Lemma leb_not_nan (x y : float) : PrimFloat.leb x y = true → PrimFloat.is_nan x = false.
Proof.
  rewrite FloatAxioms.leb_spec. destruct (PrimFloat.is_nan x) eqn:Hn; [|done].
  apply is_nan_Prim2SF in Hn as ->. done.
Qed.

Lemma leb_refl (x : float) : PrimFloat.is_nan x = false → PrimFloat.leb x x = true.
Proof. intros Hx. apply leb_key; auto. Qed.

Lemma leb_false_ltb (x y : float) :
  PrimFloat.is_nan x = false → PrimFloat.is_nan y = false →
  PrimFloat.leb x y = false → PrimFloat.ltb y x = true.
Proof.
  intros Hx Hy Hle. apply ltb_key; [done..|].
  destruct (decide (key_lt (float_key (Prim2SF y)) (float_key (Prim2SF x)))) as [|Hn];
    [done|].
  assert (PrimFloat.leb x y = true); [|congruence]. apply leb_key; [done..|].
  revert Hn. unfold key_lt.
  destruct (float_key (Prim2SF x)) as [[a b] c], (float_key (Prim2SF y)) as [[a' b'] c'].
  simpl. intros Hn.
  destruct (decide (a = a' ∧ b = b' ∧ c = c')) as [(-> & -> & ->)|]; [by right|left; lia].
Qed.

Lemma leb_ltb_trans (x y z : float) :
  PrimFloat.is_nan x = false → PrimFloat.is_nan y = false → PrimFloat.is_nan z = false →
  PrimFloat.leb x y = true → PrimFloat.ltb y z = true → PrimFloat.ltb x z = true.
Proof.
  intros Hx Hy Hz. rewrite leb_key, !ltb_key by done. unfold key_lt.
  intros [Hlt| ->]; [|done]. lia.
Qed.

Lemma ltb_leb (x y : float) :
  PrimFloat.is_nan x = false → PrimFloat.is_nan y = false →
  PrimFloat.ltb x y = true → PrimFloat.leb x y = true.
Proof. intros Hx Hy. rewrite leb_key, ltb_key by done. auto. Qed.

Lemma argmax_scan_first_best rest pre mp max_ind :
  PrimFloat.is_nan mp = false →
  pre !! max_ind = Some mp →
  (∀ x, x ∈ pre → PrimFloat.is_nan x = false ∧ PrimFloat.leb x mp = true) →
  (∀ j x, j < max_ind → pre !! j = Some x → PrimFloat.ltb x mp = true) →
  ∃ best, first_best (pre ++ rest) (argmax_scan mp max_ind (length pre) rest) best.
Proof.
  revert pre mp max_ind. induction rest as [|x rest IH]; intros pre mp max_ind Hmp Hat Hle Hlt.
  - simpl. exists mp. rewrite (right_id_L [] (++)). split; [done|]. split.
    + intros j y Hj Hy. apply Hle. by eapply list_elem_of_lookup_2.
    + intros _. split; [done|]. done.
  - simpl. destruct (PrimFloat.leb x mp) eqn:Hx; simpl.
    + assert (Hxn : PrimFloat.is_nan x = false) by (by eapply leb_not_nan).
      specialize (IH (pre ++ [x]) mp max_ind Hmp).
      rewrite length_app, <- (assoc_L (++)) in IH. simpl in IH.
      replace (length pre + 1) with (S (length pre)) in IH by lia. apply IH.
      * by apply lookup_app_l_Some.
      * intros y [Hy|Hy%list_elem_of_singleton]%elem_of_app; [by apply Hle|by subst].
      * intros j y Hj Hy. apply (Hlt j y Hj).
        apply lookup_lt_Some in Hat. by rewrite lookup_app_l in Hy by lia.
    + destruct (PrimFloat.is_nan x) eqn:Hxn.
      * exists x. split; [by rewrite list_lookup_middle|]. split; [|congruence].
        intros j y Hj Hy. rewrite lookup_app_l in Hy by done.
        apply Hle. by eapply list_elem_of_lookup_2.
      * pose proof (leb_false_ltb x mp Hxn Hmp Hx) as Hgt.
        specialize (IH (pre ++ [x]) x (length pre) Hxn).
        rewrite length_app, <- (assoc_L (++)) in IH. simpl in IH.
        replace (length pre + 1) with (S (length pre)) in IH by lia. apply IH.
        -- by rewrite list_lookup_middle.
        -- intros y [Hy|Hy%list_elem_of_singleton]%elem_of_app.
           ++ destruct (Hle y Hy) as [Hyn Hym]. split; [done|].
              apply ltb_leb; [done..|]. by apply (leb_ltb_trans y mp x).
           ++ subst. split; [done|]. by apply leb_refl.
        -- intros j y Hj Hy. rewrite lookup_app_l in Hy by done.
           destruct (Hle y) as [Hyn Hym]; [by eapply list_elem_of_lookup_2|].
           by apply (leb_ltb_trans y mp x).
Qed.

Lemma np_argmax_first_best row idx :
  np_argmax row = Ok idx → ∃ best, first_best row idx best.
Proof.
  destruct row as [|x rest]; simpl; [done|].
  destruct (PrimFloat.is_nan x) eqn:Hx; intros [= <-].
  - exists x. split; [done|]. split; [intros; lia|congruence].
  - apply (argmax_scan_first_best rest [x] x 0 Hx eq_refl).
    + intros y ->%list_elem_of_singleton. split; [done|]. by apply leb_refl.
    + intros; lia.
Qed.

(** The match is the best one. For every input row, the score reported is
    the entry of its similarity row at the index that [np.argmax] returns
    and the label is the target at that index. When the row holds no NaN,
    that score is the maximum of the row and the index is the first one that
    holds it: among targets of equal similarity the earliest wins. When the
    row holds a NaN, the first NaN is what is reported. *)
Theorem best_match_is_first_maximum target_list sim batch_matches batch_scores :
  match_rows target_list sim = Ok (batch_matches, batch_scores) →
  Forall2 (λ row m, ∃ idx,
             target_list !! idx = Some m.1 ∧ first_best row idx m.2)
    sim (zip batch_matches batch_scores)
  ∧ length batch_matches = length sim
  ∧ length batch_scores = length sim.
Proof.
  revert batch_matches batch_scores.
  induction sim as [|row sim IH]; intros ms ss; simpl.
  - intros [= <- <-]. split; [constructor|done].
  - destruct (np_argmax row) as [idx|] eqn:Hidx; [|done].
    destruct (target_list !! idx) as [label|] eqn:Hl; [|done].
    destruct (row !! idx) as [score|] eqn:Hs; [|done].
    destruct (match_rows target_list sim) as [[ms' ss']|]; [|done].
    intros [= <- <-]. destruct (IH _ _ eq_refl) as (IH1 & IH2 & IH3).
    split; [|simpl; by rewrite IH2, IH3]. simpl. constructor; [|done].
    exists idx. split; [done|]. simpl.
    destruct (np_argmax_first_best row idx Hidx) as [best Hbest].
    destruct Hbest as (Hat & ?). rewrite Hs in Hat. by simplify_eq.
Qed.

End Argmax.

(** Two similarity rows against three targets: a tie between the first and
    the third target, and a row with a NaN. *)
Lemma best_match_is_first_maximum_witness :
  Forall2 (λ row m, ∃ idx,
             ["apple"; "pear"; "plum"] !! idx = Some m.1 ∧ first_best row idx m.2)
    [[0.9; 0.1; 0.9]; [0.2; nan; 0.7]]%float
    (zip ["apple"; "pear"] [0.9; nan]%float)
  ∧ length ["apple"; "pear"] = 2
  ∧ length [0.9; nan]%float = 2.
Proof.
  exact (best_match_is_first_maximum ["apple"; "pear"; "plum"]
           [[0.9; 0.1; 0.9]; [0.2; nan; 0.7]]%float ["apple"; "pear"] [0.9; nan]%float
           ltac:(vm_compute; reflexivity)).
Defined.

(** ** Text cleaning *)

Section CleaningFacts.

Context {char : Type} `{EqDecision char}.
Context (isspace isword : char → bool).
Context (SPACE COMMA FULL_STOP HYPHEN_MINUS : char).
Context (lower : list char → list char).
Hypothesis space_is_whitespace : isspace SPACE = true.

Local Abbreviation lstrip := (Cleaning.lstrip isspace).
Local Abbreviation strip := (Cleaning.strip isspace).
Local Abbreviation sub_whitespace := (Cleaning.sub_whitespace isspace SPACE).
Local Abbreviation well_spaced := (Cleaning.well_spaced isspace SPACE).
Local Abbreviation normal := (Cleaning.normal isspace SPACE).
Local Abbreviation visible := (λ c : char, isspace c = false).

Lemma lstrip_head s c : head (lstrip s) = Some c → isspace c = false.
Proof.
  induction s as [|d s IH]; cbn; [done|].
  destruct (isspace d) eqn:Hd; [done|]. cbn. by intros [= <-].
Qed.

Lemma lstrip_fixed s : (∀ c, head s = Some c → isspace c = false) → lstrip s = s.
Proof.
  destruct s as [|d s]; cbn; [done|]. intros Hh. by rewrite (Hh d eq_refl).
Qed.

Lemma lstrip_suffix s : ∃ sp, s = sp ++ lstrip s.
Proof.
  induction s as [|d s [sp IH]]; cbn; [by exists []|].
  destruct (isspace d); [|by exists []].
  exists (d :: sp). cbn. by f_equal.
Qed.

Lemma lstrip_visible s : filter visible (lstrip s) = filter visible s.
Proof.
  induction s as [|d s IH]; cbn [Cleaning.lstrip]; [done|].
  destruct (isspace d) eqn:Hd; [|done].
  rewrite filter_cons_False; [exact IH|]. cbn. by rewrite Hd.
Qed.

Lemma head_reverse (s : list char) : head (reverse s) = last s.
Proof. by rewrite <- (reverse_involutive s) at 2; rewrite last_reverse. Qed.

Lemma strip_last s c : last (strip s) = Some c → isspace c = false.
Proof. unfold Cleaning.strip. rewrite last_reverse. apply lstrip_head. Qed.

Lemma strip_head s c : head (strip s) = Some c → isspace c = false.
Proof.
  unfold Cleaning.strip. set (t := lstrip s).
  destruct (lstrip_suffix (reverse t)) as [sp Hsp].
  set (u := lstrip (reverse t)) in *.
  assert (Ht : t = reverse u ++ reverse sp).
  { by rewrite <- reverse_app, <- Hsp, reverse_involutive. }
  intros Hh. apply (lstrip_head s). fold t. rewrite Ht.
  destruct (reverse u); [done|]. exact Hh.
Qed.

Lemma strip_visible s : filter visible (strip s) = filter visible s.
Proof.
  unfold Cleaning.strip.
  by rewrite filter_reverse, lstrip_visible, filter_reverse, reverse_involutive,
    lstrip_visible.
Qed.

Lemma strip_fixed s :
  (∀ c, head s = Some c → isspace c = false) →
  (∀ c, last s = Some c → isspace c = false) → strip s = s.
Proof.
  intros Hh Hl. unfold Cleaning.strip. rewrite (lstrip_fixed s Hh).
  rewrite lstrip_fixed, reverse_involutive; [done|].
  intros c. rewrite head_reverse. apply Hl.
Qed.

Lemma sub_whitespace_visible r s :
  filter visible (sub_whitespace r s) = filter visible s.
Proof using space_is_whitespace.
  revert r. induction s as [|d s IH]; intros r; cbn [Cleaning.sub_whitespace]; [done|].
  destruct (isspace d) eqn:Hd.
  - rewrite (filter_cons_False _ d) by by rewrite Hd.
    destruct r; [done|]. rewrite filter_cons_False by by rewrite space_is_whitespace.
    done.
  - rewrite !filter_cons_True by done. by rewrite IH.
Qed.

Lemma sub_whitespace_well_spaced s r :
  (∀ c, last s = Some c → isspace c = false) → (r = true → s ≠ []) →
  well_spaced r (sub_whitespace r s).
Proof using space_is_whitespace.
  revert r. induction s as [|d s IH]; intros r Hl Hr; cbn.
  - destruct r; [by destruct Hr|done].
  - assert (Hl' : ∀ c, last s = Some c → isspace c = false).
    { intros c Hc. apply Hl. by destruct s. }
    destruct (isspace d) eqn:Hd.
    + assert (s ≠ []) as Hs.
      { intros ->. by rewrite (Hl d eq_refl) in Hd. }
      destruct r; cbn.
      * by apply IH.
      * rewrite space_is_whitespace. repeat split. by apply IH.
    + cbn. rewrite Hd. by apply IH.
Qed.

Lemma well_spaced_fixed s r : well_spaced r s → sub_whitespace r s = s.
Proof.
  revert r. induction s as [|d s IH]; intros r; cbn; [done|].
  destruct (isspace d) eqn:Hd.
  - intros (-> & -> & Hs). f_equal. by apply IH.
  - intros Hs. f_equal. by apply IH.
Qed.

Lemma well_spaced_last s r c : well_spaced r s → last s = Some c → isspace c = false.
Proof.
  revert r. induction s as [|d s IH]; intros r; cbn; [done|].
  destruct s as [|e s].
  - destruct (isspace d) eqn:Hd; cbn.
    + by intros (_ & _ & ?).
    + by intros _ [= <-].
  - destruct (isspace d); [intros (_ & _ & Hs)|intros Hs]; by apply (IH _ Hs).
Qed.

Lemma well_spaced_head s c : well_spaced true s → head s = Some c → isspace c = false.
Proof.
  destruct s as [|d s]; cbn; [done|].
  destruct (isspace d) eqn:Hd; [by intros (? & _)|]. by intros _ [= <-].
Qed.

Lemma well_spaced_adjacent s r i c d :
  well_spaced r s → s !! i = Some c → s !! S i = Some d →
  isspace c = true → isspace d = false.
Proof.
  revert r i. induction s as [|e s IH]; intros r i; [done|].
  destruct i as [|i]; cbn.
  - intros Hs [= ->] Hd Hc. rewrite Hc in Hs. destruct Hs as (_ & _ & Hs).
    apply (well_spaced_head s d Hs). by destruct s.
  - destruct (isspace e); [intros (_ & _ & Hs)|intros Hs]; by apply (IH _ _ Hs).
Qed.

Lemma well_spaced_spaces s r c : well_spaced r s → c ∈ s → isspace c = true → c = SPACE.
Proof.
  revert r. induction s as [|e s IH]; intros r; cbn; [by intros _ ?%elem_of_nil|].
  intros Hs [->|Hin]%elem_of_cons Hc.
  - rewrite Hc in Hs. by destruct Hs as (_ & -> & _).
  - destruct (isspace e); [destruct Hs as (_ & _ & Hs)|]; by apply (IH _ Hs).
Qed.

Lemma well_spaced_start s r : well_spaced true s → sub_whitespace r s = s.
Proof.
  destruct s as [|d s]; cbn; [done|].
  destruct (isspace d) eqn:Hd; [by intros (? & _)|].
  intros Hs. f_equal. by apply well_spaced_fixed.
Qed.

Lemma cleaned_normal s : normal (sub_whitespace false (strip s)).
Proof using space_is_whitespace.
  pose proof (strip_head s) as Hh. pose proof (strip_last s) as Hl.
  destruct (strip s) as [|d t] eqn:Ht; [by left|]. right.
  cbn. rewrite (Hh d eq_refl). cbn. rewrite (Hh d eq_refl).
  apply sub_whitespace_well_spaced; [|done].
  intros c Hc. apply Hl. by destruct t.
Qed.

Lemma normal_fixed s : normal s → sub_whitespace false (strip s) = s.
Proof.
  intros [->|Hs]; [done|].
  rewrite strip_fixed.
  - by apply well_spaced_start.
  - intros c. by apply well_spaced_head.
  - intros c. by apply well_spaced_last with true.
Qed.

(** Cleaning for the embedding model puts every text in normal form: no
    whitespace at either end, every whitespace a single U+0020 followed by
    something visible; what is not whitespace is kept, in order; and the
    list keeps its length. *)
Theorem clean_text_for_embedding_normal_form text_list :
  Forall2 (λ text out,
      (∀ c, head out = Some c → isspace c = false)
      ∧ (∀ c, last out = Some c → isspace c = false)
      ∧ (∀ c, c ∈ out → isspace c = true → c = SPACE)
      ∧ (∀ i c d, out !! i = Some c → out !! S i = Some d →
           isspace c = true → isspace d = false)
      ∧ filter (λ c, isspace c = false) out = filter (λ c, isspace c = false) text)
    text_list (Cleaning.clean_text_for_embedding isspace SPACE text_list).
Proof using space_is_whitespace.
  unfold Cleaning.clean_text_for_embedding.
  apply Forall2_fmap_r, Forall_Forall2_diag, Forall_forall. intros s _. cbn.
  split_and!.
  - destruct (cleaned_normal s) as [->|Hs]; [done|]. intros c. by apply well_spaced_head.
  - destruct (cleaned_normal s) as [->|Hs]; [done|].
    intros c. by apply well_spaced_last with true.
  - destruct (cleaned_normal s) as [->|Hs]; [by intros c ?%elem_of_nil|].
    intros c. by apply well_spaced_spaces with true.
  - destruct (cleaned_normal s) as [->|Hs]; [done|].
    intros i c d. by apply well_spaced_adjacent with true.
  - by rewrite sub_whitespace_visible, strip_visible.
Qed.

(** Cleaning twice is cleaning once, and the lexical cleaning of cleaned
    texts is the lexical cleaning of the texts. *)
Theorem clean_text_for_embedding_idempotent text_list :
  Cleaning.clean_text_for_embedding isspace SPACE
    (Cleaning.clean_text_for_embedding isspace SPACE text_list)
  = Cleaning.clean_text_for_embedding isspace SPACE text_list
  ∧ Cleaning.clean_text_simple isspace isword SPACE COMMA FULL_STOP HYPHEN_MINUS lower
      (Cleaning.clean_text_for_embedding isspace SPACE text_list)
    = Cleaning.clean_text_simple isspace isword SPACE COMMA FULL_STOP HYPHEN_MINUS lower
        text_list.
Proof using space_is_whitespace.
  cbn. unfold Cleaning.clean_text_for_embedding, Cleaning.clean_text_simple.
  rewrite <- !list_fmap_compose. split.
  - apply list_fmap_ext. intros _ s _.
    cbn -[Cleaning.strip Cleaning.sub_whitespace]. apply normal_fixed, cleaned_normal.
  - apply list_fmap_ext. intros _ s _.
    cbn -[Cleaning.strip Cleaning.sub_whitespace Cleaning.sub_other].
    by rewrite (normal_fixed _ (cleaned_normal s)).
Qed.

End CleaningFacts.

(** The text " a  b" with a trailing tab, in ASCII. *)
Lemma clean_text_for_embedding_normal_form_witness :
  Forall2 (λ text out,
      (∀ c, head out = Some c → AsciiText.isspace c = false)
      ∧ (∀ c, last out = Some c → AsciiText.isspace c = false)
      ∧ (∀ c, c ∈ out → AsciiText.isspace c = true → c = AsciiText.SPACE)
      ∧ (∀ i c d, out !! i = Some c → out !! S i = Some d →
           AsciiText.isspace c = true → AsciiText.isspace d = false)
      ∧ filter (λ c, AsciiText.isspace c = false) out
        = filter (λ c, AsciiText.isspace c = false) text)
    [[32; 97; 32; 32; 98; 9]] [[97; 32; 98]].
Proof.
  exact (clean_text_for_embedding_normal_form AsciiText.isspace AsciiText.SPACE eq_refl
           [[32; 97; 32; 32; 98; 9]]).
Defined.

(** The text " A,  b!" in ASCII: cleaned for the embedding model it is
    "A, b!", and its lexical cleaning is "a, b" either way. *)
Lemma clean_text_for_embedding_idempotent_witness :
  Cleaning.clean_text_for_embedding AsciiText.isspace AsciiText.SPACE
    [[65; 44; 32; 98; 33]]
  = [[65; 44; 32; 98; 33]]
  ∧ Cleaning.clean_text_simple AsciiText.isspace AsciiText.isword AsciiText.SPACE
      AsciiText.COMMA AsciiText.FULL_STOP AsciiText.HYPHEN_MINUS AsciiText.lower
      [[65; 44; 32; 98; 33]]
    = [[97; 44; 32; 98]].
Proof.
  exact (clean_text_for_embedding_idempotent AsciiText.isspace AsciiText.isword
           AsciiText.SPACE AsciiText.COMMA AsciiText.FULL_STOP AsciiText.HYPHEN_MINUS
           AsciiText.lower eq_refl [[32; 65; 44; 32; 32; 98; 33]]).
Defined.

(** ** The deduplicated targets, from the upload to the labels *)

Section Targets.
Context {vec model : Type}.
Context (clean_embedding1 clean_simple1 : text → text).
Context (cosine_similarity : @matrix vec → @matrix vec → result (list (list float))).
Local Abbreviation world := (@world model).
Local Abbreviation resilient :=
  (@compute_embeddings_resilient_async vec model clean_embedding1).
Local Abbreviation start := (@run_matching_start vec model clean_simple1).
Local Abbreviation asks := (@embeds vec model clean_embedding1).
Local Abbreviation anything := (λ _ : @Globals model, True).
Local Abbreviation any_notice := (λ _ : notice, True).








End Targets.

